(** * playkit-js: the event binding registry and the ads controller

    A shallow embedding of [EventManager] (event/event-manager.js) and of
    [AdsController] (src/ads/ads-controller.js), with the properties their
    specification states about them.

    Conventions of the embedding.
    - JavaScript objects that are mutated through several references
      (the [Binding_] objects, which live both in the registry's map and in
      the arrays [get]/[getAll] hand out) are kept in a store and referred
      to by their index in it.
    - Calls into collaborators (the event targets, the ad plugin
      controllers, the player) are appended to a log carried by the state.
    - Positions and times are whole numbers of seconds, modelled as [Z].
      The current time of the player, when it is not a number
      ([undefined], [null]), is [None]: the code tests it for truthiness,
      or for its type, before it compares it, so that the two behave
      alike.  The two thresholds of the configuration are compared
      untested, and keep [null] and [undefined] apart.
    - The messages of the debug logger are left out; warnings are kept. *)

From stdpp Require Import gmap strings list fin_maps pretty sorting.
From Stdlib Require Import ZArith Lia.

Local Open Scope Z_scope.
Local Open Scope nat_scope.

(** ** utils/multi-map *)

Module MultiMap.
Section multimap.
Context {T : Type} `{EqDecision T}.

(** Modelled from the spec: the class [MultiMap] (utils/multi-map) is not
    among the sources.  The registry "owns a mapping from event-type
    (string key) to an ordered sequence of Bindings (insertion order
    preserved; duplicates [...] allowed and independently removable)".
    [push] appends to the sequence of the key. *)
Definition push (key : string) (value : T) (m : gmap string (list T))
  : gmap string (list T) :=
  <[key := default [] (m !! key) ++ [value]]> m.

(** Modelled from the spec: [MultiMap.get], the sequence stored for the
    key, empty when there is none.  It is a fresh array: the caller may
    walk it while the stored sequence is edited. *)
Definition get (key : string) (m : gmap string (list T)) : list T :=
  default [] (m !! key).

(** Modelled from the spec: [MultiMap.getAll], the sequences of all keys
    put together in a fresh array. *)
Definition getAll (m : gmap string (list T)) : list T :=
  mjoin (map_to_list m).*2.

(** Modelled from the spec: [MultiMap.remove], which takes the value out
    of the sequence of the key. *)
Definition remove (key : string) (value : T) (m : gmap string (list T))
  : gmap string (list T) :=
  alter (filter (λ x, x ≠ value)) key m.

(** Modelled from the spec: [MultiMap.clear], after which "the mapping is
    empty". *)
Definition clear (m : gmap string (list T)) : gmap string (list T) := ∅.
End multimap.
End MultiMap.

(** ** event/event-manager.js *)

Module EventManager.

(** A reference to a [Binding_] object: its index in the store. *)
Abbreviation ref := nat.

Section registry.
Context {Target Listener : Type} `{EqDecision Target}.

Record Binding_ := mkBinding {
  target : option Target;
  type : string;
  listener : option Listener
}.

(** What a binding asks of its event target. *)
Inductive HostCall :=
| addEventListener (t : Target) (ty : string) (l : Listener)
| removeEventListener (t : Target) (ty : string) (l : option Listener).

Record EventManager := mkEventManager {
  store : list Binding_;
  _bindingMap : option (gmap string (list ref));
  calls : list (ref * HostCall)
}.

Definition set_bindingMap (m : option (gmap string (list ref)))
    (s : EventManager) : EventManager :=
  {| store := store s; _bindingMap := m; calls := calls s |}.

(** [new EventManager()] *)
Definition new : EventManager :=
  {| store := []; _bindingMap := Some ∅; calls := [] |}.

(** [new Binding_(target, type, listener)]: the constructor attaches the
    listener; the new object's reference is returned with the state. *)
Definition Binding_new (t : Target) (ty : string) (l : Listener)
    (s : EventManager) : ref * EventManager :=
  let b := length (store s) in
  (b, {| store := store s ++ [mkBinding (Some t) ty (Some l)];
         _bindingMap := _bindingMap s;
         calls := calls s ++ [(b, addEventListener t ty l)] |}).

(** [Binding_.unlisten()] *)
Definition Binding_unlisten (b : ref) (s : EventManager) : EventManager :=
  match store s !! b with
  | Some bd =>
      match target bd with
      | None => s
      | Some t =>
          {| store := <[b := mkBinding None (type bd) None]> (store s);
             _bindingMap := _bindingMap s;
             calls := calls s ++ [(b, removeEventListener t (type bd) (listener bd))] |}
      end
  | None => s
  end.

Definition listen (t : Target) (ty : string) (l : Listener)
    (s : EventManager) : EventManager :=
  let '(binding, s1) := Binding_new t ty l s in
  match _bindingMap s1 with
  | Some m => set_bindingMap (Some (MultiMap.push ty binding m)) s1
  | None => s1
  end.

(** [binding.target == target] *)
Definition target_is (t : Target) (b : ref) (s : EventManager) : bool :=
  match store s !! b with
  | Some bd => bool_decide (target bd = Some t)
  | None => false
  end.

(** The body of the [for] loop of [unlisten], at the element [binding]
    of the array [list]. *)
Definition unlisten_step (t : Target) (ty : string)
    (s : EventManager) (binding : ref) : EventManager :=
  if target_is t binding s then
    let s1 := Binding_unlisten binding s in
    match _bindingMap s1 with
    | Some m => set_bindingMap (Some (MultiMap.remove ty binding m)) s1
    | None => s1
    end
  else s.

Definition unlisten (t : Target) (ty : string) (s : EventManager)
    : EventManager :=
  match _bindingMap s with
  | Some m => foldl (unlisten_step t ty) s (MultiMap.get ty m)
  | None => s
  end.

Definition removeAll (s : EventManager) : EventManager :=
  match _bindingMap s with
  | Some m =>
      let listeners := MultiMap.getAll m in
      let s1 := foldl (λ s listener, Binding_unlisten listener s) s listeners in
      match _bindingMap s1 with
      | Some m1 => set_bindingMap (Some (MultiMap.clear m1)) s1
      | None => s1
      end
  | None => s
  end.

Definition destroy (s : EventManager) : EventManager :=
  set_bindingMap None (removeAll s).

(** Sequences of calls on a registry. *)
Inductive Op :=
| Listen (t : Target) (ty : string) (l : Listener)
| Unlisten (t : Target) (ty : string)
| RemoveAll.

Definition apply_op (s : EventManager) (o : Op) : EventManager :=
  match o with
  | Listen t ty l => listen t ty l s
  | Unlisten t ty => unlisten t ty s
  | RemoveAll => removeAll s
  end.

Definition run (ops : list Op) (s : EventManager) : EventManager :=
  foldl apply_op s ops.

(** How many of the calls are calls of [listen]. *)
Definition is_listen (o : Op) : bool :=
  match o with
  | Listen _ _ _ => true
  | _ => false
  end.

Definition listens (ops : list Op) : nat :=
  length (List.filter is_listen ops).

(** The calls a given binding has issued, oldest first. *)
Definition calls_of (b : ref) (s : EventManager) : list HostCall :=
  (filter (λ c, c.1 = b) (calls s)).*2.

(** Every reference stored under some key. *)
Definition stored (b : ref) (s : EventManager) : Prop :=
  ∃ m, _bindingMap s = Some m ∧ b ∈ MultiMap.getAll m.

Definition stored_under (ty : string) (b : ref) (s : EventManager) : Prop :=
  ∃ m, _bindingMap s = Some m ∧ b ∈ MultiMap.get ty m.

(** The bindings held for an event type. *)
Definition held (ty : string) (s : EventManager) : list ref :=
  match _bindingMap s with
  | Some m => MultiMap.get ty m
  | None => []
  end.

(** What [Binding_.unlisten()] leaves of a binding, and the call it makes. *)
Definition detached (bd : Binding_) : Binding_ :=
  match target bd with
  | Some _ => mkBinding None (type bd) None
  | None => bd
  end.

Definition detach_call (b : ref) (o : option Binding_) : list (ref * HostCall) :=
  match o with
  | Some bd =>
      match target bd with
      | Some t => [(b, removeEventListener t (type bd) (listener bd))]
      | None => []
      end
  | None => []
  end.

(** A binding is attached from its construction until its [unlisten()],
    and the calls it has issued say which. *)
Definition binding_ok (bd : Binding_) (cs : list HostCall) : Prop :=
  match target bd, listener bd with
  | Some t, Some l => cs = [addEventListener t (type bd) l]
  | None, None =>
      ∃ t l, cs = [addEventListener t (type bd) l;
                   removeEventListener t (type bd) (Some l)]
  | _, _ => False
  end.

(** The state of a registry in use: it has its map; every binding ever
    made is attached or detached, with the calls to match; the attached
    ones are exactly the ones the map holds, each under its own type. *)
Record wf (s : EventManager) : Prop := {
  wf_map : is_Some (_bindingMap s);
  wf_binding : ∀ b bd, store s !! b = Some bd → binding_ok bd (calls_of b s);
  wf_fresh : ∀ b, store s !! b = None → calls_of b s = [];
  wf_held : ∀ b bd, store s !! b = Some bd → is_Some (target bd) →
            stored_under (type bd) b s;
  wf_attached : ∀ ty b, stored_under ty b s →
            ∃ bd, store s !! b = Some bd ∧ is_Some (target bd) ∧ type bd = ty
}.

(** Whether the loop of [unlisten], walking the array [l] from the state
    [s], detaches the binding [x]: it is in the array and has the target. *)
Definition hit (t : Target) (l : list ref) (s : EventManager) (x : ref) : bool :=
  bool_decide (x ∈ l) && target_is t x s.

(** The store only grows, and a binding keeps its type. *)
Definition grows (s s' : EventManager) : Prop :=
  ∀ b bd, store s !! b = Some bd →
          ∃ bd', store s' !! b = Some bd' ∧ type bd' = type bd.

(** The references of the bindings made so far, oldest first. *)
Definition refs (s : EventManager) : list ref := seq 0 (length (store s)).

(** Whether the binding [b] is attached, and for the event type [ty]. *)
Definition attached_as (ty : string) (s : EventManager) (b : ref) : bool :=
  match store s !! b with
  | Some bd => bool_decide (is_Some (target bd)) && bool_decide (type bd = ty)
  | None => false
  end.

(** The [removeEventListener] calls of the bindings of [l] that have the
    target [t], in the order of [l]. *)
Definition detach_calls (t : Target) (l : list ref) (s : EventManager)
    : list (ref * HostCall) :=
  flat_map (λ b, if target_is t b s then detach_call b (store s !! b) else []) l.

(** The map holds, for every event type, the attached bindings of that
    type, oldest first. *)
Definition in_order (s : EventManager) : Prop :=
  ∀ ty, held ty s = filter (λ b, attached_as ty s b) (refs s).
End registry.
Arguments Binding_ : clear implicits.
Arguments HostCall : clear implicits.
Arguments EventManager : clear implicits.
Arguments Op : clear implicits.
End EventManager.

(** ** src/ads/ads-controller.js *)

Module AdsController.

(** Modelled from the spec: the event-type enumerations
    (ads/ad-event-type, event/event-type) are not among the sources.  The
    spec lists the notifications (manifest-ready, break-start, ad-loaded,
    ad-started, break-end, ads-completed, ad-error, session-reset,
    media-ended, time-progressed, seek-completed); their names as strings
    only have to be pairwise distinct. *)
Module AdEventType.
Definition AD_MANIFEST_LOADED : string := "admanifestloaded".
Definition AD_BREAK_START : string := "adbreakstart".
Definition AD_LOADED : string := "adloaded".
Definition AD_STARTED : string := "adstarted".
Definition AD_BREAK_END : string := "adbreakend".
Definition ADS_COMPLETED : string := "adscompleted".
Definition AD_ERROR : string := "aderror".
End AdEventType.

Module CustomEventType.
Definition PLAYER_RESET : string := "playerreset".
End CustomEventType.

Module Html5EventType.
Definition ENDED : string := "ended".
Definition TIME_UPDATE : string := "timeupdate".
Definition SEEKED : string := "seeked".
End Html5EventType.

(** Modelled from the spec: [Error.Severity] (error/error) is not among
    the sources; an ad error comes "with a severity", of which "only
    CRITICAL severity feeds into completion bookkeeping". *)
Inductive Severity := RECOVERABLE | CRITICAL.

#[global] Instance Severity_eq_dec : EqDecision Severity.
Proof. solve_decision. Defined.

(** Opaque references to ads and to the runtime ad-break and ad objects
    the plugins announce. *)
Definition PKAdObject := nat.
Definition AdBreak := nat.
Definition Ad := nat.

(** An entry of [config.advertising.adBreaks], of the type
    [PKAdBreakObject]: [position] may be anything (the filter tests its
    type), [ads] is an array (the filter reads [ads.length] and the map
    calls [ads.slice()] on it).  An entry with a numeric position and no
    [ads] at all is outside that type, and outside this model: the filter
    would throw reading its length. *)
Record PKAdBreakObject := mkPKAdBreak {
  pk_position : option Z;
  pk_ads : list PKAdObject
}.

Record RunTimeAdBreakObject := mkRunTimeAdBreak {
  position : Z;
  ads : list PKAdObject;
  played : bool
}.

(** A number of the configuration as the code may find it: a number,
    [null] or [undefined]. *)
Inductive ConfigNumber := number (n : Z) | null | undefined.

(** What the controller reads of the player. *)
Record Player := mkPlayer {
  currentTime : option Z;
  paused : bool;
  adBreaks : list PKAdBreakObject;   (* config.advertising.adBreaks *)
  playAdsAfterTime : ConfigNumber;   (* config.advertising.playAdsAfterTime *)
  startTime : ConfigNumber           (* config.playback.startTime *)
}.

(** What the controller reads of an ad plugin controller. *)
Record IAdsPluginController := mkPlugin {
  name : string;
  active : bool;
  done : bool
}.

Inductive Notification :=
| AD_MANIFEST_LOADED (adBreaksPosition : list Z)
| AD_BREAK_START (adBreak : AdBreak)
| AD_LOADED (ad : Ad)
| AD_STARTED (ad : Ad)
| AD_BREAK_END
| ADS_COMPLETED
| AD_ERROR (severity : Severity)
| PLAYER_RESET
| ENDED
| TIME_UPDATE
| SEEKED.

Definition type_of (e : Notification) : string :=
  match e with
  | AD_MANIFEST_LOADED _ => AdEventType.AD_MANIFEST_LOADED
  | AD_BREAK_START _ => AdEventType.AD_BREAK_START
  | AD_LOADED _ => AdEventType.AD_LOADED
  | AD_STARTED _ => AdEventType.AD_STARTED
  | AD_BREAK_END => AdEventType.AD_BREAK_END
  | ADS_COMPLETED => AdEventType.ADS_COMPLETED
  | AD_ERROR _ => AdEventType.AD_ERROR
  | PLAYER_RESET => CustomEventType.PLAYER_RESET
  | ENDED => Html5EventType.ENDED
  | TIME_UPDATE => Html5EventType.TIME_UPDATE
  | SEEKED => Html5EventType.SEEKED
  end.

(** The arrow functions the controller hands to its event manager. *)
Inductive Handler :=
| h_onAdManifestLoaded | h_onAdBreakStart | h_onAdLoaded | h_onAdStarted
| h_onAdBreakEnd | h_onAdsCompleted | h_onAdError | h_reset | h_onEnded
| h_timeUpdate | h_seeked.

#[global] Instance Handler_eq_dec : EqDecision Handler.
Proof. solve_decision. Defined.

(** A listener as attached: with [listen], or with [listenOnce]. *)
Inductive Listener := plain (h : Handler) | oneListener (h : Handler).

#[global] Instance Listener_eq_dec : EqDecision Listener.
Proof. solve_decision. Defined.

(** The only event target the controller listens on. *)
Inductive Target := the_player.

#[global] Instance Target_eq_dec : EqDecision Target.
Proof. solve_decision. Defined.

(** The callbacks registered with [finally] in [_onEnded]; the first
    closes over [adCtrl], a position in [_adsPluginControllers]. *)
Inductive Finally :=
| bumperComplete (adCtrl : option nat)
| adComplete.

(** Calls that leave the controller. *)
Inductive Effect :=
| ctrl_playAdNow (controller : nat) (ads : list PKAdObject)
| ctrl_skipAd (controller : nat)
| ctrl_onPlaybackEnded (controller : nat) (promise : nat)
| player_dispatch_AD_MANIFEST_LOADED (adBreaksPosition : list Z)
| dispatch_ALL_ADS_COMPLETED
| logger_warn (msg : string).

Record AdsController := mkAdsController {
  _adsPluginControllers : list IAdsPluginController;
  _allAdsCompleted : bool;
  _eventManager : EventManager.EventManager Target Listener;
  _adBreaksLayout : list Z;
  _adBreak : option AdBreak;
  _ad : option Ad;
  _adPlayed : bool;
  _snapback : Z;
  _configAdBreaks : list RunTimeAdBreakObject;
  _adIsLoading : bool;
  (** promises obtained from [onPlaybackEnded], by number, each with the
      callback waiting on it ([None] once it has run) *)
  promises : list (option Finally);
  (** the calls made so far, oldest first *)
  out : list Effect
}.
(** Assignments to the fields of [this]. *)
Definition set_adsPluginControllers (v : list IAdsPluginController) (s : AdsController) : AdsController :=
  {| _adsPluginControllers := v;
     _allAdsCompleted := _allAdsCompleted s;
     _eventManager := _eventManager s;
     _adBreaksLayout := _adBreaksLayout s;
     _adBreak := _adBreak s;
     _ad := _ad s;
     _adPlayed := _adPlayed s;
     _snapback := _snapback s;
     _configAdBreaks := _configAdBreaks s;
     _adIsLoading := _adIsLoading s;
     promises := promises s;
     out := out s |}.

Definition set_allAdsCompleted (v : bool) (s : AdsController) : AdsController :=
  {| _adsPluginControllers := _adsPluginControllers s;
     _allAdsCompleted := v;
     _eventManager := _eventManager s;
     _adBreaksLayout := _adBreaksLayout s;
     _adBreak := _adBreak s;
     _ad := _ad s;
     _adPlayed := _adPlayed s;
     _snapback := _snapback s;
     _configAdBreaks := _configAdBreaks s;
     _adIsLoading := _adIsLoading s;
     promises := promises s;
     out := out s |}.

Definition set_eventManager (v : EventManager.EventManager Target Listener) (s : AdsController) : AdsController :=
  {| _adsPluginControllers := _adsPluginControllers s;
     _allAdsCompleted := _allAdsCompleted s;
     _eventManager := v;
     _adBreaksLayout := _adBreaksLayout s;
     _adBreak := _adBreak s;
     _ad := _ad s;
     _adPlayed := _adPlayed s;
     _snapback := _snapback s;
     _configAdBreaks := _configAdBreaks s;
     _adIsLoading := _adIsLoading s;
     promises := promises s;
     out := out s |}.

Definition set_adBreaksLayout (v : list Z) (s : AdsController) : AdsController :=
  {| _adsPluginControllers := _adsPluginControllers s;
     _allAdsCompleted := _allAdsCompleted s;
     _eventManager := _eventManager s;
     _adBreaksLayout := v;
     _adBreak := _adBreak s;
     _ad := _ad s;
     _adPlayed := _adPlayed s;
     _snapback := _snapback s;
     _configAdBreaks := _configAdBreaks s;
     _adIsLoading := _adIsLoading s;
     promises := promises s;
     out := out s |}.

Definition set_adBreak (v : option AdBreak) (s : AdsController) : AdsController :=
  {| _adsPluginControllers := _adsPluginControllers s;
     _allAdsCompleted := _allAdsCompleted s;
     _eventManager := _eventManager s;
     _adBreaksLayout := _adBreaksLayout s;
     _adBreak := v;
     _ad := _ad s;
     _adPlayed := _adPlayed s;
     _snapback := _snapback s;
     _configAdBreaks := _configAdBreaks s;
     _adIsLoading := _adIsLoading s;
     promises := promises s;
     out := out s |}.

Definition set_ad (v : option Ad) (s : AdsController) : AdsController :=
  {| _adsPluginControllers := _adsPluginControllers s;
     _allAdsCompleted := _allAdsCompleted s;
     _eventManager := _eventManager s;
     _adBreaksLayout := _adBreaksLayout s;
     _adBreak := _adBreak s;
     _ad := v;
     _adPlayed := _adPlayed s;
     _snapback := _snapback s;
     _configAdBreaks := _configAdBreaks s;
     _adIsLoading := _adIsLoading s;
     promises := promises s;
     out := out s |}.

Definition set_adPlayed (v : bool) (s : AdsController) : AdsController :=
  {| _adsPluginControllers := _adsPluginControllers s;
     _allAdsCompleted := _allAdsCompleted s;
     _eventManager := _eventManager s;
     _adBreaksLayout := _adBreaksLayout s;
     _adBreak := _adBreak s;
     _ad := _ad s;
     _adPlayed := v;
     _snapback := _snapback s;
     _configAdBreaks := _configAdBreaks s;
     _adIsLoading := _adIsLoading s;
     promises := promises s;
     out := out s |}.

Definition set_snapback (v : Z) (s : AdsController) : AdsController :=
  {| _adsPluginControllers := _adsPluginControllers s;
     _allAdsCompleted := _allAdsCompleted s;
     _eventManager := _eventManager s;
     _adBreaksLayout := _adBreaksLayout s;
     _adBreak := _adBreak s;
     _ad := _ad s;
     _adPlayed := _adPlayed s;
     _snapback := v;
     _configAdBreaks := _configAdBreaks s;
     _adIsLoading := _adIsLoading s;
     promises := promises s;
     out := out s |}.

Definition set_configAdBreaks (v : list RunTimeAdBreakObject) (s : AdsController) : AdsController :=
  {| _adsPluginControllers := _adsPluginControllers s;
     _allAdsCompleted := _allAdsCompleted s;
     _eventManager := _eventManager s;
     _adBreaksLayout := _adBreaksLayout s;
     _adBreak := _adBreak s;
     _ad := _ad s;
     _adPlayed := _adPlayed s;
     _snapback := _snapback s;
     _configAdBreaks := v;
     _adIsLoading := _adIsLoading s;
     promises := promises s;
     out := out s |}.

Definition set_adIsLoading (v : bool) (s : AdsController) : AdsController :=
  {| _adsPluginControllers := _adsPluginControllers s;
     _allAdsCompleted := _allAdsCompleted s;
     _eventManager := _eventManager s;
     _adBreaksLayout := _adBreaksLayout s;
     _adBreak := _adBreak s;
     _ad := _ad s;
     _adPlayed := _adPlayed s;
     _snapback := _snapback s;
     _configAdBreaks := _configAdBreaks s;
     _adIsLoading := v;
     promises := promises s;
     out := out s |}.

Definition set_promises (v : list (option Finally)) (s : AdsController) : AdsController :=
  {| _adsPluginControllers := _adsPluginControllers s;
     _allAdsCompleted := _allAdsCompleted s;
     _eventManager := _eventManager s;
     _adBreaksLayout := _adBreaksLayout s;
     _adBreak := _adBreak s;
     _ad := _ad s;
     _adPlayed := _adPlayed s;
     _snapback := _snapback s;
     _configAdBreaks := _configAdBreaks s;
     _adIsLoading := _adIsLoading s;
     promises := v;
     out := out s |}.

Definition set_out (v : list Effect) (s : AdsController) : AdsController :=
  {| _adsPluginControllers := _adsPluginControllers s;
     _allAdsCompleted := _allAdsCompleted s;
     _eventManager := _eventManager s;
     _adBreaksLayout := _adBreaksLayout s;
     _adBreak := _adBreak s;
     _ad := _ad s;
     _adPlayed := _adPlayed s;
     _snapback := _snapback s;
     _configAdBreaks := _configAdBreaks s;
     _adIsLoading := _adIsLoading s;
     promises := promises s;
     out := v |}.

Definition emit (e : Effect) (s : AdsController) : AdsController :=
  set_out (out s ++ [e]) s.

(** *** JavaScript built-ins the controller uses *)

(** [Array.prototype.findIndex], [None] standing for [-1]. *)
Fixpoint findIndex {A} (f : A → bool) (l : list A) : option nat :=
  match l with
  | [] => None
  | x :: l' => if f x then Some 0 else S <$> findIndex f l'
  end.

(** The elements of an array with their indices: a filtered or found
    element of [_configAdBreaks] is the object in the array, which the
    index stands for. *)
Definition entries {A} (l : list A) : list (nat * A) :=
  imap (λ i x, (i, x)) l.

(** Truthiness of a number: neither [0] nor missing. *)
Definition truthy (x : option Z) : bool :=
  match x with
  | Some n => negb (n =? 0)%Z
  | None => false
  end.

(** [x || y] on numbers. *)
Definition js_or (x y : option Z) : option Z :=
  if truthy x then x else y.

(** [a <= y] for the current time [y] of the player, in the one place
    where the code compares them: behind the test [currentTime &&], which
    a current time that is not a number has already failed. *)
Definition le_num (a : Z) (y : option Z) : bool :=
  match y with
  | Some n => (a <=? n)%Z
  | None => false
  end.

(** Truthiness of a number of the configuration. *)
Definition truthy_config (x : ConfigNumber) : bool :=
  match x with
  | number n => negb (n =? 0)%Z
  | null | undefined => false
  end.

(** [x || y] on numbers of the configuration. *)
Definition or_config (x y : ConfigNumber) : ConfigNumber :=
  if truthy_config x then x else y.

(** [a <= y] for a number [y] of the configuration: [null] is converted
    to [0], [undefined] to [NaN], with which every comparison is false. *)
Definition le_config (a : Z) (y : ConfigNumber) : bool :=
  match y with
  | number n => (a <=? n)%Z
  | null => (a <=? 0)%Z
  | undefined => false
  end.

(** [x < b], false when [x] is not a number. *)
Definition num_lt (x : option Z) (b : Z) : bool :=
  match x with
  | Some n => (n <? b)%Z
  | None => false
  end.

(** [Array.prototype.sort(compare)] is stable; [insert_sorted le x l] puts
    [x], which came before the elements of [l], ahead of the first element
    it does not have to follow. *)
Fixpoint insert_sorted {A} (le : A → A → bool) (x : A) (l : list A) : list A :=
  match l with
  | [] => [x]
  | y :: l' => if le x y then x :: y :: l' else y :: insert_sorted le x l'
  end.

Definition sort_by {A} (le : A → A → bool) (l : list A) : list A :=
  foldr (insert_sorted le) [] l.

(** [sort((a, b) => a.position - b.position)] *)
Definition sort_by_position (l : list RunTimeAdBreakObject)
  : list RunTimeAdBreakObject :=
  sort_by (λ a b, (position a <=? position b)%Z) l.

(** [sort()] without a comparison function orders the elements by their
    string forms, compared code unit by code unit. *)
Definition toString (n : Z) : string := pretty n.

Definition default_sort (l : list Z) : list Z :=
  sort_by (λ a b, String.leb (toString a) (toString b)) l.

(** [Array.from(new Set(l))]: the first occurrence of every element, in
    order. *)
Fixpoint Array_from_Set (l : list Z) : list Z :=
  match l with
  | [] => []
  | x :: l' => x :: filter (λ y, y ≠ x) (Array_from_Set l')
  end.

(** [l.includes(x)] *)
Definition includes (x : Z) (l : list Z) : bool := bool_decide (x ∈ l).

(** *** The methods of the class *)

Definition isAdBreak (s : AdsController) : bool :=
  bool_decide (is_Some (_adBreak s)).

Definition getAdBreaksLayout (s : AdsController) : list Z := _adBreaksLayout s.

Definition getAdBreak (s : AdsController) : option AdBreak := _adBreak s.

Definition getAd (s : AdsController) : option Ad := _ad s.

Definition allAdsCompleted (s : AdsController) : bool := _allAdsCompleted s.

Definition _isBumper (controller : IAdsPluginController) : bool :=
  bool_decide (name controller = "bumper").

Definition skipAd (s : AdsController) : AdsController :=
  match findIndex active (_adsPluginControllers s) with
  | Some activeController => emit (ctrl_skipAd activeController) s
  | None => s
  end.

(** The ad break object handed to [_playAdBreak]: an element of
    [_configAdBreaks], or the object [playAdNow] has just built. *)
Inductive AdBreakObject :=
| configured (index : nat)
| on_demand (adBreak : RunTimeAdBreakObject).

Definition mark_played (b : RunTimeAdBreakObject) : RunTimeAdBreakObject :=
  {| position := position b; ads := ads b; played := true |}.

Definition _playAdBreak (adBreak : AdBreakObject) (s : AdsController)
  : AdsController :=
  match findIndex (λ controller, negb (_isBumper controller))
                  (_adsPluginControllers s) with
  | Some adController =>
      match adBreak with
      | configured i =>
          match _configAdBreaks s !! i with
          | Some b =>
              emit (ctrl_playAdNow adController (ads b))
                (set_adIsLoading true
                  (set_configAdBreaks (<[i := mark_played b]> (_configAdBreaks s)) s))
          | None => s
          end
      | on_demand b =>
          emit (ctrl_playAdNow adController (ads b)) (set_adIsLoading true s)
      end
  | None => emit (logger_warn "No ads plugin registered") s
  end.

Definition playAdNow (adPod : list PKAdObject) (p : Player) (s : AdsController)
  : AdsController :=
  if isAdBreak s then
    emit (logger_warn "Tried to call playAdNow during an ad break") s
  else
    _playAdBreak
      (on_demand {| position := default 0%Z (js_or (currentTime p) (Some 0%Z));
                    ads := adPod; played := false |}) s.

Definition _initMembers (s : AdsController) : AdsController :=
  set_adIsLoading false
    (set_snapback 0%Z
      (set_adPlayed false
        (set_ad None
          (set_adBreak None
            (set_adBreaksLayout []
              (set_allAdsCompleted true s)))))).

Definition em_listen (ty : string) (h : Handler) (s : AdsController)
  : AdsController :=
  set_eventManager (EventManager.listen the_player ty (plain h) (_eventManager s)) s.

(** Modelled from the spec: [EventManager.listenOnce] is not among the
    sources (the registry given there has [listen], [unlisten],
    [removeAll] and [destroy] only).  The spec gives the subscription
    ("the scheduler subscribes to all of these through the Binding
    Registry") and no more.  That this subscription ends with the first
    notification is read off the name of the method alone: it is an
    assumption, not a fact of the sources or of the spec.  The listener
    is attached as [oneListener]; [deliver] is where the assumption
    takes effect, and a statement that depends on it says so through the
    bindings held for ENDED. *)
Definition em_listenOnce (ty : string) (h : Handler) (s : AdsController)
  : AdsController :=
  set_eventManager
    (EventManager.listen the_player ty (oneListener h) (_eventManager s)) s.

Definition _addBindings (s : AdsController) : AdsController :=
  let s := em_listen AdEventType.AD_MANIFEST_LOADED h_onAdManifestLoaded s in
  let s := em_listen AdEventType.AD_BREAK_START h_onAdBreakStart s in
  let s := em_listen AdEventType.AD_LOADED h_onAdLoaded s in
  let s := em_listen AdEventType.AD_STARTED h_onAdStarted s in
  let s := em_listen AdEventType.AD_BREAK_END h_onAdBreakEnd s in
  let s := em_listen AdEventType.ADS_COMPLETED h_onAdsCompleted s in
  let s := em_listen AdEventType.AD_ERROR h_onAdError s in
  let s := em_listen CustomEventType.PLAYER_RESET h_reset s in
  em_listenOnce Html5EventType.ENDED h_onEnded s.

Definition _handleConfiguredPreroll (s : AdsController) : AdsController :=
  match findIndex (λ adBreak, (position adBreak =? 0)%Z && negb (played adBreak))
                  (_configAdBreaks s) with
  | Some i => _playAdBreak (configured i) s
  | None => s
  end.

(** The filter of the TIME_UPDATE listener. *)
Definition midroll_due (p : Player) (s : AdsController)
    (adBreak : RunTimeAdBreakObject) : bool :=
  negb (played adBreak) && truthy (currentTime p)
  && le_num (position adBreak) (currentTime p)
  && (_snapback s <? position adBreak)%Z.

(** The listener [_handleConfiguredMidrolls] attaches to TIME_UPDATE. *)
Definition onTimeUpdate (p : Player) (s : AdsController) : AdsController :=
  if negb (paused p) then
    let adBreaks :=
      List.filter (λ e, midroll_due p s e.2) (entries (_configAdBreaks s)) in
    match last adBreaks with
    | Some (i, lastAdBreak) =>
        _playAdBreak (configured i) (set_snapback (position lastAdBreak) s)
    | None => s
    end
  else s.

(** The listener [_handleConfiguredMidrolls] attaches to SEEKED. *)
Definition onSeeked (p : Player) (s : AdsController) : AdsController :=
  match findIndex (λ adBreak, played adBreak
                     && bool_decide (is_Some (currentTime p))
                     && num_lt (currentTime p) (position adBreak))
                  (_configAdBreaks s) with
  | Some nextPlayedAdBreakIndex =>
      match nextPlayedAdBreakIndex with
      | S previous =>
          match _configAdBreaks s !! previous with
          | Some b => if negb (played b) then set_snapback 0%Z s else s
          | None => s
          end
      | O => s
      end
  | None => s
  end.

Definition _handleConfiguredMidrolls (s : AdsController) : AdsController :=
  em_listen Html5EventType.SEEKED h_seeked
    (em_listen Html5EventType.TIME_UPDATE h_timeUpdate s).

Definition _onAdManifestLoaded (adBreaksPosition : list Z) (s : AdsController)
  : AdsController :=
  set_allAdsCompleted false
    (set_adBreaksLayout
      (default_sort (Array_from_Set (_adBreaksLayout s ++ adBreaksPosition))) s).

Definition _onAdBreakStart (adBreak : AdBreak) (s : AdsController)
  : AdsController :=
  set_adBreak (Some adBreak) s.

Definition _onAdLoaded (ad : Ad) (s : AdsController) : AdsController :=
  set_ad (Some ad) (set_adIsLoading false s).

Definition _onAdStarted (ad : Ad) (s : AdsController) : AdsController :=
  set_adPlayed true (set_ad (Some ad) s).

Definition _onAdBreakEnd (s : AdsController) : AdsController :=
  set_ad None (set_adBreak None s).

Definition _onAdsCompleted (s : AdsController) : AdsController :=
  if forallb done (_adsPluginControllers s)
     && forallb played (_configAdBreaks s)
  then emit dispatch_ALL_ADS_COMPLETED (set_allAdsCompleted true s)
  else s.

Definition _onAdError (severity : Severity) (s : AdsController)
  : AdsController :=
  let s := set_adIsLoading false s in
  if bool_decide (severity = CRITICAL)
     && forallb done (_adsPluginControllers s)
     && forallb played (_configAdBreaks s)
  then
    let s := set_allAdsCompleted true s in
    if _adPlayed s then emit dispatch_ALL_ADS_COMPLETED s else s
  else s.

Definition _handleConfiguredPostroll (s : AdsController) : AdsController :=
  match findIndex (λ adBreak, negb (played adBreak)
                     && (position adBreak =? -1)%Z)
                  (_configAdBreaks s) with
  | Some i =>
      _playAdBreak (configured i)
        (set_configAdBreaks (mark_played <$> _configAdBreaks s) s)
  | None => s
  end.

(** [controller.onPlaybackEnded().finally(callback)]: the call is logged
    with the number of the promise it returns, and the callback waits on
    that promise. *)
Definition onPlaybackEnded_finally (controller : nat) (callback : Finally)
    (s : AdsController) : AdsController :=
  emit (ctrl_onPlaybackEnded controller (length (promises s)))
    (set_promises (promises s ++ [Some callback]) s).

(** The callbacks of the two [finally] calls of [_onEnded]. *)
Definition run_finally (callback : Finally) (s : AdsController)
  : AdsController :=
  match callback with
  | bumperComplete adCtrl =>
      match adCtrl with
      | Some adCtrl => onPlaybackEnded_finally adCtrl adComplete s
      | None => s
      end
  | adComplete => _handleConfiguredPostroll s
  end.

(** [Promise.resolve().finally(callback)] runs the callback once the
    running listener has returned, ahead of any later notification; no
    statement of [_onEnded] follows it. *)
Definition _onEnded (s : AdsController) : AdsController :=
  if _adIsLoading s then s
  else if negb (includes (-1)%Z (_adBreaksLayout s)) then
    set_allAdsCompleted true s
  else
    let bumperCtrl := findIndex _isBumper (_adsPluginControllers s) in
    let adCtrl :=
      findIndex (λ controller, negb (_isBumper controller))
                (_adsPluginControllers s) in
    match bumperCtrl with
    | Some bumperCtrl =>
        onPlaybackEnded_finally bumperCtrl (bumperComplete adCtrl) s
    | None => run_finally (bumperComplete adCtrl) s
    end.

(** *** Notifications *)

(** A listener called with the event.  The listeners that read
    [event.payload] are given an event of their own type by [_addBindings];
    with any other event there is nothing for them to read, and the state is
    left as it is.  [h_reset] is added by [call] below. *)
Definition call0 (h : Handler) (e : Notification) (p : Player)
    (s : AdsController) : AdsController :=
  match h, e with
  | h_onAdManifestLoaded, AD_MANIFEST_LOADED adBreaksPosition =>
      _onAdManifestLoaded adBreaksPosition s
  | h_onAdBreakStart, AD_BREAK_START adBreak => _onAdBreakStart adBreak s
  | h_onAdLoaded, AD_LOADED ad => _onAdLoaded ad s
  | h_onAdStarted, AD_STARTED ad => _onAdStarted ad s
  | h_onAdBreakEnd, _ => _onAdBreakEnd s
  | h_onAdsCompleted, _ => _onAdsCompleted s
  | h_onAdError, AD_ERROR severity => _onAdError severity s
  | h_onEnded, _ => _onEnded s
  | h_timeUpdate, _ => onTimeUpdate p s
  | h_seeked, _ => onSeeked p s
  | _, _ => s
  end.

(** Modelled from the spec: one listener of the array being walked by
    [dispatchEvent] of the player, which is not among the sources.  A
    binding detached in the meantime is passed over.  For a listener
    attached with [listenOnce] the assumption made there applies: its
    binding is taken off the registry, with [unlisten(target, type)], the
    one removal the registry has, before the listener runs. *)
Definition deliver
    (call : Handler → Notification → Player → AdsController → AdsController)
    (e : Notification) (p : Player) (s : AdsController)
    (binding : EventManager.ref) : AdsController :=
  match EventManager.store (_eventManager s) !! binding with
  | Some bd =>
      match EventManager.target bd, EventManager.listener bd with
      | Some the_player, Some (plain h) => call h e p s
      | Some the_player, Some (oneListener h) =>
          call h e p
            (set_eventManager
               (EventManager.unlisten the_player (type_of e) (_eventManager s)) s)
      | _, _ => s
      end
  | None => s
  end.

(** Modelled from the spec: the player ([FakeEventTarget]) is not among the
    sources.  "Playback Source emits lifecycle events → Binding Registry
    delivers them to the Ad Scheduler's handlers": a notification runs, in
    the order of attachment, the listeners the controller's registry holds
    for its type. *)
Definition player_dispatchEvent
    (call : Handler → Notification → Player → AdsController → AdsController)
    (e : Notification) (p : Player) (s : AdsController) : AdsController :=
  match EventManager._bindingMap (_eventManager s) with
  | Some m => foldl (deliver call e p) s (MultiMap.get (type_of e) m)
  | None => s
  end.

(** The [filter] and [map] of [_handleConfiguredAdBreaks], on one entry. *)
Definition ingest (playAdsAfterTime : ConfigNumber) (adBreak : PKAdBreakObject)
  : option RunTimeAdBreakObject :=
  match pk_position adBreak with
  | Some pos =>
      if bool_decide (pk_ads adBreak ≠ []) then
        Some {| position := pos;
                ads := pk_ads adBreak;
                played := (-1 <? pos)%Z && le_config pos playAdsAfterTime |}
      else None
  | None => None
  end.

(** The local constant [playAdsAfterTime] of [_handleConfiguredAdBreaks]. *)
Definition playAdsAfterTime_of (p : Player) : ConfigNumber :=
  or_config (playAdsAfterTime p) (startTime p).

(** The value [_handleConfiguredAdBreaks] assigns to [_configAdBreaks]. *)
Definition configured_breaks (p : Player) : list RunTimeAdBreakObject :=
  sort_by_position (omap (ingest (playAdsAfterTime_of p)) (adBreaks p)).

(** The event the controller dispatches on the player comes back to its
    own AD_MANIFEST_LOADED listener before the next statement runs. *)
Definition _handleConfiguredAdBreaks (p : Player) (s : AdsController)
  : AdsController :=
  let s := set_configAdBreaks (configured_breaks p) s in
  if bool_decide (_configAdBreaks s ≠ []) then
    let adBreaksPosition := position <$> _configAdBreaks s in
    let s := emit (player_dispatch_AD_MANIFEST_LOADED adBreaksPosition) s in
    let s := player_dispatchEvent call0 (AD_MANIFEST_LOADED adBreaksPosition) p s in
    let s := if includes 0%Z adBreaksPosition
             then _handleConfiguredPreroll s else s in
    if existsb (λ position, (0 <? position)%Z) adBreaksPosition
    then _handleConfiguredMidrolls s else s
  else s.

Definition _init (p : Player) (s : AdsController) : AdsController :=
  _handleConfiguredAdBreaks p (_addBindings (_initMembers s)).

Definition _reset (p : Player) (s : AdsController) : AdsController :=
  _init p (set_eventManager (EventManager.removeAll (_eventManager s)) s).

Definition call (h : Handler) (e : Notification) (p : Player)
    (s : AdsController) : AdsController :=
  match h with
  | h_reset => _reset p s
  | _ => call0 h e p s
  end.

(** [new AdsController(player, adsPluginControllers)] *)
Definition constructor (p : Player)
    (adsPluginControllers : list IAdsPluginController) : AdsController :=
  _init p
    {| _adsPluginControllers := adsPluginControllers;
       _allAdsCompleted := false;
       _eventManager := EventManager.new;
       _adBreaksLayout := [];
       _adBreak := None;
       _ad := None;
       _adPlayed := false;
       _snapback := 0%Z;
       _configAdBreaks := [];
       _adIsLoading := false;
       promises := [];
       out := [] |}.

(** *** What can happen to a controller *)

(** The promise numbered [promise] settles: the callback waiting on it
    runs, once. *)
Definition settle (promise : nat) (s : AdsController) : AdsController :=
  match promises s !! promise with
  | Some (Some callback) =>
      run_finally callback (set_promises (<[promise := None]> (promises s)) s)
  | _ => s
  end.

(** A plugin changes the flags the controller reads of it. *)
Definition plugin_update (i : nat) (active' done' : bool)
    (s : AdsController) : AdsController :=
  match _adsPluginControllers s !! i with
  | Some c =>
      set_adsPluginControllers
        (<[i := {| name := name c; active := active'; done := done' |}]>
           (_adsPluginControllers s)) s
  | None => s
  end.

(** Each step comes with the state of the player at that moment. *)
Inductive Step :=
| Notify (e : Notification) (p : Player)
| Settle (promise : nat)
| PluginUpdate (i : nat) (active' done' : bool)
| SkipAd
| PlayAdNow (adPod : list PKAdObject) (p : Player).

Definition step (s : AdsController) (st : Step) : AdsController :=
  match st with
  | Notify e p => player_dispatchEvent call e p s
  | Settle promise => settle promise s
  | PluginUpdate i a d => plugin_update i a d s
  | SkipAd => skipAd s
  | PlayAdNow adPod p => playAdNow adPod p s
  end.

Definition run (steps : list Step) (s : AdsController) : AdsController :=
  foldl step s steps.

(** *** Notions the properties are stated with *)

(** Ascending order of positions. *)
Definition by_position (a b : RunTimeAdBreakObject) : Prop :=
  (position a ≤ position b)%Z.

(** A break that is not yet played, at or before the current time and
    strictly past the snapback. *)
Definition due (p : Player) (s : AdsController) (b : RunTimeAdBreakObject)
  : Prop :=
  played b = false
  ∧ ∃ t, currentTime p = Some t ∧ (position b ≤ t)%Z
         ∧ (_snapback s < position b)%Z.

(** The break at index [i] is the first played one lying strictly after
    the current time. *)
Definition next_played (p : Player) (s : AdsController) (i : nat) : Prop :=
  (∃ b t, _configAdBreaks s !! i = Some b ∧ played b = true
          ∧ currentTime p = Some t ∧ (t < position b)%Z)
  ∧ ∀ j b t, j < i → _configAdBreaks s !! j = Some b →
             currentTime p = Some t → ¬ (played b = true ∧ (t < position b)%Z).

(** The listener each notification is meant for. *)
Definition handler_of (e : Notification) : Handler :=
  match e with
  | AD_MANIFEST_LOADED _ => h_onAdManifestLoaded
  | AD_BREAK_START _ => h_onAdBreakStart
  | AD_LOADED _ => h_onAdLoaded
  | AD_STARTED _ => h_onAdStarted
  | AD_BREAK_END => h_onAdBreakEnd
  | ADS_COMPLETED => h_onAdsCompleted
  | AD_ERROR _ => h_onAdError
  | PLAYER_RESET => h_reset
  | ENDED => h_onEnded
  | TIME_UPDATE => h_timeUpdate
  | SEEKED => h_seeked
  end.

(** The subscriptions [_addBindings] and [_handleConfiguredMidrolls]
    make: the event type and the listener attached for it. *)
Definition subscriptions : list (string * Listener) :=
  [ (AdEventType.AD_MANIFEST_LOADED, plain h_onAdManifestLoaded);
    (AdEventType.AD_BREAK_START, plain h_onAdBreakStart);
    (AdEventType.AD_LOADED, plain h_onAdLoaded);
    (AdEventType.AD_STARTED, plain h_onAdStarted);
    (AdEventType.AD_BREAK_END, plain h_onAdBreakEnd);
    (AdEventType.ADS_COMPLETED, plain h_onAdsCompleted);
    (AdEventType.AD_ERROR, plain h_onAdError);
    (CustomEventType.PLAYER_RESET, plain h_reset);
    (Html5EventType.ENDED, oneListener h_onEnded);
    (Html5EventType.TIME_UPDATE, plain h_timeUpdate);
    (Html5EventType.SEEKED, plain h_seeked) ].

(** Every binding the registry holds is one of these subscriptions. *)
Definition subscribed (em : EventManager.EventManager Target Listener) : Prop :=
  ∀ ty b bd,
    EventManager.stored_under ty b em →
    EventManager.store em !! b = Some bd →
    ∃ l, EventManager.listener bd = Some l ∧ (ty, l) ∈ subscriptions.

(** What holds of a controller between two steps. *)
Record inv (s : AdsController) : Prop := {
  inv_sorted : StronglySorted Z.le (position <$> _configAdBreaks s);
  inv_snapback : (0 ≤ _snapback s)%Z;
  inv_registry : EventManager.wf (_eventManager s);
  inv_subscribed : subscribed (_eventManager s)
}.

(** Whether some configured break is a midroll. *)
Definition has_midrolls (s : AdsController) : bool :=
  existsb (λ position, (0 <? position)%Z) (position <$> _configAdBreaks s).

(** Which subscriptions are in place: the eight of [_addBindings] made
    with [listen] always, once each; the ENDED subscription made with
    [listenOnce] once or not at all; the two of
    [_handleConfiguredMidrolls] when a midroll is configured, and without
    one the snapback has stayed at 0. *)
Record shape (s : AdsController) : Prop := {
  shape_always :
    ∀ x, x ∈ take 8 subscriptions →
         ∃ b, EventManager.held x.1 (_eventManager s) = [b];
  shape_ended :
    EventManager.held Html5EventType.ENDED (_eventManager s) = []
    ∨ ∃ b, EventManager.held Html5EventType.ENDED (_eventManager s) = [b];
  shape_midrolls :
    if has_midrolls s then
      (∃ b, EventManager.held Html5EventType.TIME_UPDATE (_eventManager s) = [b])
      ∧ (∃ b, EventManager.held Html5EventType.SEEKED (_eventManager s) = [b])
    else
      EventManager.held Html5EventType.TIME_UPDATE (_eventManager s) = []
      ∧ EventManager.held Html5EventType.SEEKED (_eventManager s) = []
      ∧ _snapback s = 0%Z
}.

(** What the listeners other than the reset leave alone: the registry,
    the positions of the configured breaks, the sign of the snapback. *)
Record keeps (s s' : AdsController) : Prop := {
  keeps_registry : _eventManager s' = _eventManager s;
  keeps_positions :
    position <$> _configAdBreaks s' = position <$> _configAdBreaks s;
  keeps_snapback : (0 ≤ _snapback s)%Z → (0 ≤ _snapback s')%Z;
  keeps_snapback_0 :
    has_midrolls s = false → _snapback s = 0%Z → _snapback s' = 0%Z
}.

(** A way of calling listeners under which the invariant stands and the
    registry's store grows. *)
Definition sound_call
    (call : Handler → Notification → Player → AdsController → AdsController)
  : Prop :=
  ∀ h e p s, inv s →
    inv (call h e p s)
    ∧ EventManager.grows (_eventManager s) (_eventManager (call h e p s)).

(** The references of an array of bindings taken for the type [ty] still
    stand for bindings of that type. *)
Definition snapshot_of (ty : string) (l : list EventManager.ref)
    (em : EventManager.EventManager Target Listener) : Prop :=
  ∀ b, b ∈ l →
    ∃ bd, EventManager.store em !! b = Some bd ∧ EventManager.type bd = ty.

(** The outcome of the postroll stage, from the state [s] it starts in to
    the state [s'] it ends in, with [a] the primary plugin: when an
    unplayed break at -1 is configured, every configured break is marked
    played and the ads of that break are handed to the plugin; otherwise
    nothing is played. *)
Definition postroll_dispatched (a : nat) (s s' : AdsController) : Prop :=
  match findIndex (λ adBreak, negb (played adBreak)
                     && (position adBreak =? -1)%Z) (_configAdBreaks s) with
  | Some i =>
      ∃ b, _configAdBreaks s !! i = Some b
           ∧ out s' = out s ++ [ctrl_playAdNow a (ads b)]
           ∧ _configAdBreaks s' = mark_played <$> _configAdBreaks s
           ∧ _adIsLoading s' = true
  | None => out s' = out s ∧ _configAdBreaks s' = _configAdBreaks s
  end.

(** Sample collaborators for the worked examples: a player at time [t]
    with one ad configured at each of the given positions, a primary
    plugin and a bumper plugin. *)
Definition sample_break (pos : Z) : PKAdBreakObject :=
  mkPKAdBreak (Some pos) [7].

Definition sample_player (t : Z) (positions : list Z) : Player :=
  mkPlayer (Some t) false (sample_break <$> positions) undefined undefined.

Definition ima : IAdsPluginController := mkPlugin "ima" false false.

Definition bumper : IAdsPluginController := mkPlugin "bumper" false false.

(** A step other than the player's reset notification. *)
Definition not_reset (st : Step) : bool :=
  match st with
  | Notify PLAYER_RESET _ => false
  | _ => true
  end.

(** What may become of a configured break while the controller is not
    reset: its position and its ads stay, and once played it stays
    played. *)
Definition progress (b b' : RunTimeAdBreakObject) : Prop :=
  position b' = position b ∧ ads b' = ads b
  ∧ (played b = true → played b' = true).

(** The calls [s'] has made beyond those of [s] all satisfy [P]. *)
Definition emits (P : Effect → Prop) (s s' : AdsController) : Prop :=
  ∃ d, out s' = out s ++ d ∧ Forall P d.

(** A [playAdNow] call goes to the first of the plugin controllers [cs]
    that is not the bumper. *)
Definition to_primary (cs : list IAdsPluginController) (e : Effect) : Prop :=
  match e with
  | ctrl_playAdNow controller _ =>
      findIndex (λ c, negb (_isBumper c)) cs = Some controller
  | _ => True
  end.

(** A call that is neither a [playAdNow] to another controller than the
    first non-bumper one nor the ALL_ADS_COMPLETED event. *)
Definition quiet (cs : list IAdsPluginController) (e : Effect) : Prop :=
  to_primary cs e ∧ e ≠ dispatch_ALL_ADS_COMPLETED.

(** A call other than a request to a plugin controller to finish
    ([onPlaybackEnded]). *)
Definition no_finish_request (e : Effect) : Prop :=
  match e with
  | ctrl_onPlaybackEnded _ _ => False
  | _ => True
  end.

(** No configured break at position -1 has become played from [s] to
    [s']: one that is played in [s'] was the same played break in [s]. *)
Definition postroll_untouched (s s' : AdsController) : Prop :=
  ∀ i b, _configAdBreaks s' !! i = Some b → position b = (-1)%Z →
         played b = true → _configAdBreaks s !! i = Some b.

(** Nothing of the postroll handling has happened from [s] to [s']: no
    promise was asked for, no plugin controller was requested to finish,
    and no break at -1 was played. *)
Definition postroll_idle (s s' : AdsController) : Prop :=
  promises s' = promises s
  ∧ emits no_finish_request s s'
  ∧ postroll_untouched s s'.

(** A step that takes the controller out of an ad break. *)
Definition ends_break (st : Step) : bool :=
  match st with
  | Notify AD_BREAK_END _ | Notify PLAYER_RESET _ => true
  | _ => false
  end.

End AdsController.

(** * Properties of the binding registry *)

Module MultiMapFacts.
Section facts.
Context {T : Type} `{EqDecision T}.
Implicit Types (m : gmap string (list T)) (k : string) (v x : T).

Lemma get_push k k' v m :
  MultiMap.get k (MultiMap.push k' v m)
  = if decide (k' = k) then MultiMap.get k m ++ [v] else MultiMap.get k m.
Proof.
  unfold MultiMap.get, MultiMap.push. rewrite lookup_insert.
  case_decide; by subst.
Qed.

Lemma get_clear k m : MultiMap.get k (MultiMap.clear m) = [].
Proof. unfold MultiMap.get, MultiMap.clear. by rewrite lookup_empty. Qed.

Lemma elem_of_getAll x m :
  x ∈ MultiMap.getAll m ↔ ∃ k, x ∈ MultiMap.get k m.
Proof.
  unfold MultiMap.getAll, MultiMap.get. rewrite list_elem_of_join. split.
  - intros (l & Hx & Hl). apply list_elem_of_fmap in Hl as ([k l'] & -> & Hkl).
    apply elem_of_map_to_list in Hkl. exists k. by rewrite Hkl.
  - intros (k & Hx). destruct (m !! k) as [l|] eqn:Hk; [|by apply elem_of_nil in Hx].
    exists l. split; [done|]. apply list_elem_of_fmap. exists (k, l).
    split; [done|]. by apply elem_of_map_to_list.
Qed.
End facts.
End MultiMapFacts.

Module EventManagerFacts.
Import EventManager MultiMapFacts.
Section facts.
Context {Target Listener : Type} `{EqDecision Target}.
Abbreviation EM := (EventManager Target Listener).
Abbreviation Binding := (Binding_ Target Listener).
Implicit Types (s : EM) (b x : ref) (bd : Binding) (t : Target) (ty k : string).

Lemma calls_of_app b s (cs : list (ref * HostCall Target Listener)) :
  (filter (λ c, c.1 = b) (calls s ++ cs)).*2
  = calls_of b s ++ (filter (λ c, c.1 = b) cs).*2.
Proof. by rewrite filter_app, fmap_app. Qed.

Lemma detached_target bd : target (detached bd) = None.
Proof. unfold detached. by destruct (target bd) eqn:E. Qed.

Lemma detached_type bd : type (detached bd) = type bd.
Proof. unfold detached. by destruct (target bd). Qed.

Lemma detached_idemp bd : detached (detached bd) = detached bd.
Proof. unfold detached at 1. by rewrite detached_target. Qed.

Lemma Binding_unlisten_eq b s :
  Binding_unlisten b s
  = {| store := alter detached b (store s);
       _bindingMap := _bindingMap s;
       calls := calls s ++ detach_call b (store s !! b) |}.
Proof.
  unfold Binding_unlisten, detach_call. destruct s as [st m cs]; simpl.
  destruct (st !! b) as [bd|] eqn:Hb.
  - destruct (target bd) as [t|] eqn:Ht; f_equal.
    + apply list_eq. intros i. destruct (decide (i = b)) as [->|].
      * rewrite list_lookup_alter_eq, Hb. rewrite list_lookup_insert_eq.
        -- simpl. unfold detached. by rewrite Ht.
        -- by eapply lookup_lt_Some.
      * by rewrite list_lookup_alter_ne, list_lookup_insert_ne.
    + apply list_eq. intros i. destruct (decide (i = b)) as [->|].
      * rewrite list_lookup_alter_eq, Hb. simpl. unfold detached. by rewrite Ht.
      * by rewrite list_lookup_alter_ne.
    + by rewrite app_nil_r.
  - f_equal.
    + apply list_eq. intros i. destruct (decide (i = b)) as [->|].
      * by rewrite list_lookup_alter_eq, Hb.
      * by rewrite list_lookup_alter_ne.
    + by rewrite app_nil_r.
Qed.

Lemma Binding_unlisten_store b x s :
  store (Binding_unlisten b s) !! x
  = if decide (x = b) then detached <$> store s !! x else store s !! x.
Proof.
  rewrite Binding_unlisten_eq. simpl. case_decide as Hx.
  - subst. apply list_lookup_alter_eq.
  - by apply list_lookup_alter_ne.
Qed.

Lemma Binding_unlisten_map b s :
  _bindingMap (Binding_unlisten b s) = _bindingMap s.
Proof. by rewrite Binding_unlisten_eq. Qed.

Lemma Binding_unlisten_calls_of b x s :
  calls_of x (Binding_unlisten b s)
  = calls_of x s ++ (if decide (x = b) then (detach_call b (store s !! b)).*2 else []).
Proof.
  rewrite Binding_unlisten_eq. unfold calls_of at 1. simpl.
  rewrite calls_of_app. f_equal. unfold detach_call.
  destruct (store s !! b) as [bd|]; [|by case_decide].
  destruct (target bd); [|by case_decide].
  rewrite filter_cons. simpl. repeat case_decide; try done; congruence.
Qed.

(** The loop of [removeAll]. *)
Abbreviation unlisten_each l s :=
  (foldl (λ acc listener, Binding_unlisten listener acc) s l).

Lemma detach_call_detached b (o : option Binding) :
  detach_call b (detached <$> o) = [].
Proof.
  destruct o as [bd|]; [|done]. simpl. unfold detach_call.
  by rewrite detached_target.
Qed.

Lemma unlisten_each_map (l : list ref) s :
  _bindingMap (unlisten_each l s) = _bindingMap s.
Proof.
  revert s. induction l as [|a l IH]; intros s.
  - done.
  - simpl. by rewrite IH, Binding_unlisten_map.
Qed.

Lemma unlisten_each_store (l : list ref) s x :
  store (unlisten_each l s) !! x
  = if decide (x ∈ l) then detached <$> store s !! x else store s !! x.
Proof.
  revert s. induction l as [|a l IH]; intros s.
  { by rewrite decide_False by apply not_elem_of_nil. }
  simpl. rewrite IH, Binding_unlisten_store.
  destruct (decide (x = a)) as [->|Hxa].
  - destruct (decide (a ∈ a :: l)) as [_|Hn]; [|by destruct Hn; left].
    case_decide; [|done]. destruct (store s !! a); [|done].
    simpl. by rewrite detached_idemp.
  - destruct (decide (x ∈ l)) as [Hl|Hl].
    + destruct (decide (x ∈ a :: l)) as [_|Hn]; [done|]. by destruct Hn; right.
    + destruct (decide (x ∈ a :: l)) as [[?|?]%elem_of_cons|_]; done.
Qed.

Lemma unlisten_each_calls_of (l : list ref) s x :
  calls_of x (unlisten_each l s)
  = calls_of x s
    ++ (if decide (x ∈ l) then (detach_call x (store s !! x)).*2 else []).
Proof.
  revert s. induction l as [|a l IH]; intros s.
  { rewrite decide_False by apply not_elem_of_nil. simpl. by rewrite app_nil_r. }
  simpl. rewrite IH, Binding_unlisten_calls_of, Binding_unlisten_store.
  rewrite <- app_assoc. f_equal.
  destruct (decide (x = a)) as [->|Hxa].
  - destruct (decide (a ∈ a :: l)) as [_|Hn]; [|by destruct Hn; left].
    rewrite detach_call_detached. case_decide; by rewrite app_nil_r.
  - simpl. destruct (decide (x ∈ l)) as [Hl|Hl].
    + destruct (decide (x ∈ a :: l)) as [_|Hn]; [done|]. by destruct Hn; right.
    + destruct (decide (x ∈ a :: l)) as [[?|?]%elem_of_cons|_]; done.
Qed.

(** The loop of [unlisten]. *)
Lemma unlisten_step_eq t ty s b :
  unlisten_step t ty s b
  = if target_is t b s
    then set_bindingMap (MultiMap.remove ty b <$> _bindingMap s)
                        (Binding_unlisten b s)
    else s.
Proof.
  unfold unlisten_step. destruct (target_is t b s); [|done].
  rewrite Binding_unlisten_map. destruct (_bindingMap s) eqn:E; simpl; [done|].
  rewrite Binding_unlisten_eq. unfold set_bindingMap. simpl. by rewrite E.
Qed.

Lemma target_is_detach t a s x :
  target_is t x (Binding_unlisten a s)
  = if decide (x = a) then false else target_is t x s.
Proof.
  unfold target_is. rewrite Binding_unlisten_store.
  case_decide; [|done]. destruct (store s !! x) as [bd|]; [|done].
  simpl. rewrite detached_target. by apply bool_decide_eq_false.
Qed.

Lemma hit_cons_yes t a l s x (m : option (gmap string (list ref))) :
  target_is t a s = true →
  hit t (a :: l) s x
  = bool_decide (x = a)
    || hit t l (set_bindingMap m (Binding_unlisten a s)) x.
Proof.
  intros Ha. unfold hit.
  replace (target_is t x (set_bindingMap m (Binding_unlisten a s)))
    with (target_is t x (Binding_unlisten a s)) by done.
  rewrite target_is_detach.
  destruct (decide (x = a)) as [->|Hxa].
  - rewrite Ha. rewrite (bool_decide_eq_true_2 (a ∈ a :: l)) by left.
    by rewrite (bool_decide_eq_true_2 (a = a)) by done.
  - rewrite (bool_decide_eq_false_2 (x = a)) by done. simpl.
    f_equal. apply bool_decide_ext. rewrite elem_of_cons.
    split; [by intros [?|?]|by right].
Qed.

Lemma hit_cons_no t a l s x :
  target_is t a s = false → hit t (a :: l) s x = hit t l s x.
Proof.
  intros Ha. unfold hit. destruct (decide (x = a)) as [->|Hxa].
  - by rewrite Ha, !andb_false_r.
  - f_equal. apply bool_decide_ext. rewrite elem_of_cons.
    split; [by intros [?|?]|by right].
Qed.

Lemma unlisten_loop_store t ty (l : list ref) s x :
  store (foldl (unlisten_step t ty) s l) !! x
  = if hit t l s x then detached <$> store s !! x else store s !! x.
Proof.
  revert s. induction l as [|a l IH]; intros s.
  { unfold hit. by rewrite bool_decide_eq_false_2 by apply not_elem_of_nil. }
  simpl. rewrite IH, unlisten_step_eq.
  destruct (target_is t a s) eqn:Ha.
  - rewrite (hit_cons_yes _ _ _ _ _ (MultiMap.remove ty a <$> _bindingMap s)) by done.
    replace (store (set_bindingMap (MultiMap.remove ty a <$> _bindingMap s)
                                   (Binding_unlisten a s)))
      with (store (Binding_unlisten a s)) by done.
    rewrite Binding_unlisten_store.
    destruct (decide (x = a)) as [->|Hxa].
    + rewrite bool_decide_eq_true_2 by done. simpl.
      destruct (hit _ _ _ _); [|done].
      destruct (store s !! a); [|done]. simpl. by rewrite detached_idemp.
    + by rewrite bool_decide_eq_false_2 by done.
  - by rewrite hit_cons_no.
Qed.

Lemma unlisten_loop_calls_of t ty (l : list ref) s x :
  calls_of x (foldl (unlisten_step t ty) s l)
  = calls_of x s
    ++ (if hit t l s x then (detach_call x (store s !! x)).*2 else []).
Proof.
  revert s. induction l as [|a l IH]; intros s.
  { unfold hit. rewrite bool_decide_eq_false_2 by apply not_elem_of_nil.
    simpl. by rewrite app_nil_r. }
  simpl. rewrite IH, unlisten_step_eq.
  destruct (target_is t a s) eqn:Ha.
  - rewrite (hit_cons_yes _ _ _ _ _ (MultiMap.remove ty a <$> _bindingMap s)) by done.
    replace (calls_of x (set_bindingMap (MultiMap.remove ty a <$> _bindingMap s)
                                   (Binding_unlisten a s)))
      with (calls_of x (Binding_unlisten a s)) by done.
    replace (store (set_bindingMap (MultiMap.remove ty a <$> _bindingMap s)
                                   (Binding_unlisten a s)))
      with (store (Binding_unlisten a s)) by done.
    rewrite Binding_unlisten_calls_of, Binding_unlisten_store.
    rewrite <- app_assoc. f_equal.
    destruct (decide (x = a)) as [->|Hxa].
    + rewrite bool_decide_eq_true_2 by done. simpl.
      rewrite detach_call_detached. destruct (hit _ _ _ _); by rewrite app_nil_r.
    + by rewrite bool_decide_eq_false_2 by done.
  - by rewrite hit_cons_no.
Qed.

Lemma unlisten_loop_map t ty (l : list ref) s :
  _bindingMap (foldl (unlisten_step t ty) s l)
  = alter (filter (λ x, hit t l s x = false)) ty <$> _bindingMap s.
Proof.
  revert s. induction l as [|a l IH]; intros s.
  { simpl. destruct (_bindingMap s) as [m|]; [|done]. simpl. f_equal.
    apply map_eq. intros k. rewrite lookup_alter. case_decide; [|done]. subst.
    destruct (m !! k) as [l|]; [|done]. simpl. f_equal.
    induction l as [|y l IHl]; [done|].
    rewrite filter_cons_True; [by f_equal|]. unfold hit.
    by rewrite bool_decide_eq_false_2 by apply not_elem_of_nil. }
  simpl. rewrite IH, unlisten_step_eq.
  destruct (target_is t a s) eqn:Ha.
  - simpl. destruct (_bindingMap s) as [m|]; [|done]. simpl. f_equal.
    unfold MultiMap.remove. rewrite alter_alter_eq.
    apply alter_ext. intros l0 _. simpl.
    rewrite list_filter_filter. apply list_filter_iff. intros x.
    rewrite (hit_cons_yes _ _ _ _ _ (Some (alter (filter (λ x0 : ref, x0 ≠ a)) ty m))) by done.
    rewrite orb_false_iff. rewrite bool_decide_eq_false. tauto.
  - destruct (_bindingMap s) as [m|]; [|done]. simpl. f_equal.
    apply alter_ext. intros l0 _. apply list_filter_iff. intros x.
    by rewrite hit_cons_no.
Qed.

Lemma unlisten_loop_id t ty (l : list ref) s :
  (∀ x, x ∈ l → target_is t x s = false) →
  foldl (unlisten_step t ty) s l = s.
Proof.
  induction l as [|a l IH]; intros Hl; [done|].
  simpl. rewrite unlisten_step_eq, Hl by left.
  apply IH. intros x Hx. apply Hl. by right.
Qed.

Lemma get_alter_filter (P : ref → Prop) `{∀ x, Decision (P x)} ty k
    (m : gmap string (list ref)) :
  MultiMap.get k (alter (filter P) ty m)
  = if decide (ty = k) then filter P (MultiMap.get k m) else MultiMap.get k m.
Proof.
  unfold MultiMap.get. rewrite lookup_alter.
  case_decide; subst; [|done]. by destruct (m !! k).
Qed.

Lemma target_is_true t b s :
  target_is t b s = true ↔ ∃ bd, store s !! b = Some bd ∧ target bd = Some t.
Proof.
  unfold target_is. destruct (store s !! b) as [bd|].
  - rewrite bool_decide_eq_true. split; [eauto|]. by intros (? & [= <-] & ?).
  - split; [done|]. by intros (? & ? & ?).
Qed.

(** Detaching keeps a binding's record of calls in step with its state. *)
Lemma binding_ok_detached b bd cs :
  binding_ok bd cs →
  binding_ok (detached bd) (cs ++ (detach_call b (Some bd)).*2).
Proof.
  unfold binding_ok, detached, detach_call.
  destruct (target bd) as [t|] eqn:Ht, (listener bd) as [l|] eqn:Hl; simpl;
    try done.
  - intros ->. by exists t, l.
  - rewrite Ht. intros (t & l & ->). rewrite app_nil_r. by exists t, l.
Qed.

Lemma wf_new : wf (new (Target:=Target) (Listener:=Listener)).
Proof.
  split; simpl.
  - by eexists.
  - by intros b bd Hb.
  - done.
  - by intros b bd Hb.
  - intros ty b (m & [= <-] & Hb). by apply elem_of_nil in Hb.
Qed.

Lemma listen_eq t ty l s m :
  _bindingMap s = Some m →
  listen t ty l s
  = {| store := store s ++ [mkBinding (Some t) ty (Some l)];
       _bindingMap := Some (MultiMap.push ty (length (store s)) m);
       calls := calls s ++ [(length (store s), addEventListener t ty l)] |}.
Proof. intros Hm. unfold listen. simpl. by rewrite Hm. Qed.

Lemma wf_listen t ty l s : wf s → wf (listen t ty l s).
Proof.
  intros [[m Hm] Hb Hf Hh Ha]. rewrite (listen_eq _ _ _ _ _ Hm).
  assert (∀ b, b ≠ length (store s) →
    (filter (λ c, c.1 = b) (calls s ++ [(length (store s), addEventListener t ty l)])).*2
    = calls_of b s) as Hother.
  { intros b Hne. rewrite calls_of_app, filter_cons_False by (simpl; congruence).
    by rewrite app_nil_r. }
  split; simpl.
  - by eexists.
  - intros b bd Hl. unfold calls_of. simpl.
    destruct (decide (b = length (store s))) as [->|Hne].
    + rewrite calls_of_app, filter_cons_True by done.
      rewrite (Hf (length (store s))) by (by apply lookup_ge_None).
      rewrite list_lookup_middle in Hl by done. by injection Hl as <-.
    + rewrite Hother by done. apply Hb.
      apply lookup_lt_Some in Hl as Hlt. rewrite length_app in Hlt. simpl in Hlt.
      rewrite lookup_app_l in Hl by lia. done.
  - intros b Hl. apply lookup_ge_None in Hl. rewrite length_app in Hl. simpl in Hl.
    unfold calls_of. simpl. rewrite Hother by lia.
    apply Hf. apply lookup_ge_None. lia.
  - intros b bd Hl Hlive. exists (MultiMap.push ty (length (store s)) m).
    split; [done|]. rewrite get_push.
    destruct (decide (b = length (store s))) as [->|Hne].
    + rewrite list_lookup_middle in Hl by done. injection Hl as <-. simpl.
      rewrite decide_True by done. apply elem_of_app. right. by left.
    + apply lookup_lt_Some in Hl as Hlt. rewrite length_app in Hlt. simpl in Hlt.
      rewrite lookup_app_l in Hl by lia.
      destruct (Hh b bd Hl Hlive) as (m' & Hm' & Hin).
      rewrite Hm in Hm'. injection Hm' as <-.
      case_decide; [apply elem_of_app; by left|done].
  - intros k b (m' & [= <-] & Hin). rewrite get_push in Hin.
    assert (b ∈ MultiMap.get k m ∨ (k = ty ∧ b = length (store s))) as [Hold|[-> ->]].
    { case_decide; [|by left]. apply elem_of_app in Hin as [?|Hin]; [by left|].
      apply list_elem_of_singleton in Hin. by right. }
    + destruct (Ha k b) as (bd & Hl & Hlive & Hty); [by exists m|].
      exists bd. split_and!; try done. by apply lookup_app_l_Some.
    + eexists. split_and!; [by apply list_lookup_middle| by eexists | done].
Qed.

Lemma hit_true t l s x :
  hit t l s x = true
  ↔ x ∈ l ∧ ∃ bd, store s !! x = Some bd ∧ target bd = Some t.
Proof.
  unfold hit. by rewrite andb_true_iff, bool_decide_eq_true, target_is_true.
Qed.

Lemma unlisten_eq t ty s m :
  _bindingMap s = Some m →
  unlisten t ty s = foldl (unlisten_step t ty) s (MultiMap.get ty m).
Proof. intros Hm. unfold unlisten. by rewrite Hm. Qed.

Lemma wf_unlisten t ty s : wf s → wf (unlisten t ty s).
Proof.
  intros [[m Hm] Hb Hf Hh Ha]. rewrite (unlisten_eq _ _ _ _ Hm).
  set (l := MultiMap.get ty m).
  split.
  - rewrite unlisten_loop_map, Hm. by eexists.
  - intros b bd'. rewrite unlisten_loop_store, unlisten_loop_calls_of.
    destruct (hit t l s b) eqn:Hhit; [|rewrite app_nil_r; by apply Hb].
    destruct (store s !! b) as [bd|] eqn:Hl; [|done].
    intros [= <-]. by apply binding_ok_detached, Hb.
  - intros b. rewrite unlisten_loop_store, unlisten_loop_calls_of.
    intros Hl. assert (store s !! b = None) as Hn.
    { destruct (hit t l s b); [|done]. by destruct (store s !! b). }
    rewrite Hn, (Hf b Hn). by destruct (hit t l s b).
  - intros b bd'. rewrite unlisten_loop_store.
    destruct (hit t l s b) eqn:Hhit.
    { destruct (store s !! b) as [bd|]; [|done]. intros [= <-].
      rewrite detached_target. by intros [? ?]. }
    intros Hl Hlive. destruct (Hh b bd' Hl Hlive) as (m' & Hm' & Hin).
    rewrite Hm in Hm'. injection Hm' as <-.
    eexists. split; [by rewrite unlisten_loop_map, Hm|].
    rewrite get_alter_filter. case_decide; [|done].
    by apply list_elem_of_filter.
  - intros k b (m' & Hm' & Hin).
    rewrite unlisten_loop_map, Hm in Hm'. injection Hm' as <-.
    rewrite get_alter_filter in Hin.
    assert (b ∈ MultiMap.get k m ∧ hit t l s b = false) as [Hold Hhit].
    { case_decide as Hk.
      - subst k. by apply list_elem_of_filter in Hin as [? ?].
      - split; [done|]. destruct (hit t l s b) eqn:Hhit; [|done].
        apply hit_true in Hhit as [Hl _].
        destruct (Ha k b) as (bd & Hs & _ & Hty); [by exists m|].
        destruct (Ha ty b) as (bd2 & Hs2 & _ & Hty2); [by exists m|].
        congruence. }
    destruct (Ha k b) as (bd & Hs & Hlive & Hty); [by exists m|].
    exists bd. by rewrite unlisten_loop_store, Hhit.
Qed.

Lemma removeAll_eq s m :
  _bindingMap s = Some m →
  removeAll s
  = set_bindingMap (Some ∅) (unlisten_each (MultiMap.getAll m) s).
Proof.
  intros Hm. unfold removeAll. by rewrite Hm, unlisten_each_map, Hm.
Qed.

Lemma wf_removeAll s : wf s → wf (removeAll s).
Proof.
  intros [[m Hm] Hb Hf Hh Ha]. rewrite (removeAll_eq _ _ Hm).
  set (l := MultiMap.getAll m).
  split.
  - by eexists.
  - intros b bd'. unfold calls_of, set_bindingMap; simpl.
    fold (calls_of b (unlisten_each l s)).
    rewrite unlisten_each_store, unlisten_each_calls_of.
    case_decide; [|rewrite app_nil_r; by apply Hb].
    destruct (store s !! b) as [bd|] eqn:Hl; [|done].
    intros [= <-]. by apply binding_ok_detached, Hb.
  - intros b. unfold calls_of, set_bindingMap; simpl.
    fold (calls_of b (unlisten_each l s)).
    rewrite unlisten_each_store, unlisten_each_calls_of.
    intros Hl. assert (store s !! b = None) as Hn.
    { case_decide; [|done]. by destruct (store s !! b). }
    rewrite Hn, (Hf b Hn). by case_decide.
  - intros b bd'. unfold set_bindingMap; simpl. rewrite unlisten_each_store.
    case_decide as Hin.
    { destruct (store s !! b) as [bd|]; [|done]. intros [= <-].
      rewrite detached_target. by intros [? ?]. }
    intros Hl Hlive. destruct Hin.
    destruct (Hh b bd' Hl Hlive) as (m' & Hm' & Hin).
    rewrite Hm in Hm'. injection Hm' as <-.
    apply elem_of_getAll. by eexists.
  - intros k b (m' & [= <-] & Hin). by apply elem_of_nil in Hin.
Qed.

Lemma wf_run (ops : list (Op Target Listener)) s : wf s → wf (run ops s).
Proof.
  revert s. induction ops as [|o ops IH]; intros s Hs; [done|].
  apply IH. destruct o; simpl;
    [by apply wf_listen | by apply wf_unlisten | by apply wf_removeAll].
Qed.

Lemma removeAll_idemp s : removeAll (removeAll s) = removeAll s.
Proof.
  destruct (_bindingMap s) as [m|] eqn:Hm.
  - rewrite (removeAll_eq s m Hm). by rewrite (removeAll_eq _ ∅).
  - unfold removeAll. by rewrite Hm, Hm.
Qed.

(** How the operations change what the map holds. *)
Lemma store_listen t ty l s :
  store (listen t ty l s) = store s ++ [mkBinding (Some t) ty (Some l)].
Proof. unfold listen. simpl. by destruct (_bindingMap s). Qed.

Lemma stored_under_listen t ty l s k b :
  stored_under k b (listen t ty l s)
  ↔ stored_under k b s
    ∨ (is_Some (_bindingMap s) ∧ k = ty ∧ b = length (store s)).
Proof.
  unfold stored_under. destruct (_bindingMap s) as [m|] eqn:Hm.
  - rewrite (listen_eq _ _ _ _ _ Hm). simpl. split.
    + intros (m' & [= <-] & Hin). rewrite get_push in Hin.
      case_decide as Hk; [|left; by exists m]. subst k.
      apply elem_of_app in Hin as [Hin|Hin%list_elem_of_singleton].
      * left. by exists m.
      * right. by split; [eexists|].
    + intros [(m' & [= <-] & Hin)|(_ & -> & ->)];
        (eexists; split; [done|]); rewrite get_push.
      * case_decide; [apply elem_of_app; by left|done].
      * rewrite decide_True by done. apply elem_of_app. right. by left.
  - unfold listen. simpl. rewrite Hm. simpl. split.
    + by intros (m' & ? & _).
    + intros [(m' & ? & _)|([? ?] & _)]; done.
Qed.

Lemma stored_under_unlisten t ty s k b :
  wf s → stored_under k b (unlisten t ty s) →
  stored_under k b s
  ∧ store (unlisten t ty s) !! b = store s !! b
  ∧ (k = ty → ∀ bd, store s !! b = Some bd → target bd ≠ Some t).
Proof.
  intros Hwf (m' & Hm' & Hin). destruct (wf_map _ Hwf) as [m Hm].
  rewrite (unlisten_eq _ _ _ _ Hm) in *.
  rewrite unlisten_loop_map, Hm in Hm'. injection Hm' as <-.
  rewrite get_alter_filter in Hin.
  assert (b ∈ MultiMap.get k m ∧ hit t (MultiMap.get ty m) s b = false)
    as [Hold Hhit].
  { case_decide as Hk.
    - subst k. by apply list_elem_of_filter in Hin as [? ?].
    - split; [done|]. destruct (hit _ _ _ _) eqn:Hhit; [|done].
      apply hit_true in Hhit as [Hl _].
      destruct (wf_attached _ Hwf k b) as (bd & Hs & _ & Hty); [by exists m|].
      destruct (wf_attached _ Hwf ty b) as (bd2 & Hs2 & _ & Hty2); [by exists m|].
      congruence. }
  split_and!.
  - by exists m.
  - by rewrite unlisten_loop_store, Hhit.
  - intros -> bd Hbd Ht.
    assert (hit t (MultiMap.get ty m) s b = true); [|congruence].
    apply hit_true. eauto.
Qed.

Lemma stored_under_removeAll s k b :
  is_Some (_bindingMap s) → ¬ stored_under k b (removeAll s).
Proof.
  intros [m Hm] (m' & Hm' & Hin). rewrite (removeAll_eq _ _ Hm) in Hm'.
  injection Hm' as <-. by apply elem_of_nil in Hin.
Qed.

Lemma grows_refl s : grows s s.
Proof. intros b bd ?. by exists bd. Qed.

Lemma grows_trans s1 s2 s3 : grows s1 s2 → grows s2 s3 → grows s1 s3.
Proof.
  intros H12 H23 b bd Hb. destruct (H12 b bd Hb) as (bd2 & Hb2 & Ht2).
  destruct (H23 b bd2 Hb2) as (bd3 & Hb3 & Ht3). exists bd3. split; congruence.
Qed.

Lemma grows_listen t ty l s : grows s (listen t ty l s).
Proof.
  intros b bd Hb. exists bd. split; [|done].
  rewrite store_listen. by apply lookup_app_l_Some.
Qed.

Lemma grows_unlisten t ty s : grows s (unlisten t ty s).
Proof.
  intros b bd Hb. unfold unlisten. destruct (_bindingMap s); [|by exists bd].
  rewrite unlisten_loop_store, Hb. destruct (hit _ _ _ _); simpl.
  - eexists. split; [done|]. apply detached_type.
  - by exists bd.
Qed.

Lemma grows_removeAll s : grows s (removeAll s).
Proof.
  intros b bd Hb. destruct (_bindingMap s) as [m|] eqn:Hm.
  - rewrite (removeAll_eq _ _ Hm). simpl.
    rewrite unlisten_each_store, Hb. case_decide; simpl.
    + eexists. split; [done|]. apply detached_type.
    + by exists bd.
  - unfold removeAll. rewrite Hm. by exists bd.
Qed.

(** The bindings held for a type. *)
Lemma stored_under_held ty b s : stored_under ty b s ↔ b ∈ held ty s.
Proof.
  unfold stored_under, held. destruct (_bindingMap s) as [m|].
  - split; [by intros (? & [= <-] & ?)|]. intros ?. by exists m.
  - split; [by intros (? & ? & _)|]. by intros ?%elem_of_nil.
Qed.

Lemma held_listen t ty l s k :
  is_Some (_bindingMap s) →
  held k (listen t ty l s)
  = if decide (ty = k) then held k s ++ [length (store s)] else held k s.
Proof.
  intros [m Hm]. rewrite (listen_eq _ _ _ _ _ Hm). unfold held. simpl.
  rewrite Hm. by rewrite get_push.
Qed.

Lemma held_unlisten_other t ty s k :
  k ≠ ty → held k (unlisten t ty s) = held k s.
Proof.
  intros Hk. unfold held, unlisten. destruct (_bindingMap s) as [m|] eqn:Hm.
  - rewrite unlisten_loop_map, Hm. simpl. rewrite get_alter_filter.
    by rewrite decide_False by done.
  - by rewrite Hm.
Qed.

Lemma filter_none {A} (P : A → Prop) `{∀ a, Decision (P a)} (l : list A) :
  (∀ a, a ∈ l → ¬ P a) → filter P l = [].
Proof.
  induction l as [|a l IH]; intros Hl; [done|].
  rewrite filter_cons_False by (apply Hl; left).
  apply IH. intros y Hy. apply Hl. by right.
Qed.

Lemma held_unlisten_all t ty s :
  wf s →
  (∀ b bd, stored_under ty b s → store s !! b = Some bd → target bd = Some t) →
  held ty (unlisten t ty s) = [].
Proof.
  intros Hwf Hall. destruct (wf_map _ Hwf) as [m Hm].
  unfold held. rewrite (unlisten_eq _ _ _ _ Hm), unlisten_loop_map, Hm. simpl.
  rewrite get_alter_filter, decide_True by done.
  apply filter_none. intros x Hx Hno.
  assert (hit t (MultiMap.get ty m) s x = true); [|congruence].
  apply hit_true. split; [done|].
  destruct (wf_attached _ Hwf ty x) as (bd & Hbd & _); [by exists m|].
  exists bd. split; [done|]. apply (Hall x); [by exists m|done].
Qed.

Lemma held_removeAll s k : is_Some (_bindingMap s) → held k (removeAll s) = [].
Proof.
  intros [m Hm]. unfold held. rewrite (removeAll_eq _ _ Hm). simpl.
  apply (get_clear k m).
Qed.

(** Every call of [listen] makes one binding, and nothing else does. *)
Lemma length_store_Binding_unlisten b s :
  length (store (Binding_unlisten b s)) = length (store s).
Proof. rewrite Binding_unlisten_eq. simpl. apply length_alter. Qed.

Lemma length_store_unlisten t ty s :
  length (store (unlisten t ty s)) = length (store s).
Proof.
  unfold unlisten. destruct (_bindingMap s) as [m|]; [|done].
  generalize (MultiMap.get ty m). intros l. revert s.
  induction l as [|a l IH]; intros s; [done|].
  simpl. rewrite IH, unlisten_step_eq. destruct (target_is t a s); [|done].
  simpl. apply length_store_Binding_unlisten.
Qed.

Lemma length_store_removeAll s :
  length (store (removeAll s)) = length (store s).
Proof.
  destruct (_bindingMap s) as [m|] eqn:Hm.
  - rewrite (removeAll_eq _ _ Hm). simpl.
    generalize (MultiMap.getAll m). intros l. revert s Hm.
    induction l as [|a l IH]; intros s Hm; [done|].
    simpl. rewrite IH by (by rewrite Binding_unlisten_map).
    apply length_store_Binding_unlisten.
  - unfold removeAll. by rewrite Hm.
Qed.

Lemma length_store_run (ops : list (Op Target Listener)) s :
  length (store (run ops s)) = (length (store s) + listens ops)%nat.
Proof.
  revert s. induction ops as [|o ops IH]; intros s.
  { unfold listens. simpl. lia. }
  simpl. rewrite IH. unfold listens. destruct o as [t ty l|t ty|]; simpl.
  - rewrite store_listen, length_app. simpl. lia.
  - rewrite length_store_unlisten. lia.
  - rewrite length_store_removeAll. lia.
Qed.

(** C7.  After any sequence of [listen], [unlisten] and [removeAll] calls
    on a new registry, [removeAll()] leaves the binding map empty; there
    is one binding for every call of [listen]; every binding is detached,
    and the calls it has issued are its one [addEventListener] followed by
    one [removeEventListener] with the same target, type and listener; no
    other call was made; and a second [removeAll()] changes nothing. *)
Theorem removeAll_detaches_every_binding_once (ops : list (Op Target Listener)) :
  let s := removeAll (run ops new) in
  _bindingMap s = Some ∅
  ∧ length (store s) = listens ops
  ∧ (∀ b bd, store s !! b = Some bd →
       target bd = None ∧ listener bd = None
       ∧ ∃ t l, calls_of b s
                = [addEventListener t (type bd) l;
                   removeEventListener t (type bd) (Some l)])
  ∧ (∀ b, store s !! b = None → calls_of b s = [])
  ∧ removeAll s = s.
Proof.
  set (s0 := run ops new).
  assert (wf s0) as Hwf0 by apply wf_run, wf_new.
  assert (wf (removeAll s0)) as Hwf by by apply wf_removeAll.
  destruct (wf_map _ Hwf0) as [m Hm]. simpl.
  split_and!.
  - by rewrite (removeAll_eq _ _ Hm).
  - rewrite length_store_removeAll. unfold s0. by rewrite length_store_run.
  - intros b bd Hl.
    assert (target bd = None) as Ht.
    { destruct (target bd) as [t|] eqn:Ht; [|done].
      destruct (wf_held _ Hwf b bd Hl) as (m' & Hm' & Hin); [by eexists|].
      rewrite (removeAll_eq _ _ Hm) in Hm'. injection Hm' as <-.
      by apply elem_of_nil in Hin. }
    pose proof (wf_binding _ Hwf b bd Hl) as Hok.
    unfold binding_ok in Hok. rewrite Ht in Hok.
    by destruct (listener bd).
  - apply (wf_fresh _ Hwf).
  - apply removeAll_idemp.
Qed.

(** C8.  On a registry in use, [unlisten(target, type)] detaches every
    attached binding with that target and that type (its
    [removeEventListener] call is made, its references are dropped) and
    the map holds it no more, however many of them there are; every other
    binding is left as it was, held where it was; and when no binding
    matches, the registry is unchanged. *)
Theorem unlisten_detaches_all_matching (ops : list (Op Target Listener)) t ty :
  let s := run ops new in
  let s' := unlisten t ty s in
  (∀ b bd, store s !! b = Some bd → target bd = Some t → type bd = ty →
     store s' !! b = Some (mkBinding None ty None)
     ∧ ¬ stored b s'
     ∧ calls_of b s'
       = calls_of b s ++ [removeEventListener t ty (listener bd)])
  ∧ (∀ b bd, store s !! b = Some bd → ¬ (target bd = Some t ∧ type bd = ty) →
     store s' !! b = Some bd
     ∧ calls_of b s' = calls_of b s
     ∧ ∀ k, stored_under k b s' ↔ stored_under k b s)
  ∧ ((∀ b bd, store s !! b = Some bd → ¬ (target bd = Some t ∧ type bd = ty)) →
     s' = s).
Proof.
  set (s := run ops new).
  assert (wf s) as Hwf by apply wf_run, wf_new.
  assert (wf (unlisten t ty s)) as Hwf' by by apply wf_unlisten.
  destruct (wf_map _ Hwf) as [m Hm]. simpl.
  rewrite (unlisten_eq _ _ _ _ Hm) in *.
  set (l := MultiMap.get ty m) in *.
  assert (∀ b bd, store s !! b = Some bd →
    hit t l s b = true ↔ target bd = Some t ∧ type bd = ty) as Hhit.
  { intros b bd Hl. rewrite hit_true. split.
    - intros (Hin & bd' & Hl' & Ht). rewrite Hl in Hl'. injection Hl' as <-.
      destruct (wf_attached _ Hwf ty b) as (bd' & Hl' & _ & Hty); [by exists m|].
      split; [done|]. congruence.
    - intros [Ht Hty]. split; [|by eauto].
      destruct (wf_held _ Hwf b bd Hl) as (m' & Hm' & Hin); [by eexists|].
      rewrite Hm in Hm'. injection Hm' as <-. by rewrite Hty in Hin. }
  split_and!.
  - intros b bd Hl Ht Hty.
    assert (hit t l s b = true) as Hh by by apply (Hhit b bd).
    assert (store (foldl (unlisten_step t ty) s l) !! b
            = Some (mkBinding None ty None)) as Hl'.
    { rewrite unlisten_loop_store, Hh, Hl. simpl. unfold detached.
      by rewrite Ht, Hty. }
    split_and!; [done| |].
    + intros (m' & Hm' & Hin). apply elem_of_getAll in Hin as [k Hin].
      destruct (wf_attached _ Hwf' k b) as (bd' & Hl2 & [? Hlive] & _);
        [by exists m'|].
      rewrite Hl' in Hl2. by injection Hl2 as <-.
    + rewrite unlisten_loop_calls_of, Hh, Hl. simpl. by rewrite Ht, Hty.
  - intros b bd Hl Hno.
    assert (hit t l s b = false) as Hh.
    { destruct (hit t l s b) eqn:E; [|done]. by apply (Hhit b bd) in E. }
    split_and!.
    + by rewrite unlisten_loop_store, Hh.
    + by rewrite unlisten_loop_calls_of, Hh, app_nil_r.
    + intros k. unfold stored_under. rewrite unlisten_loop_map, Hm. simpl.
      split; intros (m' & [= <-] & Hin); eexists; (split; [done|]).
      * rewrite get_alter_filter in Hin. case_decide; [|done].
        by apply list_elem_of_filter in Hin as [? ?].
      * rewrite get_alter_filter. case_decide; [|done].
        by apply list_elem_of_filter.
  - intros Hnone. apply unlisten_loop_id. intros x Hx.
    destruct (target_is t x s) eqn:E; [|done].
    apply target_is_true in E as (bd & Hl & Ht).
    destruct (wf_attached _ Hwf ty x) as (bd' & Hl' & _ & Hty); [by exists m|].
    rewrite Hl in Hl'. injection Hl' as <-. by destruct (Hnone x bd Hl).
Qed.

End facts.

(** Two bindings next to each other in the array for their type, both for
    the target being unlistened: both go, the third stays. *)
Example unlisten_adjacent_bindings :
  let s := run [Listen 1 "ended" 10; Listen 1 "ended" 11; Listen 2 "ended" 12]
               (new (Target:=nat) (Listener:=nat)) in
  held "ended" s = [0; 1; 2]
  ∧ held "ended" (unlisten 1 "ended" s) = [2]
  ∧ calls (unlisten 1 "ended" s)
    = calls s ++ [(0, removeEventListener 1 "ended" (Some 10));
                  (1, removeEventListener 1 "ended" (Some 11))].
Proof. by vm_compute. Qed.
End EventManagerFacts.

(** * Properties of the ads controller *)

Module AdsControllerFacts.
Import AdsController EventManagerFacts.
Local Open Scope Z_scope.

(** ** The built-ins *)

Lemma insert_sorted_perm {A} (le : A → A → bool) x l :
  insert_sorted le x l ≡ₚ x :: l.
Proof.
  induction l as [|y l IH]; simpl; [done|].
  destruct (le x y); [done|]. rewrite IH. apply Permutation_swap.
Qed.

Lemma sort_by_perm {A} (le : A → A → bool) l : sort_by le l ≡ₚ l.
Proof.
  induction l as [|x l IH]; simpl; [done|].
  unfold sort_by in *. simpl. by rewrite insert_sorted_perm, IH.
Qed.

Section sorting.
Context {A : Type} (le : A → A → bool).
Hypothesis le_total : ∀ x y, le x y = true ∨ le y x = true.
Hypothesis le_trans : ∀ x y z, le x y = true → le y z = true → le x z = true.

Lemma insert_sorted_sorted x l :
  StronglySorted (λ a b, le a b = true) l →
  StronglySorted (λ a b, le a b = true) (insert_sorted le x l).
Proof.
  induction 1 as [|y l Hl IH Hy]; simpl.
  { repeat constructor. }
  destruct (le x y) eqn:Hxy.
  - constructor; [by constructor|]. constructor; [done|].
    eapply Forall_impl; [exact Hy|]. intros z Hz. by eapply le_trans.
  - constructor; [done|].
    rewrite insert_sorted_perm. constructor; [|done].
    destruct (le_total x y); congruence.
Qed.

Lemma sort_by_sorted l : StronglySorted (λ a b, le a b = true) (sort_by le l).
Proof.
  induction l as [|x l IH]; [constructor|].
  unfold sort_by in *. simpl. by apply insert_sorted_sorted.
Qed.
End sorting.

Lemma StronglySorted_weaken {A} (R1 R2 : A → A → Prop) l :
  (∀ a b, R1 a b → R2 a b) → StronglySorted R1 l → StronglySorted R2 l.
Proof.
  intros HR. induction 1 as [|x l Hl IH Hx]; constructor; [done|].
  eapply Forall_impl; [exact Hx|]. intros; by apply HR.
Qed.

Lemma sort_by_position_sorted l :
  StronglySorted by_position (sort_by_position l).
Proof.
  apply (StronglySorted_weaken
           (λ a b, (position a <=? position b) = true)).
  { intros a b Hab. unfold by_position. lia. }
  apply sort_by_sorted.
  - intros x y. lia.
  - intros x y z. lia.
Qed.

Lemma findIndex_Some {A} (f : A → bool) l i :
  findIndex f l = Some i
  ↔ (∃ x, l !! i = Some x ∧ f x = true)
    ∧ ∀ j y, (j < i)%nat → l !! j = Some y → f y = false.
Proof.
  revert i. induction l as [|a l IH]; intros i; simpl.
  { split; [done|]. by intros [(x & Hx & _) _]. }
  destruct (f a) eqn:Hfa.
  - split.
    + intros [= <-]. split; [by exists a|]. intros; lia.
    + intros [_ Hlt]. destruct i as [|i]; [done|].
      specialize (Hlt O a). simpl in Hlt. rewrite Hlt in Hfa; [done|lia|done].
  - destruct i as [|i].
    + split; [by destruct (findIndex f l)|].
      intros [(x & [= <-] & Hx) _]. congruence.
    + split.
      * intros (k & Hfi & [= ->])%fmap_Some.
        apply IH in Hfi as [Hx Hlt]. split; [done|].
        intros [|j] y Hj Hy; simpl in Hy; [congruence|].
        eapply Hlt; [|done]. lia.
      * intros [Hx Hlt].
        assert (findIndex f l = Some i) as ->; [|done].
        apply IH. split; [done|].
        intros j y Hj Hy. apply (Hlt (S j)); [lia|done].
Qed.

(** ** Ingestion of the configured ad breaks *)

Lemma ingest_Some T a b :
  ingest T a = Some b →
  pk_position a = Some (position b) ∧ ads b = pk_ads a ∧ ads b ≠ []
  ∧ played b = (-1 <? position b) && le_config (position b) T.
Proof.
  unfold ingest. destruct (pk_position a) as [pos|]; [|done].
  case_bool_decide; [|done]. by intros [= <-].
Qed.

(** C4, as the code has it.  The list [_handleConfiguredAdBreaks]
    assigns to [_configAdBreaks] is in ascending order of position.  The
    threshold is [playAdsAfterTime || startTime]: the configured
    [playAdsAfterTime] when that is a number other than 0, and the
    configured [startTime] otherwise.  A break starts played exactly when
    [-1 < position] and [position <= threshold], which for the threshold
    [null] is [position <= 0] and for the threshold [undefined] is never.
    With breaks at 0, 10, 20 and -1 and [playAdsAfterTime = 5], the break
    at 0 starts played, the others start unplayed, and the constructor
    dispatches none; with no [playAdsAfterTime] and [startTime = null] a
    break at 0 starts played as well. *)
Theorem configured_breaks_sorted_preplayed (p : Player) :
  StronglySorted by_position (configured_breaks p)
  ∧ playAdsAfterTime_of p
    = match playAdsAfterTime p with
      | number n => if n =? 0 then startTime p else number n
      | null | undefined => startTime p
      end
  ∧ (∀ b, b ∈ configured_breaks p →
       played b = true
       ↔ -1 < position b
         ∧ match playAdsAfterTime_of p with
           | number T => position b ≤ T
           | null => position b ≤ 0
           | undefined => False
           end)
  ∧ (∀ cs : list IAdsPluginController,
       let b pos := mkPKAdBreak (Some pos) [7%nat] in
       let r pos pl := mkRunTimeAdBreak pos [7%nat] pl in
       let p := mkPlayer None true [b 0; b 10; b 20; b (-1)]
                  (number 5) undefined in
       configured_breaks p
       = [r (-1) false; r 0 true; r 10 false; r 20 false]
       ∧ _configAdBreaks (constructor p cs) = configured_breaks p
       ∧ out (constructor p cs)
         = [player_dispatch_AD_MANIFEST_LOADED [-1; 0; 10; 20]])
  ∧ (∀ cs : list IAdsPluginController,
       let b pos := mkPKAdBreak (Some pos) [7%nat] in
       let r pos pl := mkRunTimeAdBreak pos [7%nat] pl in
       let p := mkPlayer None true [b 0; b 10] undefined null in
       configured_breaks p = [r 0 true; r 10 false]
       ∧ _configAdBreaks (constructor p cs) = configured_breaks p
       ∧ out (constructor p cs) = [player_dispatch_AD_MANIFEST_LOADED [0; 10]]).
Proof.
  split_and!.
  - apply sort_by_position_sorted.
  - unfold playAdsAfterTime_of, or_config, truthy_config.
    destruct (playAdsAfterTime p) as [n| |]; [|done..].
    by destruct (n =? 0).
  - intros b Hb. unfold configured_breaks, sort_by_position in Hb.
    rewrite sort_by_perm in Hb. apply list_elem_of_omap in Hb as (a & _ & Ha).
    apply ingest_Some in Ha as (_ & _ & _ & ->).
    rewrite andb_true_iff, Z.ltb_lt. unfold le_config.
    destruct (playAdsAfterTime_of p) as [T| |]; rewrite ?Z.leb_le; [done..|].
    split; [by intros [_ ?]|by intros [_ ?]].
  - intros cs. by vm_compute.
  - intros cs. by vm_compute.
Qed.

(** C4, as the specification states it, fails: the threshold is not
    [playAdsAfterTime] alone.  With [playAdsAfterTime = 0] and
    [startTime = -1] a break at 0, which lies in [0, playAdsAfterTime],
    starts unplayed and is played by the constructor; with no
    [playAdsAfterTime] and [startTime = 30] a break at 10 starts played. *)
Lemma preplayed_threshold_is_not_playAdsAfterTime :
  let b pos := mkPKAdBreak (Some pos) [7%nat] in
  let r pos pl := mkRunTimeAdBreak pos [7%nat] pl in
  let claimed (p : Player) :=
    ∀ x, x ∈ configured_breaks p →
         played x = true
         ↔ ∃ T, playAdsAfterTime p = number T ∧ 0 ≤ position x ≤ T in
  (let p := mkPlayer None true [b 0] (number 0) (number (-1)) in
   ¬ claimed p
   ∧ configured_breaks p = [r 0 false]
   ∧ out (constructor p [ima])
     = [player_dispatch_AD_MANIFEST_LOADED [0]; ctrl_playAdNow 0 [7%nat]])
  ∧ (let p := mkPlayer None true [b 10] undefined (number 30) in
     ¬ claimed p ∧ configured_breaks p = [r 10 true]).
Proof.
  cbv zeta. split.
  - split_and!; [|by vm_compute..].
    intros H. specialize (H (mkRunTimeAdBreak 0 [7%nat] false)).
    destruct H as [_ H]; [by apply list_elem_of_singleton|].
    discriminate H. exists 0. simpl. split; [done|lia].
  - split; [|by vm_compute].
    intros H. specialize (H (mkRunTimeAdBreak 10 [7%nat] true)).
    destruct H as [H _]; [by apply list_elem_of_singleton|].
    destruct H as (T & HT & _); [done|]. discriminate HT.
Qed.


(** ** The discovered layout *)

Lemma elem_of_Array_from_Set x l : x ∈ Array_from_Set l ↔ x ∈ l.
Proof.
  induction l as [|y l IH]; simpl; [done|].
  rewrite !elem_of_cons, list_elem_of_filter, IH.
  destruct (decide (x = y)); tauto.
Qed.

Lemma NoDup_Array_from_Set l : NoDup (Array_from_Set l).
Proof.
  induction l as [|y l IH]; simpl; [constructor|].
  constructor; [|by apply NoDup_filter].
  rewrite list_elem_of_filter. by intros [? _].
Qed.

(** The layout holds every position discovered so far, each once. *)
Lemma layout_members positions s x :
  NoDup (getAdBreaksLayout (_onAdManifestLoaded positions s))
  ∧ (x ∈ getAdBreaksLayout (_onAdManifestLoaded positions s)
     ↔ x ∈ getAdBreaksLayout s ∨ x ∈ positions).
Proof.
  unfold getAdBreaksLayout, _onAdManifestLoaded, default_sort. simpl. split.
  - rewrite sort_by_perm. apply NoDup_Array_from_Set.
  - by rewrite sort_by_perm, elem_of_Array_from_Set, elem_of_app.
Qed.

(** C9.  With breaks configured at 2, 10 and -1, the layout the
    constructor leaves is [-1; 10; 2]: [sort()] is called without a
    comparison function and orders the positions as strings.  The same
    happens to a reported manifest. *)
Theorem layout_sorted_as_strings (cs : list IAdsPluginController) :
  let b pos := mkPKAdBreak (Some pos) [7%nat] in
  let p := mkPlayer None true [b 2; b 10; b (-1)] undefined undefined in
  getAdBreaksLayout (constructor p cs) = [-1; 10; 2]
  ∧ getAdBreaksLayout
      (_onAdManifestLoaded [-1; 2; 10]
         (constructor (mkPlayer None true [] undefined undefined) cs))
    = [-1; 10; 2].
Proof. by vm_compute. Qed.

(** ** Seeking *)

Lemma next_played_findIndex p s i :
  findIndex (λ adBreak, played adBreak
               && bool_decide (is_Some (currentTime p))
               && num_lt (currentTime p) (position adBreak))
            (_configAdBreaks s) = Some i
  ↔ next_played p s i.
Proof.
  assert (∀ b, played b && bool_decide (is_Some (currentTime p))
               && num_lt (currentTime p) (position b) = true
    ↔ played b = true ∧ ∃ t, currentTime p = Some t ∧ t < position b) as Hf.
  { intros b. rewrite !andb_true_iff, bool_decide_eq_true. unfold num_lt.
    destruct (currentTime p) as [t|].
    - rewrite Z.ltb_lt. split.
      + intros [[? _] ?]. eauto.
      + intros [? (t' & [= <-] & ?)]. split_and!; [done|by eexists|done].
    - split; [by intros [_ ?]|]. by intros [_ (? & ? & _)]. }
  rewrite findIndex_Some. unfold next_played. split.
  - intros [(b & Hb & Hfb) Hlt]. apply Hf in Hfb as (Hpl & t & Ht & Hpos).
    split; [by exists b, t|].
    intros j b' t' Hj Hb' Ht' [Hp' Hlt']. specialize (Hlt j b' Hj Hb').
    assert (played b' = true ∧ ∃ t, currentTime p = Some t ∧ t < position b')
      as Habs%Hf by eauto. congruence.
  - intros [(b & t & Hb & Hpl & Ht & Hpos) Hlt]. split.
    + exists b. split; [done|]. apply Hf. eauto.
    + intros j b' Hj Hb'. apply not_true_is_false.
      intros (Hp' & t' & Ht' & Hlt')%Hf. by eapply (Hlt j b' t').
Qed.

(** ** The completion flag under a dispatch *)

Lemma _playAdBreak_allAdsCompleted r s :
  _allAdsCompleted (_playAdBreak r s) = _allAdsCompleted s.
Proof.
  unfold _playAdBreak. destruct (findIndex _ _); [|done].
  destruct r as [i|b]; [|done]. by destruct (_configAdBreaks s !! i).
Qed.

Lemma run_finally_allAdsCompleted k s :
  _allAdsCompleted (run_finally k s) = _allAdsCompleted s.
Proof.
  destruct k as [[a|]|]; simpl; try done.
  unfold _handleConfiguredPostroll. destruct (findIndex _ _); [|done].
  by rewrite _playAdBreak_allAdsCompleted.
Qed.


(** ** What the listeners keep *)

Lemma keeps_refl s : keeps s s.
Proof. by split. Qed.

Lemma keeps_has_midrolls s s' : keeps s s' → has_midrolls s' = has_midrolls s.
Proof. intros Hk. unfold has_midrolls. by rewrite (keeps_positions _ _ Hk). Qed.

Lemma keeps_trans s1 s2 s3 : keeps s1 s2 → keeps s2 s3 → keeps s1 s3.
Proof.
  intros H12 H23. pose proof (keeps_has_midrolls _ _ H12) as Hm.
  destruct H12 as [He1 Hp1 Hs1 Hz1], H23 as [He2 Hp2 Hs2 Hz2].
  split; [congruence|congruence|auto|].
  intros Hno Hz. apply Hz2; [congruence|auto].
Qed.

Lemma inv_keeps s s' : inv s → keeps s s' → inv s'.
Proof.
  intros [Hso Hsn Hwf Hsub] [He Hp Hs _].
  split; [by rewrite Hp|auto|by rewrite He..].
Qed.

Lemma positions_mark_played (l : list RunTimeAdBreakObject) i b :
  l !! i = Some b →
  position <$> <[i := mark_played b]> l = position <$> l.
Proof.
  intros Hi. rewrite list_fmap_insert. apply list_insert_id.
  by rewrite list_lookup_fmap, Hi.
Qed.

Lemma positions_all_played (l : list RunTimeAdBreakObject) :
  position <$> (mark_played <$> l) = position <$> l.
Proof. rewrite <- list_fmap_compose. by apply list_fmap_ext. Qed.

Lemma _playAdBreak_keeps r s : keeps s (_playAdBreak r s).
Proof.
  unfold _playAdBreak. destruct (findIndex _ _); [|by split].
  destruct r as [i|b]; [|by split].
  destruct (_configAdBreaks s !! i) as [b|] eqn:Hi; [|by split].
  split; simpl; [done| |done..]. by apply positions_mark_played.
Qed.

Lemma _handleConfiguredPostroll_keeps s : keeps s (_handleConfiguredPostroll s).
Proof.
  unfold _handleConfiguredPostroll. destruct (findIndex _ _); [|by split].
  eapply keeps_trans; [|apply _playAdBreak_keeps].
  split; simpl; [done| |done..]. apply positions_all_played.
Qed.

Lemma run_finally_keeps k s : keeps s (run_finally k s).
Proof.
  destruct k as [[a|]|]; simpl; [by split..|].
  apply _handleConfiguredPostroll_keeps.
Qed.

Lemma _onEnded_keeps s : keeps s (_onEnded s).
Proof.
  unfold _onEnded. repeat case_match; try by split.
  apply run_finally_keeps.
Qed.

Lemma last_filter_true {A} (f : A → bool) (l : list A) x :
  last (List.filter f l) = Some x → f x = true ∧ x ∈ l.
Proof.
  intros Hl. assert (x ∈ List.filter f l) as Hx.
  { apply last_Some in Hl as [l' ->]. apply elem_of_app. right. by left. }
  apply list_elem_of_In, filter_In in Hx as [Hx ?].
  split; [done|]. by apply list_elem_of_In.
Qed.

Lemma onTimeUpdate_keeps p s : keeps s (onTimeUpdate p s).
Proof.
  unfold onTimeUpdate. destruct (negb (paused p)); [|by split].
  destruct (last _) as [[i b]|] eqn:Hlast; [|by split].
  eapply keeps_trans; [|apply _playAdBreak_keeps].
  apply last_filter_true in Hlast as [Hdue Hin].
  unfold midroll_due in Hdue. simpl in Hdue.
  apply andb_true_iff in Hdue as [_ Hlt].
  split; simpl; [done..|lia|]. intros Hno Hz.
  apply (elem_of_lookup_imap_1 (λ i x, (i, x))) in Hin as (i' & b' & [= <- <-] & Hi).
  assert (has_midrolls s = true); [|congruence].
  unfold has_midrolls. apply existsb_exists. exists (position b). split; [|lia].
  apply list_elem_of_In, list_elem_of_fmap. exists b. split; [done|].
  by eapply list_elem_of_lookup_2.
Qed.

Lemma onSeeked_keeps p s : keeps s (onSeeked p s).
Proof. unfold onSeeked. repeat case_match; by split. Qed.

Lemma call0_keeps h e p s : keeps s (call0 h e p s).
Proof.
  destruct h, e; simpl;
    try apply keeps_refl; try apply _onEnded_keeps;
    try apply onTimeUpdate_keeps; try apply onSeeked_keeps;
    try (by split).
  all: try (unfold _onAdsCompleted; case_match; by split).
  all: unfold _onAdError; repeat case_match; by split.
Qed.


(** ** The controller's registry *)

Abbreviation Registry := (EventManager.EventManager Target Listener).

Lemma subscription_once ty h :
  (ty, oneListener h) ∈ subscriptions → ty = Html5EventType.ENDED ∧ h = h_onEnded.
Proof.
  unfold subscriptions. intros H.
  repeat (apply elem_of_cons in H as [H|H]; [by inversion H|]).
  by apply elem_of_nil in H.
Qed.

Lemma subscribed_listen ty l (em : Registry) :
  EventManager.wf em → subscribed em → (ty, l) ∈ subscriptions →
  subscribed (EventManager.listen the_player ty l em).
Proof.
  intros Hwf Hsub Hin k b bd Hst Hbd.
  rewrite store_listen in Hbd.
  apply stored_under_listen in Hst as [Hst|(_ & -> & ->)].
  - destruct (EventManager.wf_attached _ Hwf k b Hst) as (bd0 & Hbd0 & _).
    rewrite (lookup_app_l_Some _ _ _ _ Hbd0) in Hbd. injection Hbd as <-.
    by apply (Hsub k b).
  - rewrite list_lookup_middle in Hbd by done. injection Hbd as <-.
    by exists l.
Qed.

Lemma subscribed_unlisten ty (em : Registry) :
  EventManager.wf em → subscribed em →
  subscribed (EventManager.unlisten the_player ty em).
Proof.
  intros Hwf Hsub k b bd Hst Hbd.
  apply stored_under_unlisten in Hst as (Hst & Heq & _); [|done].
  rewrite Heq in Hbd. by apply (Hsub k b).
Qed.

Lemma subscribed_removeAll (em : Registry) :
  EventManager.wf em → subscribed (EventManager.removeAll em).
Proof.
  intros Hwf k b bd Hst _.
  by apply stored_under_removeAll in Hst; [|apply (EventManager.wf_map _ Hwf)].
Qed.

(** A list of subscriptions made one after the other. *)
Lemma listen_all_ok (subs : list (string * Listener)) (em : Registry) :
  subs ⊆ subscriptions → EventManager.wf em → subscribed em →
  let em' := foldl (λ em x, EventManager.listen the_player x.1 x.2 em) em subs in
  EventManager.wf em' ∧ subscribed em' ∧ EventManager.grows em em'
  ∧ (∀ ty b, EventManager.stored_under ty b em →
             EventManager.stored_under ty b em')
  ∧ (∀ x, x ∈ subs → ∃ b, EventManager.stored_under x.1 b em').
Proof.
  revert em. induction subs as [|[ty l] subs IH]; intros em Hsubs Hwf Hsub; simpl.
  { split_and!; [done|done|apply grows_refl|done|]. by intros x Hx%elem_of_nil. }
  assert ((ty, l) ∈ subscriptions) as Hin by (apply Hsubs; left).
  assert (subs ⊆ subscriptions) as Hsubs'.
  { intros x Hx. apply Hsubs. by right. }
  destruct (IH (EventManager.listen the_player ty l em) Hsubs'
              (wf_listen _ _ _ _ Hwf) (subscribed_listen _ _ _ Hwf Hsub Hin))
    as (Hwf' & Hsub' & Hg & Hmono & Hall).
  split_and!; [done|done| | |].
  - eapply grows_trans; [apply grows_listen|done].
  - intros k b Hst. apply Hmono, stored_under_listen. by left.
  - intros x [->|Hx]%elem_of_cons; [|by apply Hall].
    eexists. apply Hmono, stored_under_listen. right.
    split; [apply (EventManager.wf_map _ Hwf)|done].
Qed.

Local Arguments EventManager.listen : simpl never.

Lemma _addBindings_registry s :
  _eventManager (_addBindings s)
  = foldl (λ em x, EventManager.listen the_player x.1 x.2 em)
          (_eventManager s) (take 9 subscriptions).
Proof.
  unfold _addBindings, em_listen, em_listenOnce, subscriptions. by simpl.
Qed.

Lemma _handleConfiguredMidrolls_registry s :
  _eventManager (_handleConfiguredMidrolls s)
  = foldl (λ em x, EventManager.listen the_player x.1 x.2 em)
          (_eventManager s) (drop 9 subscriptions).
Proof.
  unfold _handleConfiguredMidrolls, em_listen, subscriptions. by simpl.
Qed.

Lemma _addBindings_eq s :
  _addBindings s = set_eventManager (_eventManager (_addBindings s)) s.
Proof.
  unfold _addBindings, em_listen, em_listenOnce. by simpl.
Qed.

Lemma _handleConfiguredMidrolls_eq s :
  _handleConfiguredMidrolls s
  = set_eventManager (_eventManager (_handleConfiguredMidrolls s)) s.
Proof.
  unfold _handleConfiguredMidrolls, em_listen. by simpl.
Qed.

Lemma inv_listen_all subs s :
  subs ⊆ subscriptions → inv s →
  let s' := set_eventManager
              (foldl (λ em x, EventManager.listen the_player x.1 x.2 em)
                     (_eventManager s) subs) s in
  inv s' ∧ EventManager.grows (_eventManager s) (_eventManager s').
Proof.
  intros Hsubs [Hso Hsn Hwf Hsub].
  destruct (listen_all_ok subs _ Hsubs Hwf Hsub) as (Hwf' & Hsub' & Hg & Hmono & _).
  simpl. split; [|done]. by split.
Qed.


(** ** The invariant *)

Lemma sorted_positions l :
  StronglySorted by_position l → StronglySorted Z.le (position <$> l).
Proof.
  induction 1 as [|x l Hl IH Hx]; simpl; constructor; [done|].
  by apply Forall_fmap.
Qed.

Lemma inv_unlisten_ended s :
  inv s →
  inv (set_eventManager
         (EventManager.unlisten the_player Html5EventType.ENDED (_eventManager s)) s).
Proof.
  intros [Hso Hsn Hwf Hsub]. split; simpl; [done|done| |].
  - by apply wf_unlisten.
  - by apply subscribed_unlisten.
Qed.

Lemma snapshot_of_grows ty l (em em' : Registry) :
  snapshot_of ty l em → EventManager.grows em em' → snapshot_of ty l em'.
Proof.
  intros Hsn Hg b Hb. destruct (Hsn b Hb) as (bd & Hbd & Hty).
  destruct (Hg b bd Hbd) as (bd' & Hbd' & Hty'). exists bd'. split; congruence.
Qed.

Lemma deliver_sound call e p s b :
  sound_call call → inv s →
  (∃ bd, EventManager.store (_eventManager s) !! b = Some bd
         ∧ EventManager.type bd = type_of e) →
  inv (deliver call e p s b)
  ∧ EventManager.grows (_eventManager s) (_eventManager (deliver call e p s b)).
Proof.
  intros Hcall Hinv (bd & Hbd & Hty). unfold deliver. rewrite Hbd.
  destruct (EventManager.target bd) as [[]|] eqn:Ht;
    [|split; [done|apply grows_refl]].
  destruct (EventManager.listener bd) as [[h|h]|] eqn:Hl;
    [by apply Hcall| |split; [done|apply grows_refl]].
  assert (type_of e = Html5EventType.ENDED) as ->.
  { assert (EventManager.stored_under (EventManager.type bd) b
              (_eventManager s)) as Hst.
    { apply (EventManager.wf_held _ (inv_registry _ Hinv) b bd Hbd).
      by eexists. }
    rewrite Hty in Hst.
    destruct (inv_subscribed _ Hinv _ _ _ Hst Hbd) as (l & Hl' & Hin).
    rewrite Hl in Hl'. injection Hl' as <-.
    by apply subscription_once in Hin as [? _]. }
  destruct (Hcall h e p _ (inv_unlisten_ended s Hinv)) as [Hi Hg].
  split; [done|]. eapply grows_trans; [|exact Hg]. apply grows_unlisten.
Qed.

Lemma deliver_all_sound call e p l s :
  sound_call call → inv s → snapshot_of (type_of e) l (_eventManager s) →
  inv (foldl (deliver call e p) s l)
  ∧ EventManager.grows (_eventManager s)
      (_eventManager (foldl (deliver call e p) s l)).
Proof.
  intros Hcall. revert s. induction l as [|b l IH]; intros s Hinv Hsn; simpl.
  { split; [done|apply grows_refl]. }
  destruct (deliver_sound call e p s b Hcall Hinv) as [Hi Hg].
  { apply Hsn. by left. }
  destruct (IH (deliver call e p s b) Hi) as [Hi' Hg'].
  { eapply snapshot_of_grows; [|exact Hg]. intros x Hx. apply Hsn. by right. }
  split; [done|]. by eapply grows_trans.
Qed.

Lemma snapshot_of_get ty (em : Registry) m :
  EventManager.wf em → EventManager._bindingMap em = Some m →
  snapshot_of ty (MultiMap.get ty m) em.
Proof.
  intros Hwf Hm b Hb.
  destruct (EventManager.wf_attached _ Hwf ty b) as (bd & Hbd & _ & Hty);
    [by exists m|]. by exists bd.
Qed.

Lemma player_dispatchEvent_sound call e p s :
  sound_call call → inv s →
  inv (player_dispatchEvent call e p s)
  ∧ EventManager.grows (_eventManager s)
      (_eventManager (player_dispatchEvent call e p s)).
Proof.
  intros Hcall Hinv. unfold player_dispatchEvent.
  destruct (EventManager.wf_map _ (inv_registry _ Hinv)) as [m Hm]. rewrite Hm.
  apply deliver_all_sound; [done..|].
  by apply snapshot_of_get; [apply inv_registry|].
Qed.

Lemma call0_sound : sound_call call0.
Proof.
  intros h e p s Hinv. pose proof (call0_keeps h e p s) as Hk. split.
  - by eapply inv_keeps.
  - rewrite (keeps_registry _ _ Hk). apply grows_refl.
Qed.

Lemma _handleConfiguredPreroll_keeps s : keeps s (_handleConfiguredPreroll s).
Proof.
  unfold _handleConfiguredPreroll. destruct (findIndex _ _); [|by split].
  apply _playAdBreak_keeps.
Qed.

Lemma _handleConfiguredMidrolls_sound s :
  inv s →
  inv (_handleConfiguredMidrolls s)
  ∧ EventManager.grows (_eventManager s)
      (_eventManager (_handleConfiguredMidrolls s)).
Proof.
  intros Hinv. rewrite _handleConfiguredMidrolls_eq.
  rewrite _handleConfiguredMidrolls_registry.
  apply inv_listen_all; [apply subseteq_drop|done].
Qed.

Lemma _handleConfiguredAdBreaks_sound p s :
  EventManager.wf (_eventManager s) → subscribed (_eventManager s) →
  0 ≤ _snapback s →
  inv (_handleConfiguredAdBreaks p s)
  ∧ EventManager.grows (_eventManager s)
      (_eventManager (_handleConfiguredAdBreaks p s)).
Proof.
  intros Hwf Hsub Hsn. unfold _handleConfiguredAdBreaks.
  set (s1 := set_configAdBreaks (configured_breaks p) s).
  assert (inv s1) as Hinv1.
  { split; simpl; [|done..]. apply sorted_positions, sort_by_position_sorted. }
  case_bool_decide; [|split; [done|apply grows_refl]].
  set (positions := position <$> _configAdBreaks s1).
  set (s2 := emit (player_dispatch_AD_MANIFEST_LOADED positions) s1).
  assert (inv s2) as Hinv2 by (eapply inv_keeps; [exact Hinv1|by split]).
  destruct (player_dispatchEvent_sound call0 (AD_MANIFEST_LOADED positions)
              p s2 call0_sound Hinv2) as [Hinv3 Hg3].
  set (s3 := player_dispatchEvent call0 (AD_MANIFEST_LOADED positions) p s2) in *.
  set (s4 := if includes 0 positions then _handleConfiguredPreroll s3 else s3).
  assert (keeps s3 s4) as Hk4.
  { unfold s4. destruct (includes 0 positions);
      [apply _handleConfiguredPreroll_keeps|apply keeps_refl]. }
  assert (inv s4) as Hinv4 by by eapply inv_keeps.
  assert (EventManager.grows (_eventManager s) (_eventManager s4)) as Hg4.
  { by rewrite (keeps_registry _ _ Hk4). }
  destruct (existsb _ _); [|done].
  destruct (_handleConfiguredMidrolls_sound s4 Hinv4) as [Hinv5 Hg5].
  split; [done|]. by eapply grows_trans.
Qed.

Lemma _init_sound p s :
  EventManager.wf (_eventManager s) → subscribed (_eventManager s) →
  inv (_init p s)
  ∧ EventManager.grows (_eventManager s) (_eventManager (_init p s)).
Proof.
  intros Hwf Hsub. unfold _init.
  destruct (listen_all_ok (take 9 subscriptions) (_eventManager s))
    as (Hwf' & Hsub' & Hg & _ & Hall); [apply subseteq_take|done..|].
  destruct (_handleConfiguredAdBreaks_sound p (_addBindings (_initMembers s)))
    as [Hinv Hg'].
  - by rewrite _addBindings_registry.
  - by rewrite _addBindings_registry.
  - by rewrite _addBindings_eq.
  - split; [done|]. eapply grows_trans; [|exact Hg'].
    by rewrite _addBindings_registry.
Qed.

Lemma _reset_sound p s :
  inv s →
  inv (_reset p s)
  ∧ EventManager.grows (_eventManager s) (_eventManager (_reset p s)).
Proof.
  intros Hinv. unfold _reset.
  destruct (_init_sound p
    (set_eventManager (EventManager.removeAll (_eventManager s)) s))
    as [Hi Hg]; simpl.
  - apply wf_removeAll, inv_registry, Hinv.
  - apply subscribed_removeAll, inv_registry, Hinv.
  - split; [done|]. eapply grows_trans; [apply grows_removeAll|exact Hg].
Qed.

Lemma call_sound : sound_call call.
Proof.
  intros h e p s Hinv.
  destruct h; try apply (call0_sound _ e p s Hinv).
  by apply _reset_sound.
Qed.

Lemma constructor_inv p cs : inv (constructor p cs).
Proof.
  unfold constructor. apply _init_sound; simpl.
  - apply wf_new.
  - intros ty b bd (m & [= <-] & Hin). by apply elem_of_nil in Hin.
Qed.

Lemma settle_keeps n s : keeps s (settle n s).
Proof.
  unfold settle. destruct (promises s !! n) as [[k|]|]; [|by split..].
  eapply keeps_trans; [|apply run_finally_keeps]. by split.
Qed.

Lemma step_inv s st : inv s → inv (step s st).
Proof.
  intros Hinv. destruct st as [e p|n|i a d| |adPod p]; simpl.
  - by apply player_dispatchEvent_sound; [apply call_sound|].
  - eapply inv_keeps; [done|apply settle_keeps].
  - eapply inv_keeps; [done|]. unfold plugin_update.
    destruct (_ !! i); by split.
  - eapply inv_keeps; [done|]. unfold skipAd. destruct (findIndex _ _); by split.
  - eapply inv_keeps; [done|]. unfold playAdNow. destruct (isAdBreak s); [by split|].
    apply _playAdBreak_keeps.
Qed.


(** ** Midrolls *)

Lemma StronglySorted_lookup_le (l : list Z) j i x y :
  StronglySorted Z.le l → l !! j = Some x → l !! i = Some y → (j ≤ i)%nat →
  x ≤ y.
Proof.
  intros Hs. revert j i. induction Hs as [|a l Hs IH Ha]; intros j i Hj Hi Hle.
  { done. }
  destruct j as [|j], i as [|i]; simpl in *; try lia.
  - injection Hj as <-. injection Hi as <-. lia.
  - injection Hj as <-. rewrite Forall_forall in Ha. apply Ha.
    by eapply list_elem_of_lookup_2.
  - eapply IH; [done..|lia].
Qed.

Lemma entries_snoc {A} (l : list A) x :
  entries (l ++ [x]) = entries l ++ [(length l, x)].
Proof.
  unfold entries. rewrite imap_app. simpl. by rewrite Nat.add_0_r.
Qed.

Lemma last_filter_entries {A} (f : nat * A → bool) (l : list A) i b :
  last (List.filter f (entries l)) = Some (i, b) →
  l !! i = Some b ∧ f (i, b) = true
  ∧ ∀ j b', l !! j = Some b' → f (j, b') = true → (j ≤ i)%nat.
Proof.
  revert i b. induction l as [|x l IH] using rev_ind; intros i b; [done|].
  rewrite entries_snoc, List.filter_app. simpl.
  destruct (f (length l, x)) eqn:Hfx.
  - rewrite last_snoc. intros [= <- <-]. split_and!.
    + by apply list_lookup_middle.
    + done.
    + intros j b' Hj _. apply lookup_lt_Some in Hj.
      rewrite length_app in Hj. simpl in Hj. lia.
  - rewrite app_nil_r. intros (Hi & Hf & Hmax)%IH. split_and!.
    + by apply lookup_app_l_Some.
    + done.
    + intros j b' Hj Hfj.
      destruct (decide (j = length l)) as [->|Hne].
      * rewrite list_lookup_middle in Hj by done. injection Hj as <-. congruence.
      * apply lookup_lt_Some in Hj as Hlt. rewrite length_app in Hlt. simpl in Hlt.
        rewrite lookup_app_l in Hj by lia. by apply (Hmax j b').
Qed.

Lemma last_filter_entries_None {A} (f : nat * A → bool) (l : list A) i b :
  last (List.filter f (entries l)) = None → l !! i = Some b → f (i, b) = false.
Proof.
  intros Hnone%last_None Hi. apply not_true_is_false. intros Hf.
  assert ((i, b) ∈ List.filter f (entries l)) as Hin; [|by rewrite Hnone in Hin; apply elem_of_nil in Hin].
  apply list_elem_of_In, filter_In. split; [|done].
  apply list_elem_of_In. by apply (elem_of_lookup_imap_2 (λ i x, (i, x))).
Qed.

Lemma midroll_due_true p s b :
  0 ≤ _snapback s → midroll_due p s b = true ↔ due p s b.
Proof.
  intros Hsn. unfold midroll_due, due, truthy, le_num.
  rewrite !andb_true_iff, negb_true_iff, Z.ltb_lt.
  destruct (currentTime p) as [t|].
  - rewrite negb_true_iff, Z.eqb_neq, Z.leb_le. split.
    + intros [[[? ?] ?] ?]. split; [done|]. by exists t.
    + intros [? (t' & [= <-] & ? & ?)]. split_and!; [done|lia|done..].
  - split; [by intros [[[_ ?] _] _]|]. by intros [_ (? & ? & _)].
Qed.

(** What a dispatch does to a configured break. *)
Lemma _playAdBreak_configured i b s :
  _configAdBreaks s !! i = Some b →
  (∀ j, j ≠ i →
     _configAdBreaks (_playAdBreak (configured i) s) !! j = _configAdBreaks s !! j)
  ∧ _snapback (_playAdBreak (configured i) s) = _snapback s
  ∧ match findIndex (λ c, negb (_isBumper c)) (_adsPluginControllers s) with
    | Some a =>
        out (_playAdBreak (configured i) s) = out s ++ [ctrl_playAdNow a (ads b)]
        ∧ _configAdBreaks (_playAdBreak (configured i) s) !! i
          = Some (mark_played b)
        ∧ _adIsLoading (_playAdBreak (configured i) s) = true
    | None =>
        _playAdBreak (configured i) s
        = emit (logger_warn "No ads plugin registered") s
    end.
Proof.
  intros Hi. unfold _playAdBreak. rewrite Hi.
  destruct (findIndex _ _) as [a|]; simpl; [|done].
  split_and!; try done.
  - intros j Hj. by apply list_lookup_insert_ne.
  - apply list_lookup_insert_eq. by eapply lookup_lt_Some.
Qed.

Lemma onTimeUpdate_spec p s :
  inv s → paused p = false →
  ((¬ ∃ b, b ∈ _configAdBreaks s ∧ due p s b) → onTimeUpdate p s = s)
  ∧ ((∃ b, b ∈ _configAdBreaks s ∧ due p s b) →
     ∃ i b, _configAdBreaks s !! i = Some b ∧ due p s b
       ∧ (∀ b', b' ∈ _configAdBreaks s → due p s b' → position b' ≤ position b)
       ∧ onTimeUpdate p s
         = _playAdBreak (configured i) (set_snapback (position b) s)
       ∧ _snapback (onTimeUpdate p s) = position b
       ∧ (∀ j, j ≠ i →
            _configAdBreaks (onTimeUpdate p s) !! j = _configAdBreaks s !! j)
       ∧ (∀ a, findIndex (λ c, negb (_isBumper c)) (_adsPluginControllers s)
               = Some a →
            out (onTimeUpdate p s) = out s ++ [ctrl_playAdNow a (ads b)]
            ∧ _configAdBreaks (onTimeUpdate p s) !! i = Some (mark_played b))).
Proof.
  intros Hinv Hp. pose proof (inv_snapback _ Hinv) as Hsn.
  unfold onTimeUpdate. rewrite Hp. simpl.
  destruct (last _) as [[i b]|] eqn:Hlast.
  - apply last_filter_entries in Hlast as (Hi & Hdue & Hmax).
    simpl in Hdue. apply midroll_due_true in Hdue; [|done].
    split; [intros Hno; destruct Hno; exists b; split; [|done];
            by eapply list_elem_of_lookup_2|].
    intros _. exists i, b.
    destruct (_playAdBreak_configured i b (set_snapback (position b) s) Hi)
      as (Hother & Hsnap & Hplay).
    split_and!; try done.
    + intros b' [j Hj]%list_elem_of_lookup Hdue'.
      apply (midroll_due_true p s b' Hsn) in Hdue'.
      specialize (Hmax j b' Hj Hdue').
      eapply (StronglySorted_lookup_le _ j i); [apply (inv_sorted _ Hinv)| | |done];
        by rewrite list_lookup_fmap, ?Hi, ?Hj.
    + intros a Ha. simpl in Hplay. rewrite Ha in Hplay.
      by destruct Hplay as (? & ? & _).
  - split; [done|]. intros (b & [i Hi]%list_elem_of_lookup & Hdue).
    apply (midroll_due_true p s b Hsn) in Hdue.
    pose proof (last_filter_entries_None _ _ i b Hlast Hi) as Hf.
    simpl in Hf. congruence.
Qed.

(** ** Which listener a notification reaches *)

Lemma subscription_unique e l :
  (type_of e, l) ∈ subscriptions →
  l = match e with
      | ENDED => oneListener h_onEnded
      | _ => plain (handler_of e)
      end.
Proof.
  unfold subscriptions. intros H.
  destruct e; simpl in H;
    repeat (apply elem_of_cons in H as [H|H]; [by inversion H|]);
    by apply elem_of_nil in H.
Qed.

Lemma listen_all_held_other (subs : list (string * Listener)) (em : Registry) k :
  k ∉ subs.*1 →
  EventManager.held k
    (foldl (λ em x, EventManager.listen the_player x.1 x.2 em) em subs)
  = EventManager.held k em.
Proof.
  revert em. induction subs as [|[ty l] subs IH]; intros em Hk; [done|].
  simpl in *. apply not_elem_of_cons in Hk as [Hne Hk]. rewrite IH by done.
  unfold EventManager.held, EventManager.listen. simpl.
  destruct (EventManager._bindingMap em) as [m|]; simpl; [|done].
  rewrite MultiMapFacts.get_push. by rewrite decide_False by done.
Qed.

Lemma listen_all_held_once (subs : list (string * Listener)) (em : Registry) k :
  is_Some (EventManager._bindingMap em) → NoDup subs.*1 → k ∈ subs.*1 →
  ∃ b, EventManager.held k
         (foldl (λ em x, EventManager.listen the_player x.1 x.2 em) em subs)
       = EventManager.held k em ++ [b].
Proof.
  revert em. induction subs as [|[ty l] subs IH]; intros em Hm Hnd Hk.
  { by apply elem_of_nil in Hk. }
  simpl in *. apply NoDup_cons in Hnd as [Hty Hnd].
  apply elem_of_cons in Hk as [->|Hk].
  - rewrite listen_all_held_other by done.
    rewrite held_listen, decide_True by done. by eexists.
  - destruct (IH (EventManager.listen the_player ty l em)) as [b Hb];
      [|done..|].
    { destruct Hm as [m Hm]. rewrite (listen_eq _ _ _ _ _ Hm). by eexists. }
    exists b. rewrite Hb, held_listen by done.
    rewrite decide_False; [done|]. by intros ->.
Qed.

Lemma deliver_live call e p s b bd l :
  EventManager.store (_eventManager s) !! b = Some bd →
  is_Some (EventManager.target bd) → EventManager.listener bd = Some l →
  deliver call e p s b
  = match l with
    | plain h => call h e p s
    | oneListener h =>
        call h e p
          (set_eventManager
             (EventManager.unlisten the_player (type_of e) (_eventManager s)) s)
    end.
Proof.
  intros Hbd [[] Ht] Hl. unfold deliver. by rewrite Hbd, Ht, Hl.
Qed.

Lemma dispatch_none call e p s :
  EventManager.held (type_of e) (_eventManager s) = [] →
  player_dispatchEvent call e p s = s.
Proof.
  unfold EventManager.held, player_dispatchEvent.
  destruct (EventManager._bindingMap _); [|done]. by intros ->.
Qed.

Lemma dispatch_single_registry call e p s b :
  EventManager.wf (_eventManager s) → subscribed (_eventManager s) →
  EventManager.held (type_of e) (_eventManager s) = [b] →
  player_dispatchEvent call e p s
  = match e with
    | ENDED =>
        call h_onEnded e p
          (set_eventManager
             (EventManager.unlisten the_player (type_of e) (_eventManager s)) s)
    | _ => call (handler_of e) e p s
    end.
Proof.
  intros Hwf Hsub Hheld.
  assert (EventManager.stored_under (type_of e) b (_eventManager s)) as Hst.
  { apply stored_under_held. rewrite Hheld. by left. }
  destruct (EventManager.wf_attached _ Hwf _ _ Hst) as (bd & Hbd & Hlive & _).
  destruct (Hsub _ _ _ Hst Hbd) as (l & Hl & Hin).
  apply subscription_unique in Hin.
  unfold EventManager.held, player_dispatchEvent in *.
  destruct (EventManager._bindingMap _); [|done]. rewrite Hheld. simpl.
  rewrite (deliver_live _ _ _ _ _ _ _ Hbd Hlive Hl), Hin. by destruct e.
Qed.

Lemma dispatch_single call e p s b :
  inv s → EventManager.held (type_of e) (_eventManager s) = [b] →
  player_dispatchEvent call e p s
  = match e with
    | ENDED =>
        call h_onEnded e p
          (set_eventManager
             (EventManager.unlisten the_player (type_of e) (_eventManager s)) s)
    | _ => call (handler_of e) e p s
    end.
Proof.
  intros Hinv. apply dispatch_single_registry; [apply inv_registry|apply inv_subscribed]; done.
Qed.


(** ** The subscriptions in place *)

Lemma always_subscriptions :
  Forall (λ x, x ∈ take 9 subscriptions
               ∧ (x.1 ∉ (drop 9 subscriptions).*1)
               ∧ x.1 ≠ Html5EventType.ENDED)
         (take 8 subscriptions).
Proof. apply (bool_decide_unpack _). by vm_compute. Qed.

Lemma midroll_subscriptions :
  NoDup (take 9 subscriptions).*1 ∧ NoDup (drop 9 subscriptions).*1
  ∧ (Html5EventType.TIME_UPDATE ∉ (take 9 subscriptions).*1)
  ∧ (Html5EventType.SEEKED ∉ (take 9 subscriptions).*1)
  ∧ Html5EventType.TIME_UPDATE ∈ (drop 9 subscriptions).*1
  ∧ Html5EventType.SEEKED ∈ (drop 9 subscriptions).*1
  ∧ Html5EventType.ENDED ∈ (take 9 subscriptions).*1
  ∧ (Html5EventType.ENDED ∉ (drop 9 subscriptions).*1).
Proof. apply (bool_decide_unpack _). by vm_compute. Qed.

Lemma shape_keeps s s' : shape s → keeps s s' → shape s'.
Proof.
  intros [Ha He Hm] Hk. pose proof (keeps_has_midrolls _ _ Hk) as Hhm.
  destruct Hk as [Hem _ _ Hz]. split.
  - by rewrite Hem.
  - by rewrite Hem.
  - rewrite Hhm, Hem. destruct (has_midrolls s) eqn:E; [done|].
    destruct Hm as (? & ? & ?). split_and!; [done..|]. by apply Hz.
Qed.

Lemma shape_unlisten_ended s :
  inv s → shape s →
  shape (set_eventManager
           (EventManager.unlisten the_player Html5EventType.ENDED (_eventManager s)) s).
Proof.
  intros Hinv [Ha He Hm]. split; simpl.
  - intros x Hx. pose proof always_subscriptions as Hall.
    rewrite Forall_forall in Hall. destruct (Hall x Hx) as (_ & _ & Hne).
    rewrite held_unlisten_other by done. by apply Ha.
  - left. apply held_unlisten_all; [apply inv_registry, Hinv|].
    intros b bd Hst Hbd.
    destruct (EventManager.wf_attached _ (inv_registry _ Hinv) _ _ Hst)
      as (bd' & Hbd' & [[] Ht] & _). congruence.
  - unfold has_midrolls in *. simpl. by rewrite !held_unlisten_other by done.
Qed.

Lemma has_midrolls_due p s b :
  0 ≤ _snapback s → b ∈ _configAdBreaks s → midroll_due p s b = true →
  has_midrolls s = true.
Proof.
  intros Hsn Hb Hdue. unfold midroll_due in Hdue.
  apply andb_true_iff in Hdue as [_ Hlt].
  unfold has_midrolls. apply existsb_exists. exists (position b). split; [|lia].
  apply list_elem_of_In, list_elem_of_fmap. by exists b.
Qed.

Lemma onTimeUpdate_no_midrolls p s :
  0 ≤ _snapback s → has_midrolls s = false → onTimeUpdate p s = s.
Proof.
  intros Hsn Hno. unfold onTimeUpdate. destruct (negb (paused p)); [|done].
  destruct (last _) as [[i b]|] eqn:Hlast; [|done].
  apply last_filter_entries in Hlast as (Hi & Hdue & _). simpl in Hdue.
  rewrite (has_midrolls_due p s b) in Hno; [done..| |done].
  by eapply list_elem_of_lookup_2.
Qed.

Lemma set_snapback_same s : set_snapback (_snapback s) s = s.
Proof. by destruct s. Qed.

Lemma onSeeked_snapback_0 p s : _snapback s = 0 → onSeeked p s = s.
Proof.
  intros Hz. unfold onSeeked. repeat case_match; try done.
  rewrite <- Hz. apply set_snapback_same.
Qed.

(** The listener a notification runs, in a state the controller can be
    in. *)
Lemma notify_eq e p s :
  inv s → shape s →
  step s (Notify e p)
  = match e with
    | ENDED =>
        match EventManager.held Html5EventType.ENDED (_eventManager s) with
        | [] => s
        | _ :: _ =>
            _onEnded
              (set_eventManager
                 (EventManager.unlisten the_player Html5EventType.ENDED
                    (_eventManager s)) s)
        end
    | PLAYER_RESET => _reset p s
    | _ => call0 (handler_of e) e p s
    end.
Proof.
  intros Hinv Hsh. simpl.
  pose proof (shape_always _ Hsh) as Ha. pose proof (shape_midrolls _ Hsh) as Hm.
  assert (∀ x, x ∈ take 8 subscriptions → x.1 = type_of e →
    player_dispatchEvent call e p s
    = match e with
      | ENDED =>
          call h_onEnded e p
            (set_eventManager
               (EventManager.unlisten the_player (type_of e) (_eventManager s)) s)
      | _ => call (handler_of e) e p s
      end) as Hone.
  { intros x Hx Hty. destruct (Ha x Hx) as [b Hb]. rewrite Hty in Hb.
    by eapply dispatch_single. }
  destruct e; simpl.
  1-8: eapply (Hone (_, _)); [|done];
       apply list_elem_of_In; simpl; tauto.
  - destruct (shape_ended _ Hsh) as [Hn|[b Hb]].
    + rewrite Hn. by apply dispatch_none.
    + rewrite Hb. by rewrite (dispatch_single _ ENDED _ _ b).
  - destruct (has_midrolls s) eqn:E.
    + destruct Hm as [[b Hb] _]. by rewrite (dispatch_single _ TIME_UPDATE _ _ b).
    + destruct Hm as (Hb & _ & _). rewrite dispatch_none by done.
      symmetry. apply onTimeUpdate_no_midrolls; [apply inv_snapback, Hinv|done].
  - destruct (has_midrolls s) eqn:E.
    + destruct Hm as [_ [b Hb]]. by rewrite (dispatch_single _ SEEKED _ _ b).
    + destruct Hm as (_ & Hb & Hz). rewrite dispatch_none by done.
      symmetry. by apply onSeeked_snapback_0.
Qed.


Lemma snapback_set_eventManager em s :
  _snapback (set_eventManager em s) = _snapback s.
Proof. done. Qed.

Lemma _handleConfiguredAdBreaks_shape p s :
  EventManager.wf (_eventManager s) → subscribed (_eventManager s) →
  _snapback s = 0 →
  (∀ x, x ∈ take 9 subscriptions →
        ∃ b, EventManager.held x.1 (_eventManager s) = [b]) →
  EventManager.held Html5EventType.TIME_UPDATE (_eventManager s) = [] →
  EventManager.held Html5EventType.SEEKED (_eventManager s) = [] →
  shape (_handleConfiguredAdBreaks p s).
Proof.
  intros Hwf Hsub Hz Hheld9 Htu Hse.
  destruct midroll_subscriptions
    as (Hnd9 & Hnd2 & Htu9 & Hse9 & Htu2 & Hse2 & Hen9 & Hen2).
  pose proof always_subscriptions as Hall. rewrite Forall_forall in Hall.
  assert (∀ x, x ∈ take 8 subscriptions →
               ∃ b, EventManager.held x.1 (_eventManager s) = [b]) as Halways.
  { intros x Hx. by apply Hheld9, Hall. }
  assert (∃ b, EventManager.held Html5EventType.ENDED (_eventManager s) = [b])
    as Hended.
  { apply (Hheld9 (Html5EventType.ENDED, oneListener h_onEnded)).
    apply list_elem_of_In. simpl. tauto. }
  unfold _handleConfiguredAdBreaks.
  set (s1 := set_configAdBreaks (configured_breaks p) s).
  assert (inv s1) as Hinv1.
  { split; simpl; [|lia|done..]. apply sorted_positions, sort_by_position_sorted. }
  assert (∀ s', keeps s1 s' → has_midrolls s1 = false → shape s') as Hno.
  { intros s' Hk Hhm. pose proof (keeps_has_midrolls _ _ Hk) as Hhm'.
    destruct Hk as [Hem _ _ Hz']. split; rewrite ?Hem; simpl.
    - done.
    - by right.
    - rewrite Hhm', Hhm. split_and!; [done..|]. by apply Hz'. }
  case_bool_decide as Hne.
  2:{ apply Hno; [apply keeps_refl|]. unfold has_midrolls. simpl.
      simpl in Hne. by rewrite Hne. }
  set (positions := position <$> _configAdBreaks s1).
  set (s2 := emit (player_dispatch_AD_MANIFEST_LOADED positions) s1).
  assert (keeps s1 s2) as Hk2 by by split.
  assert (inv s2) as Hinv2 by by eapply inv_keeps.
  set (s3 := player_dispatchEvent call0 (AD_MANIFEST_LOADED positions) p s2).
  assert (keeps s2 s3) as Hk3.
  { destruct (Halways (AdEventType.AD_MANIFEST_LOADED, plain h_onAdManifestLoaded))
      as [b Hb]; [apply list_elem_of_In; simpl; tauto|].
    unfold s3. rewrite (dispatch_single _ (AD_MANIFEST_LOADED positions) _ _ b);
      [apply call0_keeps|done..]. }
  set (s4 := if includes 0 positions then _handleConfiguredPreroll s3 else s3).
  assert (keeps s3 s4) as Hk4.
  { unfold s4. destruct (includes 0 positions);
      [apply _handleConfiguredPreroll_keeps|apply keeps_refl]. }
  assert (keeps s1 s4) as Hk14.
  { eapply keeps_trans; [exact Hk2|]. eapply keeps_trans; [exact Hk3|exact Hk4]. }
  change (existsb _ positions) with (has_midrolls s1).
  destruct (has_midrolls s1) eqn:Hhm; [|by apply Hno].
  assert (_eventManager s4 = _eventManager s) as Hem4
    by apply (keeps_registry _ _ Hk14).
  split; rewrite _handleConfiguredMidrolls_registry, Hem4.
  - intros x Hx. rewrite listen_all_held_other; [by apply Halways|].
    by apply Hall.
  - right. by rewrite listen_all_held_other.
  - assert (has_midrolls (_handleConfiguredMidrolls s4) = true) as ->.
    { rewrite _handleConfiguredMidrolls_eq. unfold has_midrolls in *. simpl.
      by rewrite (keeps_positions _ _ Hk14). }
    split.
    + destruct (listen_all_held_once (drop 9 subscriptions) (_eventManager s)
                  Html5EventType.TIME_UPDATE) as [b Hb];
        [apply (EventManager.wf_map _ Hwf)|done..|].
      exists b. by rewrite Hb, Htu.
    + destruct (listen_all_held_once (drop 9 subscriptions) (_eventManager s)
                  Html5EventType.SEEKED) as [b Hb];
        [apply (EventManager.wf_map _ Hwf)|done..|].
      exists b. by rewrite Hb, Hse.
Qed.

Lemma registry_initMembers s : _eventManager (_initMembers s) = _eventManager s.
Proof. done. Qed.

Lemma _init_shape p s :
  EventManager.wf (_eventManager s) → subscribed (_eventManager s) →
  (∀ k, EventManager.held k (_eventManager s) = []) →
  shape (_init p s).
Proof.
  intros Hwf Hsub Hempty.
  destruct midroll_subscriptions as (Hnd9 & _ & Htu9 & Hse9 & _).
  destruct (listen_all_ok (take 9 subscriptions) (_eventManager s))
    as (Hwf1 & Hsub1 & _); [apply subseteq_take|done..|].
  unfold _init. apply _handleConfiguredAdBreaks_shape.
  - by rewrite _addBindings_registry, registry_initMembers.
  - by rewrite _addBindings_registry, registry_initMembers.
  - by rewrite _addBindings_eq, snapback_set_eventManager.
  - intros x Hx. rewrite _addBindings_registry, registry_initMembers.
    destruct (listen_all_held_once (take 9 subscriptions) (_eventManager s) x.1)
      as [b Hb]; [apply (EventManager.wf_map _ Hwf)|done| |].
    { apply list_elem_of_fmap. by exists x. }
    exists b. by rewrite Hb, Hempty.
  - by rewrite _addBindings_registry, registry_initMembers, listen_all_held_other, Hempty.
  - by rewrite _addBindings_registry, registry_initMembers, listen_all_held_other, Hempty.
Qed.


Lemma _reset_shape p s : inv s → shape (_reset p s).
Proof.
  intros Hinv. unfold _reset. apply _init_shape; simpl.
  - apply wf_removeAll, inv_registry, Hinv.
  - apply subscribed_removeAll, inv_registry, Hinv.
  - intros k. apply held_removeAll, (EventManager.wf_map _ (inv_registry _ Hinv)).
Qed.

Lemma step_keeps s st :
  match st with Notify _ _ => True | _ => keeps s (step s st) end.
Proof.
  destruct st as [e p|n|i a d| |adPod p]; simpl; [done|..].
  - apply settle_keeps.
  - unfold plugin_update. destruct (_ !! i); by split.
  - unfold skipAd. destruct (findIndex _ _); by split.
  - unfold playAdNow. destruct (isAdBreak s); [by split|].
    apply _playAdBreak_keeps.
Qed.

Lemma step_shape s st : inv s → shape s → shape (step s st).
Proof.
  intros Hinv Hsh. pose proof (step_keeps s st) as Hk.
  destruct st as [e p|n|i a d| |adPod p]; try by eapply shape_keeps.
  rewrite notify_eq by done.
  destruct e; try (eapply shape_keeps; [done|apply call0_keeps]).
  - by apply _reset_shape.
  - destruct (EventManager.held _ _); [done|].
    eapply shape_keeps; [by apply shape_unlisten_ended|apply _onEnded_keeps].
Qed.

(** What holds of every state the controller can reach. *)
Lemma reachable p cs steps :
  inv (run steps (constructor p cs)) ∧ shape (run steps (constructor p cs)).
Proof.
  assert (inv (constructor p cs) ∧ shape (constructor p cs)) as H0.
  { split; [apply constructor_inv|]. unfold constructor. apply _init_shape; simpl.
    - apply wf_new.
    - intros ty b bd (m & [= <-] & Hin). by apply elem_of_nil in Hin.
    - done. }
  revert H0. generalize (constructor p cs).
  induction steps as [|st steps IH]; intros s [Hinv Hsh]; [done|].
  simpl. apply IH. split; [by apply step_inv|by apply step_shape].
Qed.


(** ** Initialisation, spelt out *)

(** With the subscriptions of [_addBindings] in place, the event
    [_handleConfiguredAdBreaks] dispatches on the player comes back to
    [_onAdManifestLoaded], once. *)
Lemma _handleConfiguredAdBreaks_eq p s b :
  EventManager.wf (_eventManager s) → subscribed (_eventManager s) →
  EventManager.held AdEventType.AD_MANIFEST_LOADED (_eventManager s) = [b] →
  _handleConfiguredAdBreaks p s
  = let s1 := set_configAdBreaks (configured_breaks p) s in
    if bool_decide (configured_breaks p ≠ []) then
      let positions := position <$> configured_breaks p in
      let s3 := _onAdManifestLoaded positions
                  (emit (player_dispatch_AD_MANIFEST_LOADED positions) s1) in
      let s4 := if includes 0 positions
                then _handleConfiguredPreroll s3 else s3 in
      if existsb (λ position, 0 <? position) positions
      then _handleConfiguredMidrolls s4 else s4
    else s1.
Proof.
  intros Hwf Hsub Hb. unfold _handleConfiguredAdBreaks. simpl.
  case_bool_decide; [|done].
  by rewrite (dispatch_single_registry call0 (AD_MANIFEST_LOADED _) p _ b).
Qed.

Lemma _playAdBreak_promises r s : promises (_playAdBreak r s) = promises s.
Proof.
  unfold _playAdBreak. destruct (findIndex _ _); [|done].
  destruct r as [i|b]; [|done]. by destruct (_configAdBreaks s !! i).
Qed.

Lemma _playAdBreak_controllers r s :
  _adsPluginControllers (_playAdBreak r s) = _adsPluginControllers s.
Proof.
  unfold _playAdBreak. destruct (findIndex _ _); [|done].
  destruct r as [i|b]; [|done]. by destruct (_configAdBreaks s !! i).
Qed.

Lemma _handleConfiguredAdBreaks_fields p s b :
  EventManager.wf (_eventManager s) → subscribed (_eventManager s) →
  EventManager.held AdEventType.AD_MANIFEST_LOADED (_eventManager s) = [b] →
  _allAdsCompleted (_handleConfiguredAdBreaks p s)
  = (if bool_decide (configured_breaks p = []) then _allAdsCompleted s else false)
  ∧ promises (_handleConfiguredAdBreaks p s) = promises s
  ∧ _adsPluginControllers (_handleConfiguredAdBreaks p s)
    = _adsPluginControllers s.
Proof.
  intros Hwf Hsub Hb. rewrite (_handleConfiguredAdBreaks_eq _ _ b) by done.
  cbv zeta.
  assert (∀ s', _allAdsCompleted (_handleConfiguredPreroll s') = _allAdsCompleted s'
                ∧ promises (_handleConfiguredPreroll s') = promises s'
                ∧ _adsPluginControllers (_handleConfiguredPreroll s')
                  = _adsPluginControllers s') as Hpre.
  { intros s'. unfold _handleConfiguredPreroll. destruct (findIndex _ _); [|done].
    by rewrite _playAdBreak_allAdsCompleted, _playAdBreak_promises,
               _playAdBreak_controllers. }
  case_bool_decide as Hne.
  - rewrite bool_decide_eq_false_2 by done.
    destruct (existsb _ _); [rewrite _handleConfiguredMidrolls_eq|];
      destruct (includes 0 _); simpl;
      by rewrite ?(proj1 (Hpre _)), ?(proj1 (proj2 (Hpre _))),
                 ?(proj2 (proj2 (Hpre _))).
  - by rewrite bool_decide_eq_true_2 by done.
Qed.

Lemma fields_set_eventManager em s :
  _allAdsCompleted (set_eventManager em s) = _allAdsCompleted s
  ∧ promises (set_eventManager em s) = promises s
  ∧ _adsPluginControllers (set_eventManager em s) = _adsPluginControllers s.
Proof. done. Qed.

Lemma _init_fields p s :
  EventManager.wf (_eventManager s) → subscribed (_eventManager s) →
  (∀ k, EventManager.held k (_eventManager s) = []) →
  _allAdsCompleted (_init p s) = bool_decide (configured_breaks p = [])
  ∧ promises (_init p s) = promises s
  ∧ _adsPluginControllers (_init p s) = _adsPluginControllers s.
Proof.
  intros Hwf Hsub Hempty.
  destruct midroll_subscriptions as (Hnd9 & _).
  destruct (listen_all_ok (take 9 subscriptions) (_eventManager s))
    as (Hwf1 & Hsub1 & _); [apply subseteq_take|done..|].
  destruct (listen_all_held_once (take 9 subscriptions) (_eventManager s)
              AdEventType.AD_MANIFEST_LOADED) as [b Hb];
    [apply (EventManager.wf_map _ Hwf)|done| |].
  { apply list_elem_of_In. simpl. tauto. }
  rewrite Hempty, app_nil_l in Hb.
  unfold _init.
  destruct (_handleConfiguredAdBreaks_fields p (_addBindings (_initMembers s)) b)
    as (Ha & Hp & Hc).
  { by rewrite _addBindings_registry, registry_initMembers. }
  { by rewrite _addBindings_registry, registry_initMembers. }
  { by rewrite _addBindings_registry, registry_initMembers. }
  rewrite Ha, Hp, Hc, _addBindings_eq.
  destruct (fields_set_eventManager
              (_eventManager (_addBindings (_initMembers s))) (_initMembers s))
    as (-> & -> & ->).
  split_and!; [by case_bool_decide|done..].
Qed.


(** ** The claims about notifications *)

(** C2.  In every state the controller can reach, on a time-progress
    notification with the player not paused: when no unplayed configured
    break has its position at or before the current time and past the
    snapback, nothing changes; otherwise one such break, of the greatest
    position among them, is handed to [_playAdBreak], the snapback becomes
    its position, and every other break is left as it was.  With unplayed
    breaks at 5 and 15 and the time jumping to 20, the break at 15 alone is
    played and the snapback becomes 15. *)
Theorem time_update_dispatches_latest_due
    (p0 : Player) (cs : list IAdsPluginController) (steps : list Step)
    (p : Player) :
  paused p = false →
  let s := run steps (constructor p0 cs) in
  let s' := step s (Notify TIME_UPDATE p) in
  ((¬ ∃ b, b ∈ _configAdBreaks s ∧ due p s b) → s' = s)
  ∧ ((∃ b, b ∈ _configAdBreaks s ∧ due p s b) →
     ∃ i b, _configAdBreaks s !! i = Some b ∧ due p s b
       ∧ (∀ b', b' ∈ _configAdBreaks s → due p s b' → position b' ≤ position b)
       ∧ s' = _playAdBreak (configured i) (set_snapback (position b) s)
       ∧ _snapback s' = position b
       ∧ (∀ j, j ≠ i → _configAdBreaks s' !! j = _configAdBreaks s !! j)
       ∧ (∀ a, findIndex (λ c, negb (_isBumper c)) (_adsPluginControllers s)
               = Some a →
            out s' = out s ++ [ctrl_playAdNow a (ads b)]
            ∧ _configAdBreaks s' !! i = Some (mark_played b)))
  ∧ (let s0 := constructor (sample_player 0 [5; 15]) [ima] in
     let s1 := step s0 (Notify TIME_UPDATE (sample_player 20 [5; 15])) in
     played <$> _configAdBreaks s0 = [false; false]
     ∧ played <$> _configAdBreaks s1 = [false; true]
     ∧ _snapback s1 = 15
     ∧ out s1 = out s0 ++ [ctrl_playAdNow 0 [7%nat]]).
Proof.
  intros Hp s s'. destruct (reachable p0 cs steps) as [Hinv Hsh]. fold s in Hinv, Hsh.
  assert (s' = onTimeUpdate p s) as -> by (unfold s'; by rewrite notify_eq).
  destruct (onTimeUpdate_spec p s Hinv Hp) as [Hnone Hsome].
  split_and!; [done|done|by vm_compute].
Qed.

Lemma time_update_dispatches_latest_due_witness :
  paused (sample_player 20 [5; 15]) = false
  ∧ ∃ i b,
      _configAdBreaks (run [] (constructor (sample_player 0 [5; 15]) [ima])) !! i
      = Some b
      ∧ step (run [] (constructor (sample_player 0 [5; 15]) [ima]))
             (Notify TIME_UPDATE (sample_player 20 [5; 15]))
        = _playAdBreak (configured i)
            (set_snapback (position b)
               (run [] (constructor (sample_player 0 [5; 15]) [ima]))).
Proof.
  split; [reflexivity|].
  destruct (time_update_dispatches_latest_due (sample_player 0 [5; 15])
              [ima] [] (sample_player 20 [5; 15]) eq_refl)
    as (_ & Hsome & _).
  destruct Hsome as (i & b' & Hi & _ & _ & Heq & _).
  - exists (mkRunTimeAdBreak 15 [7%nat] false). split.
    + apply list_elem_of_In. vm_compute. tauto.
    + split; [reflexivity|]. exists 20. vm_compute. by split_and!.
  - exists i, b'. by split.
Defined.

(** C3.  In every state the controller can reach, on a seek-completed
    notification, let B be the first played break after the new current
    time.  When B exists, is not the first break of the list and the break
    just before it is unplayed, the snapback is set to 0; in every other
    case the state is unchanged.  After the breaks at 5 and 15 were skipped
    in one jump to 20 (the one at 15 being dispatched), a seek to 3 brings
    the snapback from 15 back to 0. *)
Theorem seeked_resets_snapback
    (p0 : Player) (cs : list IAdsPluginController) (steps : list Step)
    (p : Player) :
  let s := run steps (constructor p0 cs) in
  let s' := step s (Notify SEEKED p) in
  (∀ i prev, next_played p s (S i) →
     _configAdBreaks s !! i = Some prev → played prev = false →
     s' = set_snapback 0 s)
  ∧ ((¬ ∃ i prev, next_played p s (S i)
                  ∧ _configAdBreaks s !! i = Some prev ∧ played prev = false) →
     s' = s)
  ∧ (let s1 := run [Notify TIME_UPDATE (sample_player 20 [5; 15])]
                   (constructor (sample_player 0 [5; 15]) [ima]) in
     played <$> _configAdBreaks s1 = [false; true]
     ∧ _snapback s1 = 15
     ∧ _snapback (step s1 (Notify SEEKED (sample_player 3 [5; 15]))) = 0).
Proof.
  intros s s'. destruct (reachable p0 cs steps) as [Hinv Hsh]. fold s in Hinv, Hsh.
  assert (s' = onSeeked p s) as -> by (unfold s'; by rewrite notify_eq).
  split_and!.
  - intros i prev Hnext%next_played_findIndex Hprev Hpl.
    unfold onSeeked. by rewrite Hnext, Hprev, Hpl.
  - intros Hno. unfold onSeeked.
    destruct (findIndex _ _) as [[|i]|] eqn:Hfi; [done| |done].
    apply next_played_findIndex in Hfi.
    destruct (_configAdBreaks s !! i) as [prev|] eqn:Hprev; [|done].
    destruct (played prev) eqn:Hpl; [done|].
    destruct Hno. eauto.
  - by vm_compute.
Qed.


(** ** Completion *)

Lemma _onEnded_allAdsCompleted s :
  _allAdsCompleted (_onEnded s)
  = _allAdsCompleted s
    || negb (_adIsLoading s) && negb (includes (-1) (_adBreaksLayout s)).
Proof.
  unfold _onEnded. destruct (_adIsLoading s); simpl; [by rewrite orb_false_r|].
  destruct (includes _ _); simpl; [|by rewrite orb_true_r].
  rewrite orb_false_r. destruct (findIndex _isBumper _); [done|].
  apply (run_finally_allAdsCompleted (bumperComplete _)).
Qed.

Lemma call0_allAdsCompleted h e p s :
  _allAdsCompleted (call0 h e p s)
  = match h, e with
    | h_onAdManifestLoaded, AD_MANIFEST_LOADED _ => false
    | h_onAdsCompleted, _ =>
        _allAdsCompleted s
        || forallb done (_adsPluginControllers s)
           && forallb played (_configAdBreaks s)
    | h_onAdError, AD_ERROR severity =>
        _allAdsCompleted s
        || bool_decide (severity = CRITICAL)
           && forallb done (_adsPluginControllers s)
           && forallb played (_configAdBreaks s)
    | h_onEnded, _ =>
        _allAdsCompleted s
        || negb (_adIsLoading s) && negb (includes (-1) (_adBreaksLayout s))
    | _, _ => _allAdsCompleted s
    end.
Proof.
  destruct h, e; simpl; try done; try apply _onEnded_allAdsCompleted.
  all: try (unfold _onAdsCompleted; destruct (_ && _); simpl;
            by rewrite ?orb_true_r, ?orb_false_r).
  all: try (unfold _onAdError; simpl; destruct (_ && _); simpl;
            [destruct (_adPlayed s)|]; simpl;
            by rewrite ?orb_true_r, ?orb_false_r).
  all: try (unfold onSeeked; by repeat case_match).
  all: unfold onTimeUpdate; repeat case_match; try done;
       by rewrite _playAdBreak_allAdsCompleted.
Qed.

(** C1, as the code has it.  [allAdsCompleted] is true after the
    constructor, and after a reset, exactly when no ad break is
    configured.  From any state the controller can reach, a step changes
    it as follows: a manifest-loaded notification makes it false; an
    ads-completed notification makes it true when every plugin controller
    reports done and every configured break is played; an ad error does
    the same when it is critical; the media-ended notification, while its
    one-shot subscription stands, makes it true when no ad is loading and
    the layout has no position -1; every other step leaves it as it is. *)
Theorem allAdsCompleted_transitions
    (p0 : Player) (cs : list IAdsPluginController) (steps : list Step) :
  let s := run steps (constructor p0 cs) in
  allAdsCompleted (constructor p0 cs) = bool_decide (configured_breaks p0 = [])
  ∧ ∀ st,
      allAdsCompleted (step s st)
      = match st with
        | Notify (AD_MANIFEST_LOADED _) _ => false
        | Notify ADS_COMPLETED _ =>
            allAdsCompleted s
            || forallb done (_adsPluginControllers s)
               && forallb played (_configAdBreaks s)
        | Notify (AD_ERROR severity) _ =>
            allAdsCompleted s
            || bool_decide (severity = CRITICAL)
               && forallb done (_adsPluginControllers s)
               && forallb played (_configAdBreaks s)
        | Notify ENDED _ =>
            allAdsCompleted s
            || bool_decide
                 (EventManager.held Html5EventType.ENDED (_eventManager s) ≠ [])
               && negb (_adIsLoading s)
               && negb (includes (-1) (_adBreaksLayout s))
        | Notify PLAYER_RESET p => bool_decide (configured_breaks p = [])
        | _ => allAdsCompleted s
        end.
Proof.
  intros s. destruct (reachable p0 cs steps) as [Hinv Hsh]. fold s in Hinv, Hsh.
  unfold allAdsCompleted. split.
  { unfold constructor. apply _init_fields; simpl.
    - apply wf_new.
    - intros ty b bd (m & [= <-] & Hin). by apply elem_of_nil in Hin.
    - done. }
  intros [e p|n|i a d| |adPod p].
  - rewrite notify_eq by done. destruct e; try by rewrite call0_allAdsCompleted.
    + unfold _reset. apply _init_fields; simpl.
      * apply wf_removeAll, inv_registry, Hinv.
      * apply subscribed_removeAll, inv_registry, Hinv.
      * intros k. apply held_removeAll,
          (EventManager.wf_map _ (inv_registry _ Hinv)).
    + destruct (EventManager.held _ _) eqn:Hheld.
      * by rewrite orb_false_r.
      * by rewrite _onEnded_allAdsCompleted.
  - simpl. unfold settle. destruct (promises s !! n) as [[k|]|]; [|done..].
    by rewrite run_finally_allAdsCompleted.
  - simpl. unfold plugin_update. by destruct (_ !! i).
  - simpl. unfold skipAd. by destruct (findIndex _ _).
  - simpl. unfold playAdNow. destruct (isAdBreak s); [done|].
    by rewrite _playAdBreak_allAdsCompleted.
Qed.

(** C1, as the specification states it, fails.  A controller built with
    no configured break and one plugin that is not done has
    [allAdsCompleted] true; and with an unplayed break at 10 and that
    plugin, the media-ended notification makes it true. *)
Lemma allAdsCompleted_true_while_not_done :
  (let s := constructor (sample_player 0 []) [ima] in
   ¬ (allAdsCompleted s = true
      ↔ forallb done (_adsPluginControllers s) = true
        ∧ forallb played (_configAdBreaks s) = true))
  ∧ (let s := step (constructor (sample_player 0 [10]) [ima])
                   (Notify ENDED (sample_player 30 [10])) in
     allAdsCompleted s = true
     ∧ forallb done (_adsPluginControllers s) = false
     ∧ forallb played (_configAdBreaks s) = false).
Proof.
  split.
  - intros s [H _]. assert (allAdsCompleted s = true) as Ht by by vm_compute.
    destruct (H Ht) as [Hd _]. by vm_compute in Hd.
  - by vm_compute.
Qed.


(** ** The promises *)

Lemma call0_promises h e p s :
  h ≠ h_onEnded → promises (call0 h e p s) = promises s.
Proof.
  intros Hh. destruct h, e; simpl; try done.
  all: try (unfold _onAdsCompleted; by destruct (_ && _)).
  all: try (unfold _onAdError; by repeat case_match).
  all: try (unfold onSeeked; by repeat case_match).
  all: unfold onTimeUpdate; repeat case_match; try done;
       by rewrite _playAdBreak_promises.
Qed.

(** ** The postroll sequence *)

Lemma settle_registered c k s :
  settle (length (promises s)) (onPlaybackEnded_finally c k s)
  = run_finally k
      (set_promises (promises s ++ [None])
         (emit (ctrl_onPlaybackEnded c (length (promises s))) s)).
Proof.
  unfold settle, onPlaybackEnded_finally. simpl.
  rewrite list_lookup_middle by done. f_equal.
  unfold set_promises, emit, set_out. simpl. f_equal.
  rewrite insert_app_r_alt by done. by rewrite Nat.sub_diag.
Qed.

Lemma settle_registered_at (n : nat) c k s :
  n = length (promises s) →
  settle n (onPlaybackEnded_finally c k s)
  = run_finally k
      (set_promises (promises s ++ [None])
         (emit (ctrl_onPlaybackEnded c (length (promises s))) s)).
Proof. intros ->. apply settle_registered. Qed.

Lemma settle_unknown (n : nat) s :
  (length (promises s) ≤ n)%nat → settle n s = s.
Proof.
  intros Hn. unfold settle. by rewrite (proj2 (lookup_ge_None _ _) Hn).
Qed.

Lemma _handleConfiguredPostroll_dispatched a s s0 :
  findIndex (λ c, negb (_isBumper c)) (_adsPluginControllers s) = Some a →
  out s = out s0 → _configAdBreaks s = _configAdBreaks s0 →
  postroll_dispatched a s0 (_handleConfiguredPostroll s).
Proof.
  intros Ha Hout Hbr. unfold postroll_dispatched, _handleConfiguredPostroll.
  rewrite Hbr. destruct (findIndex _ (_configAdBreaks s0)) as [i|] eqn:Hi;
    [|done].
  apply findIndex_Some in Hi as [(b & Hb & _) _]. exists b.
  unfold _playAdBreak. simpl. rewrite Ha, list_lookup_fmap, Hb. simpl.
  split_and!; [done|by rewrite Hout| |done].
  apply list_insert_id. by rewrite list_lookup_fmap, Hb.
Qed.

(** C5, as the code has it.  With no ad loading and position -1 in the
    layout, [_onEnded] asks the bumper plugin to finish and nothing else;
    when that promise settles, and not before, the primary plugin is asked
    to finish and nothing else; when that second promise settles, the
    postroll stage runs: with an unplayed break at -1, every configured
    break is marked played and that break is played.  Without a bumper
    plugin the primary one is asked at once.  Without a primary plugin
    nothing follows the bumper's finish: no break is played or marked. *)
Theorem postroll_stages (s : AdsController) :
  _adIsLoading s = false → includes (-1) (_adBreaksLayout s) = true →
  let n := length (promises s) in
  let controllers := _adsPluginControllers s in
  let adCtrl := findIndex (λ c, negb (_isBumper c)) controllers in
  let s1 := _onEnded s in
  (∀ b a, findIndex _isBumper controllers = Some b → adCtrl = Some a →
     let s2 := settle n s1 in
     let s3 := settle (S n) s2 in
     out s1 = out s ++ [ctrl_onPlaybackEnded b n]
     ∧ _configAdBreaks s1 = _configAdBreaks s
     ∧ settle (S n) s1 = s1
     ∧ out s2 = out s1 ++ [ctrl_onPlaybackEnded a (S n)]
     ∧ _configAdBreaks s2 = _configAdBreaks s
     ∧ postroll_dispatched a s2 s3)
  ∧ (∀ a, findIndex _isBumper controllers = None → adCtrl = Some a →
     out s1 = out s ++ [ctrl_onPlaybackEnded a n]
     ∧ _configAdBreaks s1 = _configAdBreaks s
     ∧ postroll_dispatched a s1 (settle n s1))
  ∧ (∀ b, findIndex _isBumper controllers = Some b → adCtrl = None →
     let s2 := settle n s1 in
     out s1 = out s ++ [ctrl_onPlaybackEnded b n]
     ∧ out s2 = out s1
     ∧ _configAdBreaks s2 = _configAdBreaks s
     ∧ promises s2 = promises s ++ [None])
  ∧ (findIndex _isBumper controllers = None → adCtrl = None → s1 = s).
Proof.
  intros Hload Hlayout n controllers adCtrl s1. subst n.
  assert (s1 = match findIndex _isBumper controllers with
               | Some b => onPlaybackEnded_finally b (bumperComplete adCtrl) s
               | None => run_finally (bumperComplete adCtrl) s
               end) as Hs1.
  { unfold s1, _onEnded. by rewrite Hload, Hlayout. }
  clearbody s1. subst s1. split_and!.
  - intros b a Hb Ha. rewrite Hb. intros s2 s3.
    assert (s2 = onPlaybackEnded_finally a adComplete
                   (set_promises (promises s ++ [None])
                      (emit (ctrl_onPlaybackEnded b (length (promises s))) s)))
      as Hs2.
    { unfold s2. rewrite settle_registered. simpl. by rewrite Ha. }
    clearbody s2. subst s2.
    assert (length (promises s ++ [None]) = S (length (promises s))) as Hlen
      by (rewrite length_app; simpl; lia).
    split_and!; try done.
    + apply settle_unknown. simpl. rewrite length_app. simpl. lia.
    + simpl. by rewrite Hlen.
    + unfold s3. rewrite settle_registered_at by (simpl; by rewrite Hlen).
      simpl. by apply _handleConfiguredPostroll_dispatched.
  - intros a Hb Ha. rewrite Hb. simpl. fold adCtrl. rewrite Ha.
    split_and!; [done..|].
    rewrite settle_registered. simpl.
    by apply _handleConfiguredPostroll_dispatched.
  - intros b Hb Ha. rewrite Hb. intros s2.
    assert (s2 = set_promises (promises s ++ [None])
                   (emit (ctrl_onPlaybackEnded b (length (promises s))) s))
      as Hs2.
    { unfold s2. rewrite settle_registered. simpl. by rewrite Ha. }
    by rewrite Hs2.
  - intros Hb Ha. rewrite Hb. simpl. fold adCtrl. by rewrite Ha.
Qed.

Lemma postroll_stages_witness :
  _adIsLoading (constructor (sample_player 0 [10; -1]) [bumper; ima]) = false
  ∧ includes (-1)
      (_adBreaksLayout (constructor (sample_player 0 [10; -1]) [bumper; ima]))
    = true
  ∧ postroll_dispatched 1
      (settle 0 (_onEnded (constructor (sample_player 0 [10; -1]) [bumper; ima])))
      (settle 1
         (settle 0
            (_onEnded (constructor (sample_player 0 [10; -1]) [bumper; ima])))).
Proof.
  split; [reflexivity|]. split; [reflexivity|].
  destruct (postroll_stages (constructor (sample_player 0 [10; -1]) [bumper; ima])
              eq_refl eq_refl) as (Hboth & _).
  destruct (Hboth 0%nat 1%nat eq_refl eq_refl) as (_ & _ & _ & _ & _ & Hpost).
  exact Hpost.
Defined.

(** C5, as the specification states it, fails.  With a bumper plugin
    alone, the bumper is asked to finish on the media-ended notification
    and its promise settles; no primary plugin is there to wait for, and
    yet the postroll break is neither played nor marked played: nothing
    is dispatched and no warning is given. *)
Lemma postroll_skipped_without_primary :
  let s0 := constructor (sample_player 0 [-1]) [bumper] in
  let s1 := step s0 (Notify ENDED (sample_player 30 [-1])) in
  let s2 := step s1 (Settle 0) in
  findIndex (λ c, negb (_isBumper c)) (_adsPluginControllers s0) = None
  ∧ out s1 = out s0 ++ [ctrl_onPlaybackEnded 0 0]
  ∧ promises s1 = [Some (bumperComplete None)]
  ∧ promises s2 = [None]
  ∧ out s2 = out s1
  ∧ played <$> _configAdBreaks s2 = [false].
Proof. by vm_compute. Qed.

End AdsControllerFacts.

(** * Further properties of the binding registry *)

Module EventManagerExtras.
Import EventManager MultiMapFacts EventManagerFacts.
Section extras.
Context {Target Listener : Type} `{EqDecision Target}.
Implicit Types (s : EventManager Target Listener) (b x : ref)
  (bd : Binding_ Target Listener) (t : Target) (ty k : string).

Lemma destroy_map s : _bindingMap (destroy s) = None.
Proof. done. Qed.

Lemma unlisten_dead t ty s : _bindingMap s = None → unlisten t ty s = s.
Proof. intros Hm. unfold unlisten. by rewrite Hm. Qed.

Lemma removeAll_dead s : _bindingMap s = None → removeAll s = s.
Proof. intros Hm. unfold removeAll. by rewrite Hm. Qed.

Lemma listen_dead t ty l s :
  _bindingMap s = None →
  listen t ty l s
  = {| store := store s ++ [mkBinding (Some t) ty (Some l)];
       _bindingMap := None;
       calls := calls s ++ [(length (store s), addEventListener t ty l)] |}.
Proof. intros Hm. unfold listen. simpl. by rewrite Hm. Qed.

Lemma destroy_dead s : _bindingMap s = None → destroy s = s.
Proof.
  intros Hm. unfold destroy. rewrite removeAll_dead by done.
  destruct s; simpl in *; by subst.
Qed.

Lemma calls_of_set_bindingMap b m s :
  calls_of b (set_bindingMap m s) = calls_of b s.
Proof. done. Qed.

(** X1.  [destroy()] on a registry in use: the map is given up, every binding
    ever made is detached and has issued exactly its [addEventListener]
    and one matching [removeEventListener], and from then on [unlisten],
    [removeAll] and [destroy] do nothing at all. *)
Theorem destroy_detaches_and_disables (ops : list (Op Target Listener)) :
  let s := destroy (run ops new) in
  _bindingMap s = None
  ∧ (∀ b bd, store s !! b = Some bd →
       target bd = None ∧ listener bd = None
       ∧ ∃ t l, calls_of b s
                = [addEventListener t (type bd) l;
                   removeEventListener t (type bd) (Some l)])
  ∧ (∀ t ty, unlisten t ty s = s)
  ∧ removeAll s = s
  ∧ destroy s = s.
Proof.
  set (s0 := run ops new).
  assert (wf (removeAll s0)) as Hwf by apply wf_removeAll, wf_run, wf_new.
  cbv zeta. split_and!.
  - done.
  - intros b bd Hl. unfold destroy in *. simpl in Hl.
    rewrite calls_of_set_bindingMap.
    assert (target bd = None) as Ht.
    { destruct (target bd) as [t|] eqn:Ht; [|done].
      destruct (wf_held _ Hwf b bd Hl) as (m' & Hm' & Hin); [by eexists|].
      destruct (stored_under_removeAll s0 (type bd) b).
      - apply wf_map, wf_run, wf_new.
      - by exists m'. }
    pose proof (wf_binding _ Hwf b bd Hl) as Hok.
    unfold binding_ok in Hok. rewrite Ht in Hok.
    by destruct (listener bd).
  - intros t ty. by apply unlisten_dead.
  - by apply removeAll_dead.
  - by apply destroy_dead.
Qed.

Lemma apply_op_dead s (o : Op Target Listener) :
  _bindingMap s = None →
  _bindingMap (apply_op s o) = None
  ∧ (∀ b bd, store s !! b = Some bd → store (apply_op s o) !! b = Some bd)
  ∧ (∀ b, b < length (store s) → calls_of b (apply_op s o) = calls_of b s).
Proof.
  intros Hm. destruct o as [t ty l|t ty|]; simpl.
  - rewrite (listen_dead _ _ _ _ Hm). simpl. split_and!; [done|..].
    + intros b bd Hl. by apply lookup_app_l_Some.
    + intros b Hb. unfold calls_of at 1. simpl. rewrite calls_of_app.
      rewrite filter_cons_False by (simpl; lia). simpl. by rewrite app_nil_r.
  - by rewrite (unlisten_dead _ _ _ Hm).
  - by rewrite (removeAll_dead _ Hm).
Qed.

Lemma run_dead (ops : list (Op Target Listener)) s :
  _bindingMap s = None →
  _bindingMap (run ops s) = None
  ∧ (∀ b bd, store s !! b = Some bd → store (run ops s) !! b = Some bd)
  ∧ (∀ b, b < length (store s) → calls_of b (run ops s) = calls_of b s).
Proof.
  revert s. induction ops as [|o ops IH]; intros s Hm; [done|].
  destruct (apply_op_dead s o Hm) as (Hm1 & Hs1 & Hc1).
  destruct (IH _ Hm1) as (Hm2 & Hs2 & Hc2). simpl.
  split_and!; [done|by auto|].
  intros b Hb. rewrite Hc2, Hc1; [done..|].
  apply lookup_lt_is_Some_2 in Hb as [bd Hbd].
  apply lookup_lt_is_Some_1. eexists. by apply Hs1.
Qed.

(** X2.  A listener registered after [destroy()] is attached to its target but
    recorded nowhere: whatever is called on the registry afterwards, a
    further [destroy()] included, its binding stays attached and no
    [removeEventListener] is ever issued for it. *)
Theorem listen_after_destroy_is_never_detached
    (ops later : list (Op Target Listener)) t ty l :
  let s := destroy (run ops new) in
  let b := length (store s) in
  let s' := destroy (run later (listen t ty l s)) in
  store s' !! b = Some (mkBinding (Some t) ty (Some l))
  ∧ calls_of b s' = [addEventListener t ty l]
  ∧ (∀ k, held k s' = [])
  ∧ run later (listen t ty l s) = s'.
Proof.
  set (s0 := run ops new). cbv zeta.
  set (s := destroy s0). set (s1 := listen t ty l s).
  assert (_bindingMap s = None) as Hm by done.
  assert (wf (removeAll s0)) as Hwf by apply wf_removeAll, wf_run, wf_new.
  assert (s1 = {| store := store s ++ [mkBinding (Some t) ty (Some l)];
                  _bindingMap := None;
                  calls := calls s ++ [(length (store s), addEventListener t ty l)] |})
    as Hs1 by by apply listen_dead.
  assert (_bindingMap s1 = None) as Hm1 by by rewrite Hs1.
  destruct (run_dead later s1 Hm1) as (Hm2 & Hst & Hc).
  rewrite (destroy_dead _ Hm2). split_and!; [| |by intros k; unfold held; rewrite Hm2|done].
  - apply Hst. rewrite Hs1. simpl. by apply list_lookup_middle.
  - rewrite Hc by (rewrite Hs1; simpl; rewrite length_app; simpl; lia).
    rewrite Hs1. unfold calls_of at 1. simpl. rewrite calls_of_app.
    rewrite filter_cons_True by done. simpl.
    change (calls_of (length (store s)) s) with
      (calls_of (length (store (removeAll s0))) (removeAll s0)).
    rewrite (wf_fresh _ Hwf); [done|].
    by apply lookup_ge_None_2.
Qed.

(** X3.  [Binding_.unlisten()] "does nothing if the event listener is already
    detached": a second call changes neither the binding nor the calls
    made. *)
Theorem Binding_unlisten_idempotent b s :
  Binding_unlisten b (Binding_unlisten b s) = Binding_unlisten b s.
Proof.
  set (s1 := Binding_unlisten b s).
  rewrite (Binding_unlisten_eq b s1).
  assert (store s1 !! b = detached <$> store s !! b) as Hb.
  { unfold s1. rewrite Binding_unlisten_store. by rewrite decide_True. }
  rewrite Hb, detach_call_detached, app_nil_r.
  assert (alter detached b (store s1) = store s1) as ->; [|by destruct s1].
  apply list_eq. intros i. destruct (decide (i = b)) as [->|Hne].
  - rewrite list_lookup_alter_eq, Hb. destruct (store s !! b); [|done].
    simpl. by rewrite detached_idemp.
  - by rewrite list_lookup_alter_ne.
Qed.

Lemma filter_ext_in {A} (P Q : A → Prop) `{∀ a, Decision (P a)}
    `{∀ a, Decision (Q a)} (l : list A) :
  (∀ a, a ∈ l → P a ↔ Q a) → filter P l = filter Q l.
Proof.
  induction l as [|a l IH]; intros Hl; [done|].
  rewrite !filter_cons. rewrite IH by (intros; apply Hl; by right).
  destruct (decide (P a)) as [Hp|Hp], (decide (Q a)) as [Hq|Hq]; try done.
  - destruct Hq. by apply Hl; [left|].
  - destruct Hp. by apply Hl; [left|].
Qed.

Lemma filter_all {A} (P : A → Prop) `{∀ a, Decision (P a)} (l : list A) :
  (∀ a, a ∈ l → P a) → filter P l = l.
Proof.
  induction l as [|a l IH]; intros Hl; [done|].
  rewrite filter_cons_True by (apply Hl; by left).
  rewrite IH; [done|]. intros; apply Hl; by right.
Qed.

Lemma refs_listen t ty l s :
  refs (listen t ty l s) = refs s ++ [length (store s)].
Proof.
  unfold refs. rewrite store_listen, length_app. simpl.
  by rewrite seq_app.
Qed.

Lemma elem_of_refs b s : b ∈ refs s ↔ b < length (store s).
Proof. unfold refs. rewrite elem_of_seq. lia. Qed.

Lemma attached_as_true ty s b :
  attached_as ty s b
  ↔ ∃ bd, store s !! b = Some bd ∧ is_Some (target bd) ∧ type bd = ty.
Proof.
  unfold attached_as. destruct (store s !! b) as [bd|].
  - rewrite andb_True, !bool_decide_spec. split.
    + intros [? ?]. by exists bd.
    + by intros (? & [= <-] & ? & ?).
  - split; [done|]. by intros (? & ? & _).
Qed.

Lemma in_order_new : in_order (new (Target:=Target) (Listener:=Listener)).
Proof. by intros ty. Qed.

Lemma in_order_listen t ty l s :
  wf s → in_order s → in_order (listen t ty l s).
Proof.
  intros Hwf Hord k. rewrite held_listen by apply Hwf.
  rewrite refs_listen, filter_app, (Hord k).
  assert (filter (λ b, attached_as k (listen t ty l s) b) (refs s)
          = filter (λ b, attached_as k s b) (refs s)) as ->.
  { apply filter_ext_in. intros b Hb%elem_of_refs.
    unfold attached_as. rewrite store_listen.
    by rewrite lookup_app_l. }
  assert (attached_as k (listen t ty l s) (length (store s))
          = bool_decide (ty = k)) as Hnew.
  { unfold attached_as. rewrite store_listen.
    by rewrite list_lookup_middle by done. }
  rewrite filter_cons, filter_nil.
  destruct (decide (ty = k)) as [Hk|Hk].
  - rewrite decide_True; [done|]. rewrite Hnew. by apply bool_decide_spec.
  - rewrite decide_False; [by rewrite app_nil_r|].
    rewrite Hnew. by intros ?%bool_decide_spec.
Qed.

Lemma in_order_unlisten t ty s :
  wf s → in_order s → in_order (unlisten t ty s).
Proof.
  intros Hwf Hord k. destruct (wf_map _ Hwf) as [m Hm].
  assert (held k (unlisten t ty s)
          = if decide (ty = k)
            then filter (λ x, hit t (held ty s) s x = false) (held k s)
            else held k s) as ->.
  { unfold held at 1. rewrite (unlisten_eq _ _ _ _ Hm), unlisten_loop_map, Hm.
    simpl. rewrite get_alter_filter. unfold held. by rewrite Hm. }
  assert (refs (unlisten t ty s) = refs s) as ->.
  { unfold refs. by rewrite length_store_unlisten. }
  assert (∀ b, attached_as k (unlisten t ty s) b
               ↔ hit t (held ty s) s b = false ∧ attached_as k s b) as Hatt.
  { intros b. unfold attached_as at 1.
    rewrite (unlisten_eq _ _ _ _ Hm), unlisten_loop_store.
    unfold held. rewrite Hm.
    destruct (hit t (MultiMap.get ty m) s b) eqn:Hhit.
    - destruct (store s !! b) as [bd|]; simpl; [|by intuition].
      rewrite detached_target. split; [|by intros [? _]].
      rewrite andb_True, bool_decide_spec. by intros [[? ?] _].
    - unfold attached_as. tauto. }
  rewrite (list_filter_iff _ _ _ Hatt), <-list_filter_filter, <-(Hord k).
  case_decide as Hk; [done|].
  symmetry. apply filter_all. intros b Hb.
  destruct (hit t (held ty s) s b) eqn:Hhit; [|done].
  apply hit_true in Hhit as [Hin _].
  apply stored_under_held, (wf_attached _ Hwf) in Hin as (bd & Hl & _ & Hty).
  apply stored_under_held, (wf_attached _ Hwf) in Hb as (bd' & Hl' & _ & Hty').
  congruence.
Qed.

Lemma in_order_removeAll s : wf s → in_order s → in_order (removeAll s).
Proof.
  intros Hwf Hord k. rewrite held_removeAll by apply Hwf.
  symmetry. apply filter_none. intros b _ Hb.
  apply attached_as_true in Hb as (bd & Hl & Hlive & Hty).
  destruct (wf_held _ (wf_removeAll _ Hwf) b bd Hl Hlive) as (m & Hm & Hin).
  destruct (stored_under_removeAll s (type bd) b); [apply Hwf|by exists m].
Qed.

Lemma in_order_run (ops : list (Op Target Listener)) s :
  wf s → in_order s → in_order (run ops s).
Proof.
  revert s. induction ops as [|o ops IH]; intros s Hwf Hord; [done|].
  simpl. destruct o as [t ty l|t ty|]; simpl; apply IH.
  - by apply wf_listen.
  - by apply in_order_listen.
  - by apply wf_unlisten.
  - by apply in_order_unlisten.
  - by apply wf_removeAll.
  - by apply in_order_removeAll.
Qed.

(** X4.  After any sequence of [listen], [unlisten] and [removeAll] calls on a
    new registry, the sequence the map holds for an event type lists the
    bindings of that type that are still attached, each once, in the order
    in which they were made. *)
Theorem held_lists_attached_in_creation_order
    (ops : list (Op Target Listener)) ty :
  let s := run ops new in
  held ty s = filter (λ b, attached_as ty s b) (seq 0 (length (store s)))
  ∧ NoDup (held ty s).
Proof.
  cbv zeta.
  assert (in_order (run ops new)) as Hord
    by (apply in_order_run; [apply wf_new|apply in_order_new]).
  split; [apply Hord|].
  rewrite (Hord ty). apply NoDup_filter, NoDup_seq.
Qed.

Lemma detach_calls_ext t (l : list ref) s s' :
  (∀ b, b ∈ l → target_is t b s' = target_is t b s
                ∧ store s' !! b = store s !! b) →
  detach_calls t l s' = detach_calls t l s.
Proof.
  induction l as [|a l IH]; intros Hl; [done|].
  unfold detach_calls in *. simpl.
  destruct (Hl a) as [-> ->]; [by left|].
  rewrite IH; [done|]. intros; apply Hl; by right.
Qed.

Lemma unlisten_loop_calls t ty (l : list ref) s :
  NoDup l →
  calls (foldl (unlisten_step t ty) s l) = calls s ++ detach_calls t l s.
Proof.
  revert s. induction l as [|a l IH]; intros s Hnd.
  { simpl. by rewrite app_nil_r. }
  apply NoDup_cons in Hnd as [Hnotin Hnd].
  simpl. rewrite IH, unlisten_step_eq by done.
  unfold detach_calls at 2. simpl. fold (detach_calls t l s).
  destruct (target_is t a s) eqn:Ha; [|done].
  rewrite (detach_calls_ext t l s).
  - rewrite Binding_unlisten_eq. simpl. by rewrite app_assoc.
  - intros b Hb. assert (b ≠ a) as Hne by (by intros ->).
    split.
    + change (target_is t b (Binding_unlisten a s) = target_is t b s).
      rewrite target_is_detach. by rewrite decide_False.
    + change (store (Binding_unlisten a s) !! b = store s !! b).
      rewrite Binding_unlisten_store. by rewrite decide_False.
Qed.

Lemma detach_calls_fmap t ty (l : list ref) s :
  (∀ b, b ∈ l → attached_as ty s b) →
  detach_calls t l s
  = (λ b, (b, removeEventListener t ty (store s !! b ≫= listener)))
    <$> filter (λ b, target_is t b s) l.
Proof.
  induction l as [|a l IH]; intros Hl; [done|].
  unfold detach_calls in *. simpl. rewrite filter_cons.
  rewrite IH by (intros; apply Hl; by right).
  destruct (target_is t a s) eqn:Ha.
  - rewrite decide_True by done. simpl. f_equal.
    apply target_is_true in Ha as (bd & Hbd & Ht).
    assert (attached_as ty s a) as (bd' & Hbd' & _ & Hty)%attached_as_true
      by (apply Hl; by left).
    rewrite Hbd in *. injection Hbd' as <-. simpl. by rewrite Ht, Hty.
  - by rewrite decide_False by (by intros []).
Qed.

(** X5.  On a registry in use, [unlisten(target, type)] calls
    [removeEventListener] once for every attached binding of that type
    with that target, in the order in which these bindings were made, with
    the type and the listener of the binding; it makes no other call. *)
Theorem unlisten_detaches_in_creation_order
    (ops : list (Op Target Listener)) t ty :
  let s := run ops new in
  calls (unlisten t ty s)
  = calls s
    ++ ((λ b, (b, removeEventListener t ty (store s !! b ≫= listener)))
        <$> filter (λ b, attached_as ty s b && target_is t b s)
                   (seq 0 (length (store s)))).
Proof.
  cbv zeta. set (s := run ops new).
  assert (wf s) as Hwf by apply wf_run, wf_new.
  assert (in_order s) as Hord
    by (apply in_order_run; [apply wf_new|apply in_order_new]).
  destruct (wf_map _ Hwf) as [m Hm].
  rewrite (unlisten_eq _ _ _ _ Hm).
  assert (MultiMap.get ty m = held ty s) as -> by (unfold held; by rewrite Hm).
  rewrite unlisten_loop_calls.
  2:{ rewrite (Hord ty). apply NoDup_filter, NoDup_seq. }
  f_equal. rewrite (detach_calls_fmap t ty).
  2:{ intros b. rewrite (Hord ty). by intros [? _]%list_elem_of_filter. }
  f_equal. rewrite (Hord ty), list_filter_filter.
  apply list_filter_iff. intros b. rewrite andb_True. tauto.
Qed.

Lemma hit_listen t t' ty l (r : list ref) s b :
  b < length (store s) →
  hit t' (r ++ [length (store s)]) (listen t ty l s) b = hit t' r s b.
Proof.
  intros Hb. unfold hit, target_is. rewrite store_listen.
  rewrite lookup_app_l by done. f_equal.
  apply bool_decide_ext. rewrite elem_of_app, list_elem_of_singleton.
  split; [intros [?| ->]; [done|lia]|by left].
Qed.

(** X6.  [unlisten] undoes a [listen] for the same target and type (together
    with whatever else was attached for them): the new binding is
    detached by one [removeEventListener] carrying its listener, every
    older binding ends as [unlisten] alone would have left it, and so does
    what the map holds. *)
Theorem unlisten_after_listen (ops : list (Op Target Listener)) t ty l :
  let s := run ops new in
  let n := length (store s) in
  let s' := unlisten t ty (listen t ty l s) in
  store s' !! n = Some (mkBinding None ty None)
  ∧ calls_of n s'
    = [addEventListener t ty l; removeEventListener t ty (Some l)]
  ∧ (∀ b, b < n →
       store s' !! b = store (unlisten t ty s) !! b
       ∧ calls_of b s' = calls_of b (unlisten t ty s))
  ∧ (∀ k, held k s' = held k (unlisten t ty s)).
Proof.
  cbv zeta. set (s := run ops new). set (n := length (store s)).
  set (s1 := listen t ty l s).
  assert (wf s) as Hwf by apply wf_run, wf_new.
  assert (wf s1) as Hwf1 by by apply wf_listen.
  destruct (wf_map _ Hwf) as [m Hm].
  destruct (wf_map _ Hwf1) as [m1 Hm1].
  assert (MultiMap.get ty m1 = MultiMap.get ty m ++ [n]) as Hget.
  { pose proof (held_listen t ty l s ty (wf_map _ Hwf)) as Hh.
    rewrite decide_True in Hh by done. unfold held in Hh.
    fold s1 in Hh. by rewrite Hm, Hm1 in Hh. }
  assert (store s1 !! n = Some (mkBinding (Some t) ty (Some l))) as Hn.
  { unfold s1. rewrite store_listen. by apply list_lookup_middle. }
  assert (calls_of n s1 = [addEventListener t ty l]) as Hcn.
  { unfold s1. rewrite (listen_eq _ _ _ _ _ Hm). unfold calls_of at 1. simpl.
    rewrite calls_of_app, filter_cons_True by done.
    rewrite (wf_fresh _ Hwf); [done|]. by apply lookup_ge_None_2. }
  assert (hit t (MultiMap.get ty m1) s1 n = true) as Hhit.
  { apply hit_true. split; [rewrite Hget; set_solver|]. by eexists. }
  assert (∀ b, b < n →
            store (unlisten t ty s1) !! b = store (unlisten t ty s) !! b
            ∧ calls_of b (unlisten t ty s1) = calls_of b (unlisten t ty s))
    as Hold.
  { intros b Hb.
    rewrite (unlisten_eq _ _ _ _ Hm1), (unlisten_eq _ _ _ _ Hm).
    rewrite !unlisten_loop_store, !unlisten_loop_calls_of, Hget.
    unfold s1, n. rewrite hit_listen by done.
    assert (store (listen t ty l s) !! b = store s !! b) as ->.
    { rewrite store_listen. by apply lookup_app_l. }
    assert (calls_of b (listen t ty l s) = calls_of b s) as ->; [|done].
    rewrite (listen_eq _ _ _ _ _ Hm). unfold calls_of at 1. simpl.
    rewrite calls_of_app, filter_cons_False by (simpl; lia).
    by rewrite app_nil_r. }
  assert (store (unlisten t ty s1) !! n = Some (mkBinding None ty None)) as Hn'.
  { rewrite (unlisten_eq _ _ _ _ Hm1), unlisten_loop_store, Hhit, Hn. done. }
  split_and!; [done| |done|].
  - rewrite (unlisten_eq _ _ _ _ Hm1), unlisten_loop_calls_of, Hhit, Hn, Hcn.
    done.
  - intros k.
    assert (in_order s) as Hord
      by (apply in_order_run; [apply wf_new|apply in_order_new]).
    rewrite (in_order_unlisten t ty s1), (in_order_unlisten t ty s);
      [|done|done|done|by apply in_order_listen].
    unfold refs. rewrite !length_store_unlisten. unfold s1.
    rewrite store_listen, length_app. simpl. rewrite seq_app. simpl.
    rewrite filter_app, filter_cons_False, filter_nil, app_nil_r.
    2:{ intros (bd & Hbd & [? Ht] & _)%attached_as_true.
        fold s1 n in Hbd. rewrite Hn' in Hbd. by injection Hbd as <-. }
    apply filter_ext_in. intros b Hb%elem_of_seq.
    unfold attached_as. fold s1. by destruct (Hold b) as [-> _]; [fold n; lia|].
Qed.

(** X7.  After any sequence of [listen], [unlisten] and [removeAll] calls on a
    new registry there is one binding for every call of [listen], and each
    is in one of two states: attached, having issued its
    [addEventListener] only, and held by the map under its type; or
    detached, having issued one matching [removeEventListener] after it,
    and held nowhere. *)
Theorem binding_attached_or_detached_once (ops : list (Op Target Listener)) :
  let s := run ops new in
  length (store s) = listens ops
  ∧ ∀ b bd, store s !! b = Some bd →
      (∃ t l, target bd = Some t ∧ listener bd = Some l
              ∧ calls_of b s = [addEventListener t (type bd) l]
              ∧ b ∈ held (type bd) s)
      ∨ (∃ t l, target bd = None ∧ listener bd = None
                ∧ calls_of b s = [addEventListener t (type bd) l;
                                  removeEventListener t (type bd) (Some l)]
                ∧ ∀ k, b ∉ held k s).
Proof.
  cbv zeta. set (s := run ops new).
  assert (wf s) as Hwf by apply wf_run, wf_new.
  split; [unfold s; by rewrite length_store_run|].
  intros b bd Hbd. pose proof (wf_binding _ Hwf b bd Hbd) as Hok.
  unfold binding_ok in Hok.
  destruct (target bd) as [t|] eqn:Ht, (listener bd) as [l|] eqn:Hl;
    try done.
  - left. exists t, l. split_and!; [done..|].
    apply stored_under_held, (wf_held _ Hwf); [done|by rewrite Ht].
  - right. destruct Hok as (t & l & Hc). exists t, l. split_and!; [done..|].
    intros k (bd' & Hbd' & [? Ht'] & _)%stored_under_held%(wf_attached _ Hwf).
    congruence.
Qed.

End extras.
End EventManagerExtras.

(** * Further properties of the ads controller *)

Module AdsControllerExtras.
Import AdsController EventManagerFacts AdsControllerFacts.
Local Open Scope Z_scope.
Local Arguments EventManager.listen : simpl never.
Implicit Types (s : AdsController) (p : Player) (st : Step) (e : Notification)
  (h : Handler) (r : AdBreakObject).

(** ** The configured breaks *)

Lemma insert_sorted_filter {A} (le : A → A → bool) (P : A → Prop)
    `{∀ a, Decision (P a)} x l :
  (∀ y, P x → P y → le x y = true) →
  filter P (insert_sorted le x l) = filter P (x :: l).
Proof.
  intros Hle. induction l as [|y l IH]; [done|].
  simpl. destruct (le x y) eqn:Hxy; [done|].
  rewrite filter_cons, IH, !filter_cons.
  destruct (decide (P y)) as [Hy|Hy], (decide (P x)) as [Hx|Hx]; try done.
  rewrite Hle in Hxy; done.
Qed.

Lemma sort_by_filter {A} (le : A → A → bool) (P : A → Prop)
    `{∀ a, Decision (P a)} l :
  (∀ x y, P x → P y → le x y = true) →
  filter P (sort_by le l) = filter P l.
Proof.
  intros Hle. induction l as [|x l IH]; [done|].
  unfold sort_by in *. simpl. rewrite insert_sorted_filter by auto.
  by rewrite !filter_cons, IH.
Qed.

Lemma omap_cons {A B} (f : A → option B) a (l : list A) :
  omap f (a :: l)
  = match f a with Some b => b :: omap f l | None => omap f l end.
Proof. done. Qed.

Lemma ingest_None T a :
  ingest T a = None → pk_position a = None ∨ pk_ads a = [].
Proof.
  unfold ingest. destruct (pk_position a); [|by left].
  case_bool_decide as Hads; [done|]. intros _. right.
  by destruct (decide (pk_ads a = [])).
Qed.

Lemma ingested_positions T (l : list PKAdBreakObject) :
  position <$> omap (ingest T) l
  = omap pk_position (filter (λ a, pk_ads a ≠ []) l).
Proof.
  induction l as [|a l IH]; [done|].
  rewrite omap_cons, filter_cons.
  destruct (ingest T a) as [b|] eqn:Hb.
  - apply ingest_Some in Hb as (Hpos & Hads & Hne & _).
    rewrite decide_True by congruence.
    rewrite omap_cons, Hpos, fmap_cons. by rewrite IH.
  - apply ingest_None in Hb as [Hpos|Hads].
    + destruct (decide (pk_ads a ≠ [])); [|done].
      by rewrite omap_cons, Hpos.
    + by rewrite decide_False by (by intros ?).
Qed.

Lemma ingested_ads T (l : list PKAdBreakObject) k :
  ads <$> filter (λ b, position b = k) (omap (ingest T) l)
  = pk_ads <$> filter (λ a, pk_position a = Some k ∧ pk_ads a ≠ []) l.
Proof.
  induction l as [|a l IH]; [done|].
  rewrite omap_cons, (filter_cons (λ a, pk_position a = Some k ∧ pk_ads a ≠ [])).
  destruct (ingest T a) as [b|] eqn:Hb.
  - apply ingest_Some in Hb as (Hpos & Hads & Hne & _).
    rewrite filter_cons. destruct (decide (position b = k)) as [Hk|Hk].
    + rewrite decide_True by (split; congruence).
      rewrite !fmap_cons. by rewrite IH, Hads.
    + rewrite decide_False; [done|]. intros [Hp _]. congruence.
  - apply ingest_None in Hb as [Hpos|Hads].
    + rewrite decide_False; [done|]. intros [Hp _]. congruence.
    + rewrite decide_False; [done|]. by intros [_ ?].
Qed.

(** X8.  Of the configured entries, each with its array of ads,
    [_handleConfiguredAdBreaks] keeps those that have a number for
    position and at least one ad: the positions of the breaks are the
    positions of these entries, and at every position the breaks carry
    the ads of these entries in the order in which they were configured,
    the sort being stable. *)
Theorem configured_breaks_keeps_entries_in_order (p : Player) :
  position <$> configured_breaks p
  ≡ₚ omap pk_position (filter (λ a, pk_ads a ≠ []) (adBreaks p))
  ∧ (∀ k, ads <$> filter (λ b, position b = k) (configured_breaks p)
          = pk_ads <$> filter (λ a, pk_position a = Some k ∧ pk_ads a ≠ [])
                         (adBreaks p)).
Proof.
  split.
  - unfold configured_breaks, sort_by_position.
    by rewrite sort_by_perm, ingested_positions.
  - intros k. rewrite <-(ingested_ads (playAdsAfterTime_of p)). f_equal.
    apply sort_by_filter. intros x y -> ->. lia.
Qed.

(** ** Skipping *)

(** X9.  [skipAd()] reaches the first plugin controller that reports itself
    active, and no other; with no active controller it does nothing. *)
Theorem skipAd_reaches_first_active (s : AdsController) :
  (∀ i c, _adsPluginControllers s !! i = Some c → active c = true →
     (∀ j c', (j < i)%nat → _adsPluginControllers s !! j = Some c' →
              active c' = false) →
     skipAd s = emit (ctrl_skipAd i) s)
  ∧ ((∀ c, c ∈ _adsPluginControllers s → active c = false) → skipAd s = s).
Proof.
  unfold skipAd. split.
  - intros i c Hc Ha Hlt.
    assert (findIndex active (_adsPluginControllers s) = Some i) as ->; [|done].
    apply findIndex_Some. split; [by exists c|done].
  - intros Hnone. destruct (findIndex _ _) as [i|] eqn:Hi; [|done].
    apply findIndex_Some in Hi as [(c & Hc & Ha) _].
    rewrite Hnone in Ha; [done|]. by eapply list_elem_of_lookup_2.
Qed.

(** ** Initialisation *)

Lemma _playAdBreak_set_eventManager r (em : Registry) s :
  _playAdBreak r (set_eventManager em s)
  = set_eventManager em (_playAdBreak r s).
Proof.
  unfold _playAdBreak. simpl. destruct (findIndex _ _); [|done].
  destruct r as [i|b]; [|done]. by destruct (_configAdBreaks s !! i).
Qed.

Lemma _handleConfiguredPreroll_set_eventManager (em : Registry) s :
  _handleConfiguredPreroll (set_eventManager em s)
  = set_eventManager em (_handleConfiguredPreroll s).
Proof.
  unfold _handleConfiguredPreroll. simpl. destruct (findIndex _ _); [|done].
  apply _playAdBreak_set_eventManager.
Qed.

Lemma registry_handleConfiguredPreroll s :
  _eventManager (_handleConfiguredPreroll s) = _eventManager s.
Proof. apply (keeps_registry _ _ (_handleConfiguredPreroll_keeps s)). Qed.

(** [_init] on a controller whose registry holds nothing, as after
    [new EventManager()] and after [removeAll()]. *)
Section init.
Context (p : Player) (s : AdsController).
Hypothesis Hwf : EventManager.wf (_eventManager s).
Hypothesis Hsub : subscribed (_eventManager s).
Hypothesis Hempty : ∀ k, EventManager.held k (_eventManager s) = [].

Lemma _init_unfold :
  _init p s
  = let s1 := set_configAdBreaks (configured_breaks p)
                (_addBindings (_initMembers s)) in
    if bool_decide (configured_breaks p ≠ []) then
      let positions := position <$> configured_breaks p in
      let s3 := _onAdManifestLoaded positions
                  (emit (player_dispatch_AD_MANIFEST_LOADED positions) s1) in
      let s4 := if includes 0 positions
                then _handleConfiguredPreroll s3 else s3 in
      if existsb (λ position, 0 <? position) positions
      then _handleConfiguredMidrolls s4 else s4
    else s1.
Proof.
  destruct midroll_subscriptions as (Hnd9 & _).
  destruct (listen_all_ok (take 9 subscriptions) (_eventManager s))
    as (Hwf1 & Hsub1 & _); [apply subseteq_take|done..|].
  destruct (listen_all_held_once (take 9 subscriptions) (_eventManager s)
              AdEventType.AD_MANIFEST_LOADED) as [b Hb];
    [apply (EventManager.wf_map _ Hwf)|done| |].
  { apply list_elem_of_In. simpl. tauto. }
  rewrite Hempty, app_nil_l in Hb.
  unfold _init. apply (_handleConfiguredAdBreaks_eq _ _ b);
    by rewrite _addBindings_registry, registry_initMembers.
Qed.

(** The registry after [_init]: the subscriptions of [_addBindings], and
    those of [_handleConfiguredMidrolls] when a break is configured at a
    position above 0, added to what was there. *)
Lemma _init_registry :
  _eventManager (_init p s)
  = foldl (λ em x, EventManager.listen the_player x.1 x.2 em) (_eventManager s)
      (if existsb (λ position, 0 <? position) (position <$> configured_breaks p)
       then subscriptions else take 9 subscriptions).
Proof.
  rewrite _init_unfold. cbv zeta.
  assert (_eventManager (_addBindings (_initMembers s))
          = foldl (λ em x, EventManager.listen the_player x.1 x.2 em)
              (_eventManager s) (take 9 subscriptions)) as H9
    by by rewrite _addBindings_registry, registry_initMembers.
  revert H9. generalize (_addBindings (_initMembers s)). intros s0 H9.
  case_bool_decide as Hne.
  2:{ rewrite Hne. change (existsb _ (position <$> [])) with false.
      cbv iota. exact H9. }
  set (s3 := _onAdManifestLoaded _ _).
  assert (_eventManager s3 = _eventManager s0) as H3 by done.
  set (s4 := if includes 0 _ then _ else _).
  assert (_eventManager s4 = _eventManager s3) as H4.
  { unfold s4. destruct (includes 0 _); [|done].
    apply registry_handleConfiguredPreroll. }
  destruct (existsb _ _).
  - rewrite _handleConfiguredMidrolls_registry, H4, H3, H9, <-foldl_app.
    by rewrite take_drop.
  - by rewrite H4, H3.
Qed.

Lemma set_eventManager_eta s' : set_eventManager (_eventManager s') s' = s'.
Proof. by destruct s'. Qed.

(** What [_init] leaves in the members, apart from the registry. *)
Lemma _init_eq :
  _init p s
  = set_eventManager (_eventManager (_init p s))
      (let s1 := set_configAdBreaks (configured_breaks p) (_initMembers s) in
       if bool_decide (configured_breaks p ≠ []) then
         let positions := position <$> configured_breaks p in
         let s3 := _onAdManifestLoaded positions
                     (emit (player_dispatch_AD_MANIFEST_LOADED positions) s1) in
         if includes 0 positions then _handleConfiguredPreroll s3 else s3
       else s1).
Proof.
  rewrite <-(set_eventManager_eta (_init p s)) at 1.
  generalize (_eventManager (_init p s)). intros em'.
  rewrite _init_unfold. cbv zeta. rewrite _addBindings_eq.
  generalize (_eventManager (_addBindings (_initMembers s))). intros em.
  generalize (_initMembers s). intros s0.
  case_bool_decide; [|done].
  set (positions := position <$> configured_breaks p).
  set (s3 := _onAdManifestLoaded positions
               (emit (player_dispatch_AD_MANIFEST_LOADED positions)
                  (set_configAdBreaks (configured_breaks p) s0))).
  change (_onAdManifestLoaded positions _) with (set_eventManager em s3).
  assert ((if includes 0 positions
           then _handleConfiguredPreroll (set_eventManager em s3)
           else set_eventManager em s3)
          = set_eventManager em
              (if includes 0 positions then _handleConfiguredPreroll s3 else s3))
    as ->.
  { destruct (includes 0 positions); [|done].
    apply _handleConfiguredPreroll_set_eventManager. }
  destruct (existsb _ _); [|done].
  by rewrite _handleConfiguredMidrolls_eq.
Qed.

(** The members [_initMembers] assigns, and the layout the manifest event
    of [_handleConfiguredAdBreaks] brings. *)
Lemma _init_members :
  _adBreak (_init p s) = None ∧ _ad (_init p s) = None
  ∧ _adPlayed (_init p s) = false ∧ _snapback (_init p s) = 0
  ∧ _adBreaksLayout (_init p s)
    = (if bool_decide (configured_breaks p = []) then []
       else default_sort (Array_from_Set (position <$> configured_breaks p))).
Proof.
  assert (∀ x, keeps x (_handleConfiguredPreroll x)
               ∧ _adBreak (_handleConfiguredPreroll x) = _adBreak x
               ∧ _ad (_handleConfiguredPreroll x) = _ad x
               ∧ _adPlayed (_handleConfiguredPreroll x) = _adPlayed x
               ∧ _snapback (_handleConfiguredPreroll x) = _snapback x
               ∧ _adBreaksLayout (_handleConfiguredPreroll x) = _adBreaksLayout x)
    as Hpre.
  { intros x. split; [apply _handleConfiguredPreroll_keeps|].
    unfold _handleConfiguredPreroll, _playAdBreak.
    by repeat case_match. }
  rewrite _init_eq. cbv zeta.
  case_bool_decide as Hne.
  - rewrite bool_decide_eq_false_2 by done.
    destruct (includes 0 _); simpl.
    + by destruct (Hpre (_onAdManifestLoaded (position <$> configured_breaks p)
        (emit (player_dispatch_AD_MANIFEST_LOADED (position <$> configured_breaks p))
           (set_configAdBreaks (configured_breaks p) (_initMembers s)))))
        as (_ & -> & -> & -> & -> & ->).
    + done.
  - by rewrite bool_decide_eq_true_2 by done.
Qed.

(** The preroll of [_init]: the first break at position 0 that does not
    start played, handed to the first plugin controller that is not the
    bumper. *)
Lemma _init_plays :
  let breaks := configured_breaks p in
  let manifest := player_dispatch_AD_MANIFEST_LOADED (position <$> breaks) in
  match findIndex (λ b, (position b =? 0) && negb (played b)) breaks with
  | Some i =>
      ∃ b, breaks !! i = Some b
        ∧ match findIndex (λ c, negb (_isBumper c)) (_adsPluginControllers s) with
          | Some a =>
              out (_init p s) = out s ++ [manifest; ctrl_playAdNow a (ads b)]
              ∧ _configAdBreaks (_init p s) = <[i := mark_played b]> breaks
              ∧ _adIsLoading (_init p s) = true
          | None =>
              out (_init p s)
              = out s ++ [manifest; logger_warn "No ads plugin registered"]
              ∧ _configAdBreaks (_init p s) = breaks
              ∧ _adIsLoading (_init p s) = false
          end
  | None =>
      out (_init p s)
      = out s ++ (if bool_decide (breaks = []) then [] else [manifest])
      ∧ _configAdBreaks (_init p s) = breaks
      ∧ _adIsLoading (_init p s) = false
  end.
Proof.
  cbv zeta. rewrite _init_eq. cbv zeta.
  set (breaks := configured_breaks p). set (positions := position <$> breaks).
  case_bool_decide as Hne.
  2:{ rewrite Hne. simpl. by rewrite app_nil_r. }
  rewrite (bool_decide_eq_false_2 (breaks = [])) by done.
  set (s3 := _onAdManifestLoaded positions _).
  destruct (findIndex _ breaks) as [i|] eqn:Hfi.
  - pose proof Hfi as Hfi'.
    apply findIndex_Some in Hfi' as [(b & Hb & Hfb) _]. exists b. split; [done|].
    assert (includes 0 positions = true) as ->.
    { apply bool_decide_eq_true, list_elem_of_fmap. exists b.
      split; [|by eapply list_elem_of_lookup_2].
      apply andb_true_iff in Hfb as [?%Z.eqb_eq _]. done. }
    unfold _handleConfiguredPreroll.
    change (_configAdBreaks s3) with breaks. rewrite Hfi.
    unfold _playAdBreak. change (_adsPluginControllers s3) with (_adsPluginControllers s).
    change (_configAdBreaks s3) with breaks. rewrite Hb.
    destruct (findIndex _ (_adsPluginControllers s)); simpl;
      by rewrite <-app_assoc.
  - assert ((if includes 0 positions then _handleConfiguredPreroll s3 else s3) = s3)
      as ->; [|done].
    destruct (includes 0 positions); [|done].
    unfold _handleConfiguredPreroll.
    change (_configAdBreaks s3) with breaks. by rewrite Hfi.
Qed.
End init.

Lemma new_subscribed : subscribed EventManager.new.
Proof. intros ty b bd (m & [= <-] & Hin). by apply elem_of_nil in Hin. Qed.

(** X10.  What the constructor does with a configured preroll.  When a
    break is configured at position 0 and does not start played, the first
    such break is marked played and its ads are handed to the first plugin
    controller that is not the bumper, right after the manifest event;
    with no such controller a warning is logged and the break stays
    unplayed.  Without such a break nothing is played: the manifest event
    is all that is dispatched, and with no break configured not even
    that.  So a break at 0 is played when neither [playAdsAfterTime] nor
    [startTime] is configured, and is not when [startTime] is [null],
    for it then starts played. *)
Theorem constructor_plays_first_preroll
    (p : Player) (cs : list IAdsPluginController) :
  let s := constructor p cs in
  let breaks := configured_breaks p in
  let manifest := player_dispatch_AD_MANIFEST_LOADED (position <$> breaks) in
  match findIndex (λ b, (position b =? 0) && negb (played b)) breaks with
  | Some i =>
      ∃ b, breaks !! i = Some b
        ∧ match findIndex (λ c, negb (_isBumper c)) cs with
          | Some a =>
              out s = [manifest; ctrl_playAdNow a (ads b)]
              ∧ _configAdBreaks s = <[i := mark_played b]> breaks
              ∧ _adIsLoading s = true
          | None =>
              out s = [manifest; logger_warn "No ads plugin registered"]
              ∧ _configAdBreaks s = breaks
              ∧ _adIsLoading s = false
          end
  | None =>
      out s = (if bool_decide (breaks = []) then [] else [manifest])
      ∧ _configAdBreaks s = breaks
      ∧ _adIsLoading s = false
  end
  ∧ (let preroll := [mkPKAdBreak (Some 0) [7%nat]] in
     out (constructor (mkPlayer None true preroll undefined undefined) [ima])
     = [player_dispatch_AD_MANIFEST_LOADED [0]; ctrl_playAdNow 0 [7%nat]]
     ∧ out (constructor (mkPlayer None true preroll undefined null) [ima])
       = [player_dispatch_AD_MANIFEST_LOADED [0]]
     ∧ played <$> _configAdBreaks
                    (constructor (mkPlayer None true preroll undefined null) [ima])
       = [true]).
Proof.
  cbv zeta. split; [|by vm_compute].
  unfold constructor. set (s0 := mkAdsController _ _ _ _ _ _ _ _ _ _ _ _).
  pose proof (_init_plays p s0 wf_new new_subscribed (λ _, eq_refl)) as H.
  cbv zeta in H.
  change (out s0) with (@nil Effect) in H.
  change (_adsPluginControllers s0) with cs in H.
  exact H.
Qed.

Lemma held_listen_all_length (subs : list (string * Listener)) (em : Registry) k :
  is_Some (EventManager._bindingMap em) →
  length (EventManager.held k
            (foldl (λ em x, EventManager.listen the_player x.1 x.2 em) em subs))
  = (length (EventManager.held k em) + length (filter (λ x, x.1 = k) subs))%nat.
Proof.
  revert em. induction subs as [|[ty l] subs IH]; intros em Hm.
  { simpl. lia. }
  simpl. rewrite IH.
  2:{ destruct Hm as [m Hm]. rewrite (listen_eq _ _ _ _ _ Hm). by eexists. }
  rewrite held_listen by done. rewrite filter_cons. simpl.
  destruct (decide (ty = k)); [rewrite length_app|]; simpl; lia.
Qed.

Lemma store_listen_all (subs : list (string * Listener)) (em : Registry) b bd :
  EventManager.store em !! b = Some bd →
  EventManager.store
    (foldl (λ em x, EventManager.listen the_player x.1 x.2 em) em subs) !! b
  = Some bd.
Proof.
  revert em. induction subs as [|[ty l] subs IH]; intros em Hb; [done|].
  simpl. apply IH. rewrite store_listen. by apply lookup_app_l_Some.
Qed.

(** X11.  The reset notification, in any state the controller can reach, is a
    reconstruction with the same plugin controllers: every member ends
    with the value a new controller for that player would have, and the
    calls made are the ones the constructor would make.  The promises
    already handed out stay; every binding made before the reset is
    detached; and the registry holds as many bindings for each event type
    as that of the new controller. *)
Theorem reset_is_reconstruction
    (p0 : Player) (cs : list IAdsPluginController) (steps : list Step)
    (p : Player) :
  let s := run steps (constructor p0 cs) in
  let s' := step s (Notify PLAYER_RESET p) in
  let c := constructor p (_adsPluginControllers s) in
  (_allAdsCompleted s' = _allAdsCompleted c
   ∧ _adBreaksLayout s' = _adBreaksLayout c
   ∧ _adBreak s' = _adBreak c ∧ _ad s' = _ad c
   ∧ _adPlayed s' = _adPlayed c ∧ _snapback s' = _snapback c
   ∧ _configAdBreaks s' = _configAdBreaks c
   ∧ _adIsLoading s' = _adIsLoading c)
  ∧ out s' = out s ++ out c
  ∧ promises s' = promises s
  ∧ _adsPluginControllers s' = _adsPluginControllers s
  ∧ (∀ b bd, (b < length (EventManager.store (_eventManager s)))%nat →
       EventManager.store (_eventManager s') !! b = Some bd →
       EventManager.target bd = None)
  ∧ (∀ k, length (EventManager.held k (_eventManager s'))
          = length (EventManager.held k (_eventManager c))).
Proof.
  intros s s' c. destruct (reachable p0 cs steps) as [Hinv Hsh]. fold s in Hinv, Hsh.
  pose proof (inv_registry _ Hinv) as Hwf.
  unfold s'. rewrite notify_eq by done. unfold _reset, c, constructor.
  set (sr := set_eventManager _ s).
  set (s0 := mkAdsController _ _ _ _ _ _ _ _ _ _ _ _).
  assert (EventManager.wf (_eventManager sr)) as Hwfr by by apply wf_removeAll.
  assert (subscribed (_eventManager sr)) as Hsubr by by apply subscribed_removeAll.
  assert (∀ k, EventManager.held k (_eventManager sr) = []) as Hempr.
  { intros k. apply held_removeAll, (EventManager.wf_map _ Hwf). }
  destruct (_init_fields p sr Hwfr Hsubr Hempr) as (Ha & Hp & Hc).
  destruct (_init_fields p s0 wf_new new_subscribed (λ _, eq_refl))
    as (Ha0 & Hp0 & Hc0).
  destruct (_init_members p sr Hwfr Hsubr Hempr) as (Hb & Hd & He & Hf & Hg).
  destruct (_init_members p s0 wf_new new_subscribed (λ _, eq_refl))
    as (Hb0 & Hd0 & He0 & Hf0 & Hg0).
  pose proof (_init_plays p sr Hwfr Hsubr Hempr) as Hpl.
  pose proof (_init_plays p s0 wf_new new_subscribed (λ _, eq_refl)) as Hpl0.
  cbv zeta in Hpl, Hpl0.
  change (out s0) with (@nil Effect) in Hpl0.
  change (_adsPluginControllers s0) with (_adsPluginControllers s) in Hpl0.
  change (_adsPluginControllers sr) with (_adsPluginControllers s) in Hpl.
  change (out sr) with (out s) in Hpl.
  assert (out (_init p sr) = out s ++ out (_init p s0)
          ∧ _configAdBreaks (_init p sr) = _configAdBreaks (_init p s0)
          ∧ _adIsLoading (_init p sr) = _adIsLoading (_init p s0))
    as (Hout & Hcfg & Hld).
  { destruct (findIndex _ (configured_breaks p)) as [i|].
    - destruct Hpl as (b & Hbi & Hpl), Hpl0 as (b0 & Hbi0 & Hpl0).
      rewrite Hbi in Hbi0. injection Hbi0 as <-.
      destruct (findIndex _ (_adsPluginControllers s)).
      + destruct Hpl as (-> & -> & ->), Hpl0 as (-> & -> & ->). done.
      + destruct Hpl as (-> & -> & ->), Hpl0 as (-> & -> & ->). done.
    - destruct Hpl as (-> & -> & ->), Hpl0 as (-> & -> & ->). done. }
  split_and!;
    [by rewrite Ha, Ha0|by rewrite Hg, Hg0|by rewrite Hb, Hb0|by rewrite Hd, Hd0
    |by rewrite He, He0|by rewrite Hf, Hf0|exact Hcfg|exact Hld|exact Hout
    |exact Hp|exact Hc|..].
  - intros b bd Hlt. rewrite (_init_registry p sr Hwfr Hsubr Hempr).
    change (_eventManager sr) with (EventManager.removeAll (_eventManager s)).
    rewrite <-(length_store_removeAll (_eventManager s)) in Hlt.
    apply lookup_lt_is_Some_2 in Hlt as [bd0 Hbd0].
    rewrite (store_listen_all _ _ _ _ Hbd0). intros [= <-].
    destruct (EventManager.target bd0) as [t|] eqn:Ht; [|done].
    destruct (stored_under_removeAll (_eventManager s) (EventManager.type bd0) b);
      [apply Hwf|].
    apply (EventManager.wf_held _ Hwfr b bd0 Hbd0). by rewrite Ht.
  - intros k. rewrite (_init_registry p sr Hwfr Hsubr Hempr).
    rewrite (_init_registry p s0 wf_new new_subscribed (λ _, eq_refl)).
    rewrite !held_listen_all_length; [|by eexists|apply Hwfr].
    by rewrite Hempr.
Qed.

(** ** The current ad break and ad, and the layout *)

(** The members the ad notifications of the plugins write. *)
Abbreviation view s := (_adBreak s, _ad s, _adPlayed s, _adBreaksLayout s).

Lemma _playAdBreak_view r s : view (_playAdBreak r s) = view s.
Proof. unfold _playAdBreak. by repeat case_match. Qed.

Lemma run_finally_view k s : view (run_finally k s) = view s.
Proof.
  destruct k as [[a|]|]; simpl; try done.
  unfold _handleConfiguredPostroll. destruct (findIndex _ _); [|done].
  by rewrite _playAdBreak_view.
Qed.

Lemma _onEnded_view s : view (_onEnded s) = view s.
Proof.
  unfold _onEnded. destruct (_adIsLoading s); [done|].
  destruct (negb _); [done|].
  destruct (findIndex _isBumper _); [done|].
  apply (run_finally_view (bumperComplete _)).
Qed.

Lemma _onAdsCompleted_view s : view (_onAdsCompleted s) = view s.
Proof. unfold _onAdsCompleted. by case_match. Qed.

Lemma _onAdError_view severity s :
  view (_onAdError severity s)
  = view s.
Proof. unfold _onAdError. cbv zeta. by repeat case_match. Qed.

Lemma onSeeked_view p s : view (onSeeked p s) = view s.
Proof. unfold onSeeked. by repeat case_match. Qed.

Lemma onTimeUpdate_view p s : view (onTimeUpdate p s) = view s.
Proof.
  unfold onTimeUpdate. repeat case_match; try done.
  exact (_playAdBreak_view _ _).
Qed.

Lemma call0_view h e p s :
  view (call0 h e p s)
  = match h, e with
    | h_onAdManifestLoaded, AD_MANIFEST_LOADED positions =>
        (_adBreak s, _ad s, _adPlayed s,
         default_sort (Array_from_Set (_adBreaksLayout s ++ positions)))
    | h_onAdBreakStart, AD_BREAK_START adBreak =>
        (Some adBreak, _ad s, _adPlayed s, _adBreaksLayout s)
    | h_onAdLoaded, AD_LOADED ad =>
        (_adBreak s, Some ad, _adPlayed s, _adBreaksLayout s)
    | h_onAdStarted, AD_STARTED ad =>
        (_adBreak s, Some ad, true, _adBreaksLayout s)
    | h_onAdBreakEnd, _ => (None, None, _adPlayed s, _adBreaksLayout s)
    | _, _ => view s
    end.
Proof.
  destruct h, e;
    first [ done | apply _onEnded_view | apply _onAdsCompleted_view
          | apply _onAdError_view | apply onSeeked_view
          | apply onTimeUpdate_view ].
Qed.

Lemma reset_fresh p s :
  inv s →
  EventManager.wf (_eventManager (set_eventManager
     (EventManager.removeAll (_eventManager s)) s))
  ∧ subscribed (_eventManager (set_eventManager
     (EventManager.removeAll (_eventManager s)) s))
  ∧ ∀ k, EventManager.held k (_eventManager (set_eventManager
     (EventManager.removeAll (_eventManager s)) s)) = [].
Proof.
  intros Hinv. pose proof (inv_registry _ Hinv) as Hwf. simpl. split_and!.
  - by apply wf_removeAll.
  - by apply subscribed_removeAll.
  - intros k. apply held_removeAll, (EventManager.wf_map _ Hwf).
Qed.

Lemma step_view s st :
  inv s → shape s →
  view (step s st)
  = match st with
    | Notify (AD_MANIFEST_LOADED positions) _ =>
        (_adBreak s, _ad s, _adPlayed s,
         default_sort (Array_from_Set (_adBreaksLayout s ++ positions)))
    | Notify (AD_BREAK_START adBreak) _ =>
        (Some adBreak, _ad s, _adPlayed s, _adBreaksLayout s)
    | Notify (AD_LOADED ad) _ =>
        (_adBreak s, Some ad, _adPlayed s, _adBreaksLayout s)
    | Notify (AD_STARTED ad) _ =>
        (_adBreak s, Some ad, true, _adBreaksLayout s)
    | Notify AD_BREAK_END _ => (None, None, _adPlayed s, _adBreaksLayout s)
    | Notify PLAYER_RESET p =>
        (None, None, false,
         if bool_decide (configured_breaks p = []) then []
         else default_sort (Array_from_Set (position <$> configured_breaks p)))
    | _ => view s
    end.
Proof.
  intros Hinv Hsh. destruct st as [e p|n|i a d| |adPod p].
  - rewrite notify_eq by done. destruct e; try by rewrite call0_view.
    + unfold _reset. destruct (reset_fresh p s Hinv) as (Hwf & Hsub & Hempty).
      by destruct (_init_members p _ Hwf Hsub Hempty) as (-> & -> & -> & _ & ->).
    + destruct (EventManager.held _ _); [done|]. by rewrite _onEnded_view.
  - simpl. unfold settle. destruct (promises s !! n) as [[k|]|]; [|done..].
    by rewrite run_finally_view.
  - simpl. unfold plugin_update. by destruct (_ !! i).
  - simpl. unfold skipAd. by destruct (findIndex _ _).
  - simpl. unfold playAdNow. destruct (isAdBreak s); [done|].
    by rewrite _playAdBreak_view.
Qed.

(** X12.  In every state the controller can reach, the current ad break, the
    current ad and the ad-played flag change as follows: break-start sets
    the break; ad-loaded and ad-started set the ad, and ad-started raises
    the flag; break-end clears the break and the ad; a reset clears all
    three; no other step touches them.  [isAdBreak()] says whether a break
    is set. *)
Theorem current_ad_transitions
    (p0 : Player) (cs : list IAdsPluginController) (steps : list Step) :
  let s := run steps (constructor p0 cs) in
  ∀ st,
    (getAdBreak (step s st), getAd (step s st), _adPlayed (step s st))
    = match st with
      | Notify (AD_BREAK_START adBreak) _ => (Some adBreak, getAd s, _adPlayed s)
      | Notify (AD_LOADED ad) _ => (getAdBreak s, Some ad, _adPlayed s)
      | Notify (AD_STARTED ad) _ => (getAdBreak s, Some ad, true)
      | Notify AD_BREAK_END _ => (None, None, _adPlayed s)
      | Notify PLAYER_RESET _ => (None, None, false)
      | _ => (getAdBreak s, getAd s, _adPlayed s)
      end
    ∧ isAdBreak (step s st)
      = match st with
        | Notify (AD_BREAK_START _) _ => true
        | Notify AD_BREAK_END _ | Notify PLAYER_RESET _ => false
        | _ => isAdBreak s
        end.
Proof.
  intros s st. destruct (reachable p0 cs steps) as [Hinv Hsh]. fold s in Hinv, Hsh.
  pose proof (step_view s st Hinv Hsh) as Hv.
  unfold getAdBreak, getAd, isAdBreak.
  revert Hv. generalize (step s st). intros s' Hv.
  destruct st as [[]| | | |]; injection Hv as -> -> -> _; done.
Qed.

(** X13.  The cue points.  The layout of a new controller, and the layout after
    a reset, has the positions of the configured breaks; a manifest-loaded
    notification adds its positions to the layout; no other step changes
    it.  No position is ever listed twice. *)
Theorem layout_accumulates_positions
    (p0 : Player) (cs : list IAdsPluginController) (steps : list Step) :
  let s := run steps (constructor p0 cs) in
  (∀ x, x ∈ getAdBreaksLayout (constructor p0 cs)
        ↔ x ∈ position <$> configured_breaks p0)
  ∧ NoDup (getAdBreaksLayout s)
  ∧ ∀ st x,
      x ∈ getAdBreaksLayout (step s st)
      ↔ match st with
        | Notify (AD_MANIFEST_LOADED positions) _ =>
            x ∈ getAdBreaksLayout s ∨ x ∈ positions
        | Notify PLAYER_RESET p => x ∈ position <$> configured_breaks p
        | _ => x ∈ getAdBreaksLayout s
        end.
Proof.
  assert (∀ l x, x ∈ default_sort (Array_from_Set l) ↔ x ∈ l) as Hmem.
  { intros l x. unfold default_sort. by rewrite sort_by_perm, elem_of_Array_from_Set. }
  assert (∀ l, NoDup (default_sort (Array_from_Set l))) as Hnd.
  { intros l. unfold default_sort. rewrite sort_by_perm.
    apply NoDup_Array_from_Set. }
  assert (∀ p x, x ∈ (if bool_decide (configured_breaks p = []) then []
                      else default_sort
                             (Array_from_Set (position <$> configured_breaks p)))
                 ↔ x ∈ position <$> configured_breaks p) as Hfresh.
  { intros p x. case_bool_decide as He; [by rewrite He|apply Hmem]. }
  assert (∀ p, getAdBreaksLayout (constructor p cs)
               = if bool_decide (configured_breaks p = []) then []
                 else default_sort
                        (Array_from_Set (position <$> configured_breaks p)))
    as Hcons.
  { intros p. unfold constructor, getAdBreaksLayout.
    set (s0 := mkAdsController _ _ _ _ _ _ _ _ _ _ _ _).
    by destruct (_init_members p s0 wf_new new_subscribed (λ _, eq_refl))
      as (_ & _ & _ & _ & ->). }
  assert (∀ s, inv s → shape s → ∀ st x,
      x ∈ getAdBreaksLayout (step s st)
      ↔ match st with
        | Notify (AD_MANIFEST_LOADED positions) _ =>
            x ∈ getAdBreaksLayout s ∨ x ∈ positions
        | Notify PLAYER_RESET p => x ∈ position <$> configured_breaks p
        | _ => x ∈ getAdBreaksLayout s
        end) as Hstep.
  { intros s Hinv Hsh st x. unfold getAdBreaksLayout.
    pose proof (step_view s st Hinv Hsh) as Hv.
    revert Hv. generalize (step s st). intros s' Hv.
    destruct st as [[]| | | |]; injection Hv as _ _ _ ->;
      [by rewrite Hmem, elem_of_app|done..]. }
  assert (∀ s, inv s → shape s → NoDup (getAdBreaksLayout s) →
               ∀ st, NoDup (getAdBreaksLayout (step s st))) as Hkeep.
  { intros s Hinv Hsh Hs st. unfold getAdBreaksLayout in *.
    pose proof (step_view s st Hinv Hsh) as Hv.
    revert Hv. generalize (step s st). intros s' Hv.
    destruct st as [[]| | | |]; injection Hv as _ _ _ ->; try done.
    case_bool_decide; [apply NoDup_nil_2|apply Hnd]. }
  cbv zeta. split_and!.
  - intros x. rewrite Hcons. apply Hfresh.
  - assert (NoDup (getAdBreaksLayout (constructor p0 cs))) as H0.
    { rewrite Hcons. case_bool_decide; [apply NoDup_nil_2|apply Hnd]. }
    assert (inv (constructor p0 cs) ∧ shape (constructor p0 cs)) as Hr0
      by apply (reachable p0 cs []).
    revert H0 Hr0. generalize (constructor p0 cs).
    induction steps as [|st steps IH]; intros s0 H0 [Hinv Hsh]; [done|].
    simpl. apply IH; [by apply Hkeep|].
    split; [by apply step_inv|by apply step_shape].
  - destruct (reachable p0 cs steps) as [Hinv Hsh]. by apply Hstep.
Qed.

(** ** On-demand ads and the ad break *)

Lemma in_break_run s later :
  inv s → shape s → is_Some (_adBreak s) →
  forallb (λ st, negb (ends_break st)) later = true →
  is_Some (_adBreak (run later s)).
Proof.
  revert s. induction later as [|st later IH]; intros s Hinv Hsh Hbr Hl; [done|].
  simpl in Hl. apply andb_true_iff in Hl as [Hst Hl].
  simpl. apply IH; [by apply step_inv|by apply step_shape| |done].
  pose proof (step_view s st Hinv Hsh) as Hv.
  revert Hv. generalize (step s st). intros s' Hv.
  destruct st as [[]| | | |]; injection Hv as -> _ _ _; done.
Qed.

(** X14.  From the break-start notification until the break ends (by the
    break-end notification or a reset), whatever else happens,
    [playAdNow] plays nothing: it logs a warning and leaves the
    controller as it is. *)
Theorem playAdNow_refused_during_break
    (p0 : Player) (cs : list IAdsPluginController) (steps : list Step)
    (adBreak : AdBreak) (p1 : Player) (later : list Step)
    (adPod : list PKAdObject) (p2 : Player) :
  forallb (λ st, negb (ends_break st)) later = true →
  let s := run later (step (run steps (constructor p0 cs))
                           (Notify (AD_BREAK_START adBreak) p1)) in
  isAdBreak s = true
  ∧ step s (PlayAdNow adPod p2)
    = emit (logger_warn "Tried to call playAdNow during an ad break") s.
Proof.
  intros Hl s. destruct (reachable p0 cs steps) as [Hinv Hsh].
  set (s0 := run steps (constructor p0 cs)) in *.
  set (s1 := step s0 (Notify (AD_BREAK_START adBreak) p1)) in *.
  assert (is_Some (_adBreak s1)) as H1.
  { pose proof (step_view s0 (Notify (AD_BREAK_START adBreak) p1) Hinv Hsh) as Hv.
    fold s1 in Hv. injection Hv as -> _ _ _. by eexists. }
  assert (isAdBreak s = true) as Hbr.
  { apply bool_decide_eq_true.
    apply in_break_run; [by apply step_inv|by apply step_shape|done..]. }
  split; [done|]. simpl. unfold playAdNow. by rewrite Hbr.
Qed.

Lemma playAdNow_refused_during_break_witness :
  forallb (λ st, negb (ends_break st))
    [Notify (AD_STARTED 2%nat) (sample_player 0 [])] = true
  ∧ let s := run [Notify (AD_STARTED 2%nat) (sample_player 0 [])]
               (step (run [] (constructor (sample_player 0 []) [ima]))
                     (Notify (AD_BREAK_START 1%nat) (sample_player 0 []))) in
    isAdBreak s = true
    ∧ step s (PlayAdNow [7%nat] (sample_player 0 []))
      = emit (logger_warn "Tried to call playAdNow during an ad break") s.
Proof.
  split; [reflexivity|].
  apply (playAdNow_refused_during_break (sample_player 0 []) [ima] []
           1%nat (sample_player 0 []) [Notify (AD_STARTED 2%nat) (sample_player 0 [])]
           [7%nat] (sample_player 0 [])).
  reflexivity.
Defined.

(** ** The subscriptions *)

Lemma subscription_type ty (l : Listener) :
  (ty, l) ∈ subscriptions → ∃ e, ty = type_of e.
Proof.
  intros Hin%list_elem_of_In. simpl in Hin.
  repeat (destruct Hin as [[= <- _]|Hin];
          [first [ by exists (AD_MANIFEST_LOADED []) | by exists (AD_BREAK_START O)
                 | by exists (AD_LOADED O) | by exists (AD_STARTED O)
                 | by exists AD_BREAK_END | by exists ADS_COMPLETED
                 | by exists (AD_ERROR CRITICAL) | by exists PLAYER_RESET
                 | by exists ENDED | by exists TIME_UPDATE | by exists SEEKED ]|]).
  done.
Qed.

Lemma shape_at_most_one s e :
  shape s →
  EventManager.held (type_of e) (_eventManager s) = []
  ∨ ∃ b, EventManager.held (type_of e) (_eventManager s) = [b].
Proof.
  intros [Halways Hended Hmid].
  assert (∀ l, (type_of e, l) ∈ take 8 subscriptions →
               ∃ b, EventManager.held (type_of e) (_eventManager s) = [b]) as H8.
  { intros l Hl. apply (Halways _ Hl). }
  destruct e; try (right; eapply H8; apply list_elem_of_In; simpl; tauto).
  - done.
  - simpl. destruct (has_midrolls s); [right; apply Hmid|left; apply Hmid].
  - simpl. destruct (has_midrolls s); [right; apply Hmid|left; apply Hmid].
Qed.

(** X15.  However many notifications and resets the controller has gone
    through, its registry holds at most one binding for any notification,
    and a binding that is still attached is the one held for its type: no
    listener of an earlier initialisation is left attached, and no
    notification is handled twice. *)
Theorem one_live_listener_per_type
    (p0 : Player) (cs : list IAdsPluginController) (steps : list Step) :
  let em := _eventManager (run steps (constructor p0 cs)) in
  (∀ e, (length (EventManager.held (type_of e) em) ≤ 1)%nat)
  ∧ (∀ b bd, EventManager.store em !! b = Some bd →
       is_Some (EventManager.target bd) →
       ∃ e, EventManager.type bd = type_of e
            ∧ EventManager.held (type_of e) em = [b]).
Proof.
  cbv zeta. destruct (reachable p0 cs steps) as [Hinv Hsh].
  set (s := run steps (constructor p0 cs)) in *.
  split.
  - intros e. destruct (shape_at_most_one s e Hsh) as [->|[b ->]]; simpl; lia.
  - intros b bd Hbd Hlive.
    pose proof (EventManager.wf_held _ (inv_registry _ Hinv) b bd Hbd Hlive) as Hst.
    destruct (inv_subscribed _ Hinv _ _ _ Hst Hbd) as (l & _ & Hl).
    destruct (subscription_type _ _ Hl) as [e He]. exists e. split; [done|].
    apply stored_under_held in Hst. rewrite He in Hst.
    destruct (shape_at_most_one s e Hsh) as [H0|[b' Hb']].
    + rewrite H0 in Hst. by apply elem_of_nil in Hst.
    + rewrite Hb' in Hst. apply list_elem_of_singleton in Hst. by subst.
Qed.

(** ** Midrolls *)

Lemma onTimeUpdate_idemp p s :
  inv s → onTimeUpdate p (onTimeUpdate p s) = onTimeUpdate p s.
Proof.
  intros Hinv. destruct (paused p) eqn:Hp.
  { unfold onTimeUpdate. by rewrite Hp. }
  assert (inv (onTimeUpdate p s)) as Hinv1
    by (eapply inv_keeps; [done|apply onTimeUpdate_keeps]).
  destruct (onTimeUpdate_spec p s Hinv Hp) as [Hnone Hsome].
  destruct (last (List.filter (λ x, midroll_due p s x.2)
                    (entries (_configAdBreaks s)))) as [[i0 b0]|] eqn:Hlast.
  2:{ assert (onTimeUpdate p s = s) as Hid; [|rewrite Hid; exact Hid].
      unfold onTimeUpdate. by rewrite Hp, Hlast. }
  apply last_filter_entries in Hlast as (Hi0 & Hdue0 & _). simpl in Hdue0.
  apply midroll_due_true in Hdue0; [|apply Hinv].
  destruct Hsome as (i & b & Hi & Hdue & Hmax & Heq & Hsnap & Hother & Hplay).
  { exists b0. split; [by eapply list_elem_of_lookup_2|done]. }
  apply (onTimeUpdate_spec p _ Hinv1 Hp).
  intros (b' & [j Hj]%list_elem_of_lookup & Hdue').
  destruct Hdue as (Hpl & t & Ht & Hle & Hlt).
  destruct Hdue' as (Hpl' & t' & Ht' & Hle' & Hlt').
  rewrite Ht in Ht'. injection Ht' as <-. rewrite Hsnap in Hlt'.
  destruct (decide (j = i)) as [->|Hne].
  - destruct (_playAdBreak_configured i b (set_snapback (position b) s) Hi)
      as (_ & _ & Hcase).
    rewrite <-Heq in Hcase.
    destruct (findIndex _ (_adsPluginControllers (set_snapback (position b) s))).
    + destruct Hcase as (_ & Hi' & _). rewrite Hi' in Hj.
      injection Hj as <-. done.
    + rewrite Hcase in Hj. simpl in Hj. rewrite Hi in Hj.
      injection Hj as <-. lia.
  - rewrite Hother in Hj by done.
    assert (position b' ≤ position b); [|lia].
    apply Hmax; [by eapply list_elem_of_lookup_2|].
    split; [done|]. exists t. split_and!; [done..|lia].
Qed.

(** X16.  A time-progress notification repeated with the same player state
    does nothing the second time: the break the first one has handed over
    is not handed over again, whether or not a plugin was there to take
    it. *)
Theorem time_update_is_idempotent
    (p0 : Player) (cs : list IAdsPluginController) (steps : list Step)
    (p : Player) :
  let s := run steps (constructor p0 cs) in
  let s' := step s (Notify TIME_UPDATE p) in
  step s' (Notify TIME_UPDATE p) = s'.
Proof.
  intros s s'. destruct (reachable p0 cs steps) as [Hinv Hsh]. fold s in Hinv, Hsh.
  assert (inv s' ∧ shape s') as [Hinv' Hsh']
    by (split; [by apply step_inv|by apply step_shape]).
  rewrite (notify_eq TIME_UPDATE p s') by done.
  unfold s'. rewrite (notify_eq TIME_UPDATE p s) by done. simpl.
  by apply onTimeUpdate_idemp.
Qed.

Lemma _playAdBreak_snapback r s : _snapback (_playAdBreak r s) = _snapback s.
Proof. unfold _playAdBreak. by repeat case_match. Qed.

Lemma run_finally_snapback k s : _snapback (run_finally k s) = _snapback s.
Proof.
  destruct k as [[a|]|]; simpl; try done.
  unfold _handleConfiguredPostroll. destruct (findIndex _ _); [|done].
  by rewrite _playAdBreak_snapback.
Qed.

Lemma _onEnded_snapback s : _snapback (_onEnded s) = _snapback s.
Proof.
  unfold _onEnded. destruct (_adIsLoading s); [done|].
  destruct (negb _); [done|].
  destruct (findIndex _isBumper _); [done|].
  apply (run_finally_snapback (bumperComplete _)).
Qed.

Lemma call0_snapback h e p s :
  h ≠ h_timeUpdate → h ≠ h_seeked →
  _snapback (call0 h e p s) = _snapback s.
Proof.
  intros Ht Hs.
  destruct h, e;
    first [ done | apply _onEnded_snapback
          | unfold call0, _onAdsCompleted; by case_match
          | unfold call0, _onAdError; cbv zeta; by repeat case_match ].
Qed.

Lemma onTimeUpdate_snapback p s :
  inv s →
  _snapback (onTimeUpdate p s) = _snapback s
  ∨ (0 < _snapback (onTimeUpdate p s)
     ∧ _snapback (onTimeUpdate p s) ∈ position <$> _configAdBreaks s).
Proof.
  intros Hinv. unfold onTimeUpdate. destruct (negb (paused p)); [|by left].
  destruct (last _) as [[i b]|] eqn:Hlast; [|by left].
  apply last_filter_entries in Hlast as (Hi & Hdue & _). simpl in Hdue.
  apply midroll_due_true in Hdue as (_ & t & _ & _ & Hlt); [|apply Hinv].
  pose proof (inv_snapback _ Hinv). right.
  rewrite _playAdBreak_snapback. simpl. split; [lia|].
  apply list_elem_of_fmap. exists b. split; [done|].
  by eapply list_elem_of_lookup_2.
Qed.

Lemma step_snapback s st :
  inv s → shape s →
  _snapback (step s st) = 0
  ∨ (_snapback (step s st) = _snapback s
     ∧ position <$> _configAdBreaks (step s st) = position <$> _configAdBreaks s)
  ∨ (0 < _snapback (step s st)
     ∧ _snapback (step s st) ∈ position <$> _configAdBreaks (step s st)).
Proof.
  intros Hinv Hsh.
  assert (∀ s', keeps s s' → _snapback s' = _snapback s →
            _snapback s' = 0
            ∨ (_snapback s' = _snapback s
               ∧ position <$> _configAdBreaks s' = position <$> _configAdBreaks s)
            ∨ (0 < _snapback s'
               ∧ _snapback s' ∈ position <$> _configAdBreaks s')) as Hsame.
  { intros s' Hk Hs. right. left. split; [done|apply Hk]. }
  pose proof (step_keeps s st) as Hk.
  destruct st as [e p|n|i a d| |adPod p].
  - rewrite notify_eq by done.
    destruct e;
      try (apply Hsame; [apply call0_keeps|by apply call0_snapback]).
    + left. unfold _reset. destruct (reset_fresh p s Hinv) as (Hwf & Hsub & Hempty).
      by destruct (_init_members p _ Hwf Hsub Hempty) as (_ & _ & _ & -> & _).
    + destruct (EventManager.held _ _); [by apply Hsame; [apply keeps_refl|]|].
      right. left. rewrite _onEnded_snapback.
      split; [done|].
      exact (keeps_positions _ _ (_onEnded_keeps (set_eventManager _ s))).
    + simpl. pose proof (onTimeUpdate_keeps p s) as Hkt.
      destruct (onTimeUpdate_snapback p s Hinv) as [Heq|[Hpos Hin]].
      * by apply Hsame.
      * right. right. split; [done|]. by rewrite (keeps_positions _ _ Hkt).
    + simpl. unfold onSeeked. repeat case_match;
        first [ by left | by apply Hsame; [apply keeps_refl|] ].
  - apply Hsame; [done|]. simpl. unfold settle.
    destruct (promises s !! n) as [[k|]|]; [|done..].
    by rewrite run_finally_snapback.
  - apply Hsame; [done|]. simpl. unfold plugin_update. by destruct (_ !! i).
  - apply Hsame; [done|]. simpl. unfold skipAd. by destruct (findIndex _ _).
  - apply Hsame; [done|]. simpl. unfold playAdNow.
    destruct (isAdBreak s); [done|]. by rewrite _playAdBreak_snapback.
Qed.

(** X17.  The snapback, in every state the controller can reach, is 0 or the
    position of a configured break above 0: the time-progress listener
    sets it to the position of the break it hands over, the seek listener
    and a reset put it back to 0, and nothing else writes it. *)
Theorem snapback_is_a_midroll_position
    (p0 : Player) (cs : list IAdsPluginController) (steps : list Step) :
  let s := run steps (constructor p0 cs) in
  _snapback s = 0
  ∨ (0 < _snapback s ∧ _snapback s ∈ position <$> _configAdBreaks s).
Proof.
  cbv zeta.
  assert (_snapback (constructor p0 cs) = 0) as H0.
  { unfold constructor. set (s0 := mkAdsController _ _ _ _ _ _ _ _ _ _ _ _).
    by destruct (_init_members p0 s0 wf_new new_subscribed (λ _, eq_refl))
      as (_ & _ & _ & -> & _). }
  destruct (reachable p0 cs []) as [Hinv0 Hsh0]. simpl in Hinv0, Hsh0.
  assert (_snapback (constructor p0 cs) = 0
          ∨ (0 < _snapback (constructor p0 cs)
             ∧ _snapback (constructor p0 cs)
               ∈ position <$> _configAdBreaks (constructor p0 cs))) as H
    by by left.
  clear H0. revert H Hinv0 Hsh0. generalize (constructor p0 cs).
  induction steps as [|st steps IH]; intros s H Hinv Hsh; [done|].
  simpl. apply IH; [|by apply step_inv|by apply step_shape].
  destruct (step_snapback s st Hinv Hsh) as [?|[[Hs Hp]|?]]; [by left| |by right].
  rewrite Hs, Hp. exact H.
Qed.

(** ** The played flags *)

Lemma progress_refl (l : list RunTimeAdBreakObject) : Forall2 progress l l.
Proof. induction l; constructor; [by split_and!|done]. Qed.

Lemma progress_trans (l1 l2 l3 : list RunTimeAdBreakObject) :
  Forall2 progress l1 l2 → Forall2 progress l2 l3 → Forall2 progress l1 l3.
Proof.
  intros H1. revert l3. induction H1 as [|x y l k Hxy _ IH]; intros l3 H2.
  - by inversion H2.
  - inversion H2 as [|? z ? k' Hyz Hk]; subst. constructor; [|by apply IH].
    destruct Hxy as (? & ? & ?), Hyz as (? & ? & ?).
    split_and!; [congruence..|auto].
Qed.

Lemma progress_insert (l : list RunTimeAdBreakObject) i b :
  l !! i = Some b → Forall2 progress l (<[i := mark_played b]> l).
Proof.
  intros Hi. apply Forall2_same_length_lookup.
  split; [by rewrite length_insert|].
  intros j x y Hx Hy. destruct (decide (j = i)) as [->|Hne].
  - rewrite list_lookup_insert_eq in Hy by (by eapply lookup_lt_Some).
    injection Hy as <-. rewrite Hi in Hx. injection Hx as <-. by split_and!.
  - rewrite list_lookup_insert_ne in Hy by done.
    rewrite Hx in Hy. injection Hy as <-. by split_and!.
Qed.

Lemma progress_mark_all (l : list RunTimeAdBreakObject) :
  Forall2 progress l (mark_played <$> l).
Proof. induction l; constructor; [by split_and!|done]. Qed.

Lemma _playAdBreak_progress r s :
  Forall2 progress (_configAdBreaks s) (_configAdBreaks (_playAdBreak r s)).
Proof.
  unfold _playAdBreak. destruct (findIndex _ _); [|apply progress_refl].
  destruct r as [i|b]; [|apply progress_refl].
  destruct (_configAdBreaks s !! i) as [b|] eqn:Hi; [|apply progress_refl].
  by apply progress_insert.
Qed.

Lemma run_finally_progress k s :
  Forall2 progress (_configAdBreaks s) (_configAdBreaks (run_finally k s)).
Proof.
  destruct k as [[a|]|]; simpl; try apply progress_refl.
  unfold _handleConfiguredPostroll.
  destruct (findIndex _ _); [|apply progress_refl].
  eapply progress_trans; [apply progress_mark_all|].
  apply (_playAdBreak_progress _ (set_configAdBreaks _ s)).
Qed.

Lemma _onEnded_progress s :
  Forall2 progress (_configAdBreaks s) (_configAdBreaks (_onEnded s)).
Proof.
  unfold _onEnded. destruct (_adIsLoading s); [apply progress_refl|].
  destruct (negb _); [apply progress_refl|].
  destruct (findIndex _isBumper _); [apply progress_refl|].
  apply (run_finally_progress (bumperComplete _)).
Qed.

Lemma onTimeUpdate_progress p s :
  Forall2 progress (_configAdBreaks s) (_configAdBreaks (onTimeUpdate p s)).
Proof.
  unfold onTimeUpdate. repeat case_match; try apply progress_refl.
  apply (_playAdBreak_progress _ (set_snapback _ s)).
Qed.

Lemma call0_progress h e p s :
  Forall2 progress (_configAdBreaks s) (_configAdBreaks (call0 h e p s)).
Proof.
  destruct h, e;
    first [ apply progress_refl | apply _onEnded_progress
          | apply onTimeUpdate_progress
          | unfold call0, _onAdsCompleted; case_match; apply progress_refl
          | unfold call0, _onAdError; cbv zeta; repeat case_match;
            apply progress_refl
          | unfold call0, onSeeked; repeat case_match; apply progress_refl ].
Qed.

Lemma step_progress s st :
  inv s → shape s → not_reset st = true →
  Forall2 progress (_configAdBreaks s) (_configAdBreaks (step s st)).
Proof.
  intros Hinv Hsh Hst. destruct st as [e p|n|i a d| |adPod p].
  - rewrite notify_eq by done. destruct e; try apply call0_progress; [done|].
    destruct (EventManager.held _ _); [apply progress_refl|].
    apply (_onEnded_progress (set_eventManager _ s)).
  - simpl. unfold settle.
    destruct (promises s !! n) as [[k|]|]; try apply progress_refl.
    apply (run_finally_progress k (set_promises _ s)).
  - simpl. unfold plugin_update. destruct (_ !! i); apply progress_refl.
  - simpl. unfold skipAd. destruct (findIndex _ _); apply progress_refl.
  - simpl. unfold playAdNow. destruct (isAdBreak s); [apply progress_refl|].
    apply _playAdBreak_progress.
Qed.

(** X18.  Between two resets the configured breaks keep their number, their
    positions and their ads, and a break that is played stays played,
    whatever notifications, promise settlements and calls occur. *)
Theorem played_breaks_stay_played
    (p0 : Player) (cs : list IAdsPluginController) (steps later : list Step) :
  forallb not_reset later = true →
  let s := run steps (constructor p0 cs) in
  Forall2 progress (_configAdBreaks s) (_configAdBreaks (run later s)).
Proof.
  intros Hl s. destruct (reachable p0 cs steps) as [Hinv Hsh]. fold s in Hinv, Hsh.
  revert Hinv Hsh. generalize s. clear s.
  induction later as [|st later IH]; intros s Hinv Hsh; [apply progress_refl|].
  simpl in Hl. apply andb_true_iff in Hl as [Hst Hl].
  simpl. eapply progress_trans; [by apply step_progress|].
  apply IH; [done|by apply step_inv|by apply step_shape].
Qed.

Lemma played_breaks_stay_played_witness :
  forallb not_reset [Notify TIME_UPDATE (sample_player 20 [5; 15])] = true
  ∧ Forall2 progress
      (_configAdBreaks (run [] (constructor (sample_player 0 [5; 15]) [ima])))
      (_configAdBreaks
         (run [Notify TIME_UPDATE (sample_player 20 [5; 15])]
            (run [] (constructor (sample_player 0 [5; 15]) [ima])))).
Proof.
  split; [reflexivity|].
  apply (played_breaks_stay_played (sample_player 0 [5; 15]) [ima] []
           [Notify TIME_UPDATE (sample_player 20 [5; 15])]).
  reflexivity.
Defined.

(** ** The calls the controller makes *)

Lemma emits_refl (P : Effect → Prop) s s' : out s' = out s → emits P s s'.
Proof. intros Ho. exists []. by rewrite app_nil_r. Qed.

Lemma emits_one (P : Effect → Prop) s s' x :
  out s' = out s ++ [x] → P x → emits P s s'.
Proof. intros Ho Hx. exists [x]. split; [done|]. by repeat constructor. Qed.

Lemma emits_trans (P : Effect → Prop) s1 s2 s3 :
  emits P s1 s2 → emits P s2 s3 → emits P s1 s3.
Proof.
  intros (d1 & H1 & Hd1) (d2 & H2 & Hd2). exists (d1 ++ d2).
  split; [by rewrite H2, H1, app_assoc|]. by apply Forall_app.
Qed.

Lemma emits_mono (P Q : Effect → Prop) s s' :
  (∀ x, P x → Q x) → emits P s s' → emits Q s s'.
Proof.
  intros HPQ (d & Hd & HP). exists d. split; [done|].
  eapply Forall_impl; [exact HP|done].
Qed.

Lemma _playAdBreak_quiet r s :
  emits (quiet (_adsPluginControllers s)) s (_playAdBreak r s).
Proof.
  unfold _playAdBreak. destruct (findIndex _ _) as [a|] eqn:Ha.
  - destruct r as [i|b].
    + destruct (_configAdBreaks s !! i); [|by apply emits_refl].
      by eapply emits_one.
    + by eapply emits_one.
  - by eapply emits_one.
Qed.

Lemma run_finally_quiet k s :
  emits (quiet (_adsPluginControllers s)) s (run_finally k s).
Proof.
  destruct k as [[a|]|]; simpl.
  - by eapply emits_one.
  - by apply emits_refl.
  - unfold _handleConfiguredPostroll.
    destruct (findIndex _ _); [|by apply emits_refl].
    apply (_playAdBreak_quiet _ (set_configAdBreaks _ s)).
Qed.

Lemma _onEnded_quiet s :
  emits (quiet (_adsPluginControllers s)) s (_onEnded s).
Proof.
  unfold _onEnded. destruct (_adIsLoading s); [by apply emits_refl|].
  destruct (negb _); [by apply emits_refl|].
  destruct (findIndex _isBumper _); [by eapply emits_one|].
  apply (run_finally_quiet (bumperComplete _)).
Qed.

Lemma onTimeUpdate_quiet p s :
  emits (quiet (_adsPluginControllers s)) s (onTimeUpdate p s).
Proof.
  unfold onTimeUpdate. repeat case_match; try by apply emits_refl.
  apply (_playAdBreak_quiet _ (set_snapback _ s)).
Qed.

Lemma onSeeked_out p s : out (onSeeked p s) = out s.
Proof. unfold onSeeked. by repeat case_match. Qed.

Lemma call0_quiet h e p s :
  match h, e with
  | h_onAdsCompleted, _ => True
  | h_onAdError, AD_ERROR _ => True
  | _, _ => emits (quiet (_adsPluginControllers s)) s (call0 h e p s)
  end.
Proof.
  destruct h, e;
    first [ done | by apply emits_refl | apply _onEnded_quiet
          | apply onTimeUpdate_quiet | apply emits_refl, onSeeked_out ].
Qed.

Lemma _init_quiet p s :
  EventManager.wf (_eventManager s) → subscribed (_eventManager s) →
  (∀ k, EventManager.held k (_eventManager s) = []) →
  emits (quiet (_adsPluginControllers s)) s (_init p s).
Proof.
  intros Hwf Hsub Hempty. pose proof (_init_plays p s Hwf Hsub Hempty) as H.
  cbv zeta in H. destruct (findIndex _ (configured_breaks p)).
  - destruct H as (b & _ & H).
    destruct (findIndex _ (_adsPluginControllers s)) eqn:Ha;
      destruct H as (Ho & _); eexists; (split; [exact Ho|]);
      by repeat constructor.
  - destruct H as (Ho & _). eexists. split; [exact Ho|].
    case_bool_decide; by repeat constructor.
Qed.

Lemma step_quiet s st :
  inv s → shape s →
  match st with
  | Notify ADS_COMPLETED _ | Notify (AD_ERROR _) _ => True
  | _ => emits (quiet (_adsPluginControllers s)) s (step s st)
  end.
Proof.
  intros Hinv Hsh. destruct st as [e p|n|i a d| |adPod p].
  - pose proof (notify_eq e p s Hinv Hsh) as Heq.
    destruct e; try done; rewrite Heq;
      try (match goal with
           | |- emits _ _ (call0 ?h ?e _ _) => exact (call0_quiet h e p s)
           end).
    + unfold _reset. destruct (reset_fresh p s Hinv) as (Hwf & Hsub & Hempty).
      apply (_init_quiet p _ Hwf Hsub Hempty).
    + destruct (EventManager.held _ _); [by apply emits_refl|].
      apply (_onEnded_quiet (set_eventManager _ s)).
  - simpl. unfold settle.
    destruct (promises s !! n) as [[k|]|]; try by apply emits_refl.
    apply (run_finally_quiet k (set_promises _ s)).
  - simpl. unfold plugin_update. destruct (_ !! i); by apply emits_refl.
  - simpl. unfold skipAd. destruct (findIndex _ _);
      [by eapply emits_one|by apply emits_refl].
  - simpl. unfold playAdNow. destruct (isAdBreak s); [by eapply emits_one|].
    apply _playAdBreak_quiet.
Qed.

(** X19.  The ALL_ADS_COMPLETED event.  In every state the controller can
    reach, a step dispatches it in two cases only: on the ads-completed
    notification, when every plugin controller is done and every
    configured break is played; and on a critical ad error under the same
    condition, when an ad has started since the last reset.  Then
    [allAdsCompleted] is true.  Neither the end of the media nor a reset
    dispatches it, although both can make [allAdsCompleted] true. *)
Theorem all_ads_completed_is_announced
    (p0 : Player) (cs : list IAdsPluginController) (steps : list Step)
    (st : Step) :
  let s := run steps (constructor p0 cs) in
  ∃ d, out (step s st) = out s ++ d
    ∧ (dispatch_ALL_ADS_COMPLETED ∈ d
       ↔ match st with
         | Notify ADS_COMPLETED _ =>
             forallb done (_adsPluginControllers s)
             && forallb played (_configAdBreaks s) = true
         | Notify (AD_ERROR severity) _ =>
             bool_decide (severity = CRITICAL)
             && forallb done (_adsPluginControllers s)
             && forallb played (_configAdBreaks s)
             && _adPlayed s = true
         | _ => False
         end)
    ∧ (dispatch_ALL_ADS_COMPLETED ∈ d → allAdsCompleted (step s st) = true).
Proof.
  intros s. destruct (reachable p0 cs steps) as [Hinv Hsh]. fold s in Hinv, Hsh.
  assert (∀ s', emits (quiet (_adsPluginControllers s)) s s' →
            ∃ d, out s' = out s ++ d
              ∧ (dispatch_ALL_ADS_COMPLETED ∈ d ↔ False)
              ∧ (dispatch_ALL_ADS_COMPLETED ∈ d → allAdsCompleted s' = true))
    as Hquiet.
  { intros s' (d & Hd & Hq). exists d. split; [done|].
    assert (dispatch_ALL_ADS_COMPLETED ∉ d) as Hnot.
    { intros Hin. rewrite Forall_forall in Hq. by destruct (Hq _ Hin) as [_ ?]. }
    split; [done|]. by intros ?. }
  pose proof (step_quiet s st Hinv Hsh) as Hst.
  destruct st as [e p|n|i a d| |adPod p]; try by apply Hquiet.
  destruct e; try by apply Hquiet.
  - rewrite notify_eq by done. simpl. unfold _onAdsCompleted, allAdsCompleted.
    destruct (_ && _).
    + exists [dispatch_ALL_ADS_COMPLETED]. split_and!; [done| |done].
      split; [done|]. intros _. by apply list_elem_of_singleton.
    + exists []. rewrite app_nil_r. split_and!; [done| |by intros ?%elem_of_nil].
      split; [by intros ?%elem_of_nil|done].
  - rewrite notify_eq by done. simpl. unfold _onAdError, allAdsCompleted.
    cbv zeta. simpl. destruct (_ && _ && _); simpl.
    + destruct (_adPlayed s); simpl.
      * exists [dispatch_ALL_ADS_COMPLETED]. split_and!; [done| |done].
        split; [done|]. intros _. by apply list_elem_of_singleton.
      * exists []. rewrite app_nil_r.
        split_and!; [done| |by intros ?%elem_of_nil].
        split; [by intros ?%elem_of_nil|done].
    + exists []. rewrite app_nil_r.
      split_and!; [done| |by intros ?%elem_of_nil].
      split; [by intros ?%elem_of_nil|done].
Qed.

Lemma findIndex_fmap {A B} (f : B → bool) (g : A → B) (l : list A) :
  findIndex (λ x, f (g x)) l = findIndex f (g <$> l).
Proof. induction l as [|x l IH]; [done|]. simpl. by rewrite IH. Qed.

Lemma primary_names (cs cs' : list IAdsPluginController) :
  name <$> cs' = name <$> cs →
  findIndex (λ c, negb (_isBumper c)) cs'
  = findIndex (λ c, negb (_isBumper c)) cs.
Proof.
  intros Hn. pose (f := λ n : string, negb (bool_decide (n = "bumper"))).
  transitivity (findIndex f (name <$> cs')); [apply (findIndex_fmap f name)|].
  rewrite Hn. symmetry. apply (findIndex_fmap f name).
Qed.

Lemma run_finally_controllers k s :
  _adsPluginControllers (run_finally k s) = _adsPluginControllers s.
Proof.
  destruct k as [[a|]|]; simpl; try done.
  unfold _handleConfiguredPostroll. destruct (findIndex _ _); [|done].
  by rewrite _playAdBreak_controllers.
Qed.

Lemma _onEnded_controllers s :
  _adsPluginControllers (_onEnded s) = _adsPluginControllers s.
Proof.
  unfold _onEnded. destruct (_adIsLoading s); [done|].
  destruct (negb _); [done|].
  destruct (findIndex _isBumper _); [done|].
  apply (run_finally_controllers (bumperComplete _)).
Qed.

Lemma call0_controllers h e p s :
  _adsPluginControllers (call0 h e p s) = _adsPluginControllers s.
Proof.
  destruct h, e;
    first [ done | apply _onEnded_controllers
          | unfold call0, _onAdsCompleted; by case_match
          | unfold call0, _onAdError; cbv zeta; by repeat case_match
          | unfold call0, onSeeked; by repeat case_match
          | unfold call0, onTimeUpdate; repeat case_match; try done;
            exact (_playAdBreak_controllers _ _) ].
Qed.

Lemma step_names s st :
  inv s → shape s →
  name <$> _adsPluginControllers (step s st)
  = name <$> _adsPluginControllers s.
Proof.
  intros Hinv Hsh. destruct st as [e p|n|i a d| |adPod p].
  - rewrite notify_eq by done. destruct e; try by rewrite call0_controllers.
    + unfold _reset. destruct (reset_fresh p s Hinv) as (Hwf & Hsub & Hempty).
      by destruct (_init_fields p _ Hwf Hsub Hempty) as (_ & _ & ->).
    + destruct (EventManager.held _ _); [done|]. by rewrite _onEnded_controllers.
  - simpl. unfold settle. destruct (promises s !! n) as [[k|]|]; [|done..].
    by rewrite run_finally_controllers.
  - simpl. unfold plugin_update.
    destruct (_adsPluginControllers s !! i) as [c|] eqn:Hc; [|done]. simpl.
    rewrite list_fmap_insert. simpl. apply list_insert_id.
    by rewrite list_lookup_fmap, Hc.
  - simpl. unfold skipAd. by destruct (findIndex _ _).
  - simpl. unfold playAdNow. destruct (isAdBreak s); [done|].
    by rewrite _playAdBreak_controllers.
Qed.

Lemma step_to_primary s st :
  inv s → shape s →
  emits (to_primary (_adsPluginControllers s)) s (step s st).
Proof.
  intros Hinv Hsh. pose proof (step_quiet s st Hinv Hsh) as Hq.
  assert (∀ s', emits (quiet (_adsPluginControllers s)) s s' →
                emits (to_primary (_adsPluginControllers s)) s s') as Hweak.
  { intros s'. apply emits_mono. by intros x [? _]. }
  destruct st as [e p|n|i a d| |adPod p]; try by apply Hweak.
  destruct e; try by apply Hweak.
  - rewrite notify_eq by done. simpl. unfold _onAdsCompleted.
    destruct (_ && _); [by eapply emits_one|by apply emits_refl].
  - rewrite notify_eq by done. simpl. unfold _onAdError. cbv zeta. simpl.
    destruct (_ && _ && _); simpl; [|by apply emits_refl].
    destruct (_adPlayed s); [by eapply emits_one|by apply emits_refl].
Qed.

(** X20.  Every [playAdNow] call the controller ever makes, for a configured
    break or on demand, before or after any reset and whatever the plugins
    report of themselves, goes to the first of the plugin controllers
    given to the constructor that is not the bumper; when there is none,
    no such call is ever made. *)
Theorem plays_go_to_the_primary_plugin
    (p0 : Player) (cs : list IAdsPluginController) (steps : list Step) :
  let s := run steps (constructor p0 cs) in
  Forall (to_primary cs) (out s)
  ∧ (findIndex (λ c, negb (_isBumper c)) cs = None →
     ∀ a ads, ctrl_playAdNow a ads ∉ out s).
Proof.
  cbv zeta.
  assert (name <$> _adsPluginControllers (run steps (constructor p0 cs))
          = name <$> cs
          ∧ Forall (to_primary cs) (out (run steps (constructor p0 cs))))
    as [_ Hall].
  { assert (name <$> _adsPluginControllers (constructor p0 cs) = name <$> cs
            ∧ Forall (to_primary cs) (out (constructor p0 cs))) as H0.
    { unfold constructor. set (s0 := mkAdsController _ _ _ _ _ _ _ _ _ _ _ _).
      destruct (_init_fields p0 s0 wf_new new_subscribed (λ _, eq_refl))
        as (_ & _ & ->).
      split; [done|].
      destruct (_init_quiet p0 s0 wf_new new_subscribed (λ _, eq_refl))
        as (d & -> & Hd).
      simpl. eapply Forall_impl; [exact Hd|]. by intros x [? _]. }
    destruct (reachable p0 cs []) as [Hinv0 Hsh0]. simpl in Hinv0, Hsh0.
    revert H0 Hinv0 Hsh0. generalize (constructor p0 cs).
    induction steps as [|st steps IH]; intros s [Hn Ho] Hinv Hsh; [done|].
    simpl. apply IH; [|by apply step_inv|by apply step_shape].
    split; [by rewrite step_names|].
    destruct (step_to_primary s st Hinv Hsh) as (d & -> & Hd).
    apply Forall_app. split; [done|].
    eapply Forall_impl; [exact Hd|].
    intros [] Hx; try done. simpl in *. by rewrite <-(primary_names _ _ Hn). }
  split; [done|]. intros Hnone a ads Hin.
  rewrite Forall_forall in Hall. specialize (Hall _ Hin). simpl in Hall.
  congruence.
Qed.

End AdsControllerExtras.

(** * The media-ended notification and the postroll *)

Module EndedFacts.
Import AdsController EventManagerFacts AdsControllerFacts AdsControllerExtras.
Local Open Scope Z_scope.
Local Arguments EventManager.listen : simpl never.
Implicit Types (s : AdsController) (p : Player) (st : Step) (e : Notification)
  (h : Handler) (r : AdBreakObject).

Lemma configured_postroll_unplayed p b :
  b ∈ configured_breaks p → position b = -1 → played b = false.
Proof.
  intros Hb Hpos. unfold configured_breaks, sort_by_position in Hb.
  rewrite sort_by_perm in Hb. apply list_elem_of_omap in Hb as (a & _ & Ha).
  apply ingest_Some in Ha as (_ & _ & _ & ->). by rewrite Hpos.
Qed.

Lemma idle_same s s' :
  promises s' = promises s → out s' = out s →
  _configAdBreaks s' = _configAdBreaks s → postroll_idle s s'.
Proof.
  intros Hp Ho Hc. split_and!; [done|by apply emits_refl|].
  intros i b Hb _ _. by rewrite <-Hc.
Qed.

Lemma _playAdBreak_idle r s :
  match r with
  | configured i => ∀ b, _configAdBreaks s !! i = Some b → position b ≠ -1
  | on_demand _ => True
  end →
  postroll_idle s (_playAdBreak r s).
Proof.
  intros Hr. unfold _playAdBreak. destruct (findIndex _ _) as [a|].
  - destruct r as [i|b0].
    + destruct (_configAdBreaks s !! i) as [b0|] eqn:Hi; [|by apply idle_same].
      split_and!; [done|by eapply emits_one|].
      intros j b Hj Hpos _. simpl in Hj.
      destruct (decide (j = i)) as [->|Hne].
      * rewrite list_lookup_insert_eq in Hj by (by eapply lookup_lt_Some).
        injection Hj as <-. simpl in Hpos. by destruct (Hr b0).
      * by rewrite list_lookup_insert_ne in Hj.
    + split_and!; [done|by eapply emits_one|]. by intros j b Hj _ _.
  - split_and!; [done|by eapply emits_one|]. by intros j b Hj _ _.
Qed.

Lemma onTimeUpdate_idle p s : inv s → postroll_idle s (onTimeUpdate p s).
Proof.
  intros Hinv. unfold onTimeUpdate. destruct (negb (paused p)); [|by apply idle_same].
  destruct (last _) as [[i b0]|] eqn:Hlast; [|by apply idle_same].
  apply last_filter_entries in Hlast as (Hi & Hdue & _). simpl in Hdue.
  apply midroll_due_true in Hdue as (_ & t & _ & _ & Hlt); [|apply Hinv].
  pose proof (inv_snapback _ Hinv) as Hsn.
  apply (_playAdBreak_idle (configured i) (set_snapback (position b0) s)).
  simpl. intros b Hb. rewrite Hi in Hb. injection Hb as <-. lia.
Qed.

Lemma call0_idle h e p s :
  inv s → h ≠ h_onEnded → postroll_idle s (call0 h e p s).
Proof.
  intros Hinv Hh.
  destruct h, e;
    first [ done | by apply idle_same | by apply onTimeUpdate_idle
          | unfold call0, _onAdsCompleted; case_match;
            [split_and!; [done|by eapply emits_one|by intros ? ? ? _ _]
            |by apply idle_same]
          | unfold call0, _onAdError; cbv zeta; repeat case_match;
            first [ by apply idle_same
                  | split_and!; [done|by eapply emits_one|by intros ? ? ? _ _] ]
          | unfold call0, onSeeked; repeat case_match; by apply idle_same ].
Qed.

Lemma _init_idle p s s0 :
  EventManager.wf (_eventManager s0) → subscribed (_eventManager s0) →
  (∀ k, EventManager.held k (_eventManager s0) = []) →
  promises s0 = promises s → out s0 = out s →
  postroll_idle s (_init p s0).
Proof.
  intros Hwf Hsub Hempty Hp Ho.
  destruct (_init_fields p s0 Hwf Hsub Hempty) as (_ & Hpr & _).
  pose proof (_init_plays p s0 Hwf Hsub Hempty) as H. cbv zeta in H.
  assert (∀ l, (∀ i b, l !! i = Some b → position b = -1 → played b = true →
                       False) →
               _configAdBreaks (_init p s0) = l →
               postroll_untouched s (_init p s0)) as Hun.
  { intros l Hl Hc i b Hb Hpos Hpl. rewrite Hc in Hb.
    by destruct (Hl i b). }
  assert (∀ i b, configured_breaks p !! i = Some b → position b = -1 →
                 played b = true → False) as Hfresh.
  { intros i b Hb Hpos Hpl.
    rewrite (configured_postroll_unplayed p b) in Hpl; [done| |done].
    by eapply list_elem_of_lookup_2. }
  rewrite Ho in H.
  destruct (findIndex _ (configured_breaks p)) as [i0|] eqn:Hfi.
  - destruct H as (b0 & Hb0 & H).
    apply findIndex_Some in Hfi as [(b0' & Hb0' & Hf) _].
    rewrite Hb0 in Hb0'. injection Hb0' as <-.
    apply andb_true_iff in Hf as [Hz%Z.eqb_eq _].
    destruct (findIndex _ (_adsPluginControllers s0));
      destruct H as (Hout & Hcfg & _);
      (split_and!; [congruence|eexists; split; [exact Hout|by repeat constructor]|]).
    + apply (λ H, Hun _ H Hcfg). intros i b Hb Hpos Hpl.
      destruct (decide (i = i0)) as [->|Hne].
      * rewrite list_lookup_insert_eq in Hb by (by eapply lookup_lt_Some).
        injection Hb as <-. simpl in Hpos. lia.
      * rewrite list_lookup_insert_ne in Hb by done. by eapply Hfresh.
    + apply (Hun _ Hfresh Hcfg).
  - destruct H as (Hout & Hcfg & _).
    split_and!; [congruence| |by apply (Hun _ Hfresh Hcfg)].
    eexists. split; [exact Hout|]. case_bool_decide; by repeat constructor.
Qed.

Lemma step_idle s st :
  inv s → shape s →
  (∀ p', st ≠ Notify ENDED p') → (∀ n, st ≠ Settle n) →
  postroll_idle s (step s st).
Proof.
  intros Hinv Hsh Hne Hns. destruct st as [e p|n|i a d| |adPod p].
  - rewrite notify_eq by done. destruct e; try by apply call0_idle.
    + unfold _reset. destruct (reset_fresh p s Hinv) as (Hwf & Hsub & Hempty).
      by apply _init_idle.
    + by destruct (Hne p).
  - by destruct (Hns n).
  - simpl. unfold plugin_update. destruct (_ !! i); by apply idle_same.
  - simpl. unfold skipAd. destruct (findIndex _ _); [|by apply idle_same].
    split_and!; [done|by eapply emits_one|by intros ? ? ? _ _].
  - simpl. unfold playAdNow. destruct (isAdBreak s).
    + split_and!; [done|by eapply emits_one|by intros ? ? ? _ _].
    + by apply (_playAdBreak_idle (on_demand _)).
Qed.

(** Before the first media-ended notification no postroll handling has
    taken place. *)
Lemma idle_until_ended (steps : list Step) s :
  inv s → shape s → (∀ p', Notify ENDED p' ∉ steps) →
  promises s = [] ∧ Forall no_finish_request (out s)
  ∧ (∀ b, b ∈ _configAdBreaks s → position b = -1 → played b = false) →
  promises (run steps s) = [] ∧ Forall no_finish_request (out (run steps s))
  ∧ (∀ b, b ∈ _configAdBreaks (run steps s) → position b = -1 →
          played b = false).
Proof.
  revert s. induction steps as [|st steps IH]; intros s Hinv Hsh Hno Hq; [done|].
  simpl. apply IH; [by apply step_inv|by apply step_shape| |].
  { intros p' Hin. apply (Hno p'). by right. }
  destruct Hq as (Hp & Ho & Hc).
  assert ((∃ n, st = Settle n) ∨ ∀ n, st ≠ Settle n) as [[n ->]|Hns]
    by (destruct st; first [ by left; eexists | by right ]).
  { simpl. unfold settle. by rewrite Hp. }
  destruct (step_idle s st Hinv Hsh) as (Hp' & (d & Hd & Hf) & Hun); [|done|].
  { intros p' ->. apply (Hno p'). by left. }
  split_and!.
  - by rewrite Hp'.
  - rewrite Hd. by apply Forall_app.
  - intros b [i Hi]%list_elem_of_lookup Hpos.
    destruct (played b) eqn:Hpl; [|done].
    rewrite <-(Hc b); [done| |done].
    eapply list_elem_of_lookup_2. by apply Hun.
Qed.

(** C6.  In every state the controller can reach:
    - while an ad is loading the media-ended listener does nothing, and
      the notification leaves every member as it is, the registry apart;
    - with no ad loading and no position -1 in the layout the listener
      makes [allAdsCompleted] true and changes nothing else, so that the
      notification, while a binding is held for it, leaves the flag true,
      and dispatches no break, asks for no promise and plays nothing;
    - a step that is neither that notification nor the settling of a
      promise asks for no promise, requests no plugin controller to
      finish and plays no break at -1; the settling of a promise on
      which no callback waits does nothing; and as long as no media-ended
      notification has come, there is no promise, no plugin controller
      has been requested to finish and every break at -1 is unplayed.
    With an unplayed break at 10 and nothing at -1 the notification makes
    [allAdsCompleted] true and plays nothing; with a break at -1 and an
    on-demand ad loading it changes none of this. *)
Theorem ended_gates_postroll_handling
    (p0 : Player) (cs : list IAdsPluginController) (steps : list Step)
    (p : Player) :
  let s := run steps (constructor p0 cs) in
  let s' := step s (Notify ENDED p) in
  (_adIsLoading s = true →
     _onEnded s = s ∧ set_eventManager (_eventManager s) s' = s)
  ∧ (_adIsLoading s = false → includes (-1) (_adBreaksLayout s) = false →
     allAdsCompleted (_onEnded s) = true
     ∧ _onEnded s = set_allAdsCompleted true s
     ∧ (EventManager.held Html5EventType.ENDED (_eventManager s) ≠ [] →
        allAdsCompleted s' = true
        ∧ out s' = out s
        ∧ _configAdBreaks s' = _configAdBreaks s
        ∧ promises s' = promises s
        ∧ _adIsLoading s' = false))
  ∧ (∀ st, (∀ p', st ≠ Notify ENDED p') → (∀ n, st ≠ Settle n) →
           postroll_idle s (step s st))
  ∧ (∀ n, (∀ k, promises s !! n ≠ Some (Some k)) → step s (Settle n) = s)
  ∧ ((∀ p', Notify ENDED p' ∉ steps) →
     promises s = [] ∧ Forall no_finish_request (out s)
     ∧ ∀ b, b ∈ _configAdBreaks s → position b = -1 → played b = false)
  ∧ (let s0 := constructor (sample_player 0 [10]) [ima] in
     let s1 := step s0 (Notify ENDED (sample_player 30 [10])) in
     allAdsCompleted s0 = false ∧ allAdsCompleted s1 = true
     ∧ out s1 = out s0 ∧ played <$> _configAdBreaks s1 = [false])
  ∧ (let s0 := step (constructor (sample_player 0 [-1]) [ima])
                    (PlayAdNow [7%nat] (sample_player 30 [-1])) in
     let s1 := step s0 (Notify ENDED (sample_player 30 [-1])) in
     _adIsLoading s0 = true ∧ allAdsCompleted s1 = false
     ∧ out s1 = out s0 ∧ promises s1 = []
     ∧ played <$> _configAdBreaks s1 = [false]).
Proof.
  intros s s'.
  destruct (reachable p0 cs steps) as [Hinv Hsh]. fold s in Hinv, Hsh.
  assert (s' = match EventManager.held Html5EventType.ENDED (_eventManager s) with
               | [] => s
               | _ :: _ =>
                   _onEnded
                     (set_eventManager
                        (EventManager.unlisten the_player Html5EventType.ENDED
                           (_eventManager s)) s)
               end) as Hs' by (unfold s'; by rewrite notify_eq).
  split_and!.
  - intros Hload. split; [unfold _onEnded; by rewrite Hload|].
    rewrite Hs'. destruct (EventManager.held _ _); [by destruct s|].
    unfold _onEnded. simpl. rewrite Hload. by destruct s.
  - intros Hload Hlayout.
    assert (_onEnded s = set_allAdsCompleted true s) as Heq
      by (unfold _onEnded; by rewrite Hload, Hlayout).
    split_and!; [by rewrite Heq|done|].
    intros Harmed. rewrite Hs'. destruct (EventManager.held _ _); [done|].
    unfold _onEnded. simpl. by rewrite Hload, Hlayout.
  - intros st Hne Hns. by apply step_idle.
  - intros n Hn. simpl. unfold settle.
    destruct (promises s !! n) as [[k|]|] eqn:Hk; [|done..].
    by destruct (Hn k).
  - intros Hno. unfold s.
    destruct (reachable p0 cs []) as [Hinv0 Hsh0]. simpl in Hinv0, Hsh0.
    apply idle_until_ended; [done..|].
    unfold constructor. set (s0 := mkAdsController _ _ _ _ _ _ _ _ _ _ _ _).
    destruct (_init_idle p0 s0 s0 wf_new new_subscribed (λ _, eq_refl)
                eq_refl eq_refl) as (Hp & (d & Hd & Hf) & Hun).
    split_and!; [done|by rewrite Hd| ].
    intros b [i Hi]%list_elem_of_lookup Hpos.
    destruct (played b) eqn:Hpl; [|done].
    by specialize (Hun i b Hi Hpos Hpl).
  - by vm_compute.
  - by vm_compute.
Qed.

End EndedFacts.
